(** * Shape detector: a shallow embedding of [src/main.ts]

    The development follows the [ShapeDetector] class: binarisation,
    flood-fill component extraction, greedy boundary ordering,
    Douglas-Peucker simplification and the classification decision tree.

    Number model.  A JavaScript number is an IEEE-754 binary64 value.
    - Pixel coordinates, array indices, byte samples and the sums and
      products of them that the code forms are integers far below 2^53, on
      which binary64 arithmetic is exact: they are modelled in [Z].
    - [area] and [center] are halves of such integers (again exact in
      binary64): they are modelled in [Q].
    - Everything that is rounded (divisions, square roots, confidences,
      circularity, angles) is a primitive [float], Rocq's binary64, so
      that the model evaluates exactly as the program does; what is
      proved about such values for all inputs goes through the
      specification of binary64 in [SpecFloat].
    - [Math.acos] is implementation-defined in ECMAScript; it is a
      parameter of the classifier section.

    Loops.  The three unbounded loops ([while] in [floodFill] and in
    [orderBoundaryPoints], the recursion of [simplifyContour]) take fuel
    and return [None] when it runs out; the termination lemmas show that
    the fuel supplied by their callers always suffices.

    Arrays.  [new Array(n)] needs a valid length; the dimensions of an
    [ImageData] always give one, and the model allocates [Z.to_nat n]
    cells. *)

From Stdlib Require Import ZArith QArith Floats Uint63 Lia Bool Sorted.
From Stdlib Require String Ascii DecimalString DecimalZ DecimalPos.
From stdpp Require Import base option list.

Local Open Scope Z_scope.

(** Decimal literals denote the nearest binary64 value, as in JavaScript. *)
Set Warnings "-inexact-float".

(** ** JavaScript numbers *)

Module JS.

(** The binary64 value of an integer (exact below 2^53). *)
Definition Z2F (z : Z) : float :=
  if z <? 0 then PrimFloat.opp (PrimFloat.of_uint63 (Uint63.of_Z (- z)))
  else PrimFloat.of_uint63 (Uint63.of_Z z).

(** The binary64 value of a fraction: numerator divided by denominator. *)
Definition Q2F (q : Q) : float :=
  PrimFloat.div (Z2F (Qnum q)) (Z2F (Zpos (Qden q))).

(** [Math.PI] *)
Definition PI : float := 0x1.921fb54442d18p+1%float.

(** [Math.min] and [Math.max] on two arguments: NaN is contagious and
    -0 is below +0. *)
Definition min (a b : float) : float :=
  if PrimFloat.is_nan a || PrimFloat.is_nan b then PrimFloat.nan
  else if PrimFloat.ltb a b then a
  else if PrimFloat.ltb b a then b
  else if PrimFloat.get_sign a then a else b.

Definition max (a b : float) : float :=
  if PrimFloat.is_nan a || PrimFloat.is_nan b then PrimFloat.nan
  else if PrimFloat.ltb a b then b
  else if PrimFloat.ltb b a then a
  else if PrimFloat.get_sign a then b else a.

(** [Math.min(...xs)] and [Math.max(...xs)]. *)
Definition min_list (xs : list float) : float :=
  fold_left min xs PrimFloat.infinity.

Definition max_list (xs : list float) : float :=
  fold_left max xs PrimFloat.neg_infinity.

(** [Math.pow(x, 2)], taken as the rounded product. *)
Definition sq (x : float) : float := PrimFloat.mul x x.

(** Reading a boolean array: [undefined] (index out of range) is falsy. *)
Definition getb (l : list bool) (i : Z) : bool :=
  if i <? 0 then false else default false (l !! Z.to_nat i).

(** Writing [l[i] = v]: in range the cell is replaced, beyond the end
    the array is extended (the holes read as falsy). *)
Definition setb (l : list bool) (i : nat) (v : bool) : list bool :=
  if (i <? length l)%nat then <[i := v]> l
  else l ++ replicate (i - length l) false ++ [v].

(** [0, 1, ..., n-1] as loop counters. *)
Definition range (n : Z) : list Z := map Z.of_nat (seq 0 (Z.to_nat n)).

End JS.

(** An out-of-range read of a number array yields [undefined], which
    arithmetic turns into NaN. *)
#[global] Instance float_inhabited : Inhabited float := populate PrimFloat.nan.

(** ** Data model *)

Record Point := mkPoint { px : Z; py : Z }.

#[global] Instance Point_eq_dec : EqDecision Point.
Proof. solve_decision. Defined.

#[global] Instance Point_inhabited : Inhabited Point := populate (mkPoint 0 0).

Inductive ShapeType := circle | triangle | rectangle | pentagon | star.

#[global] Instance ShapeType_eq_dec : EqDecision ShapeType.
Proof. solve_decision. Defined.

Record Box := mkBox { bx : Z; by_ : Z; bwidth : Z; bheight : Z }.

Record Center := mkCenter { cx : Q; cy : Q }.

Record DetectedShape := mkShape {
  type : ShapeType;
  confidence : float;
  boundingBox : Box;
  center : Center;
  area : Q
}.

Record DetectionResult := mkResult {
  shapes : list DetectedShape;
  processingTime : float;
  imageWidth : Z;
  imageHeight : Z
}.

(** [ImageData]: [data] holds 4 samples (0..255) per pixel. *)
Record ImageData := mkImage { data : list Z; width : Z; height : Z }.

(** ** The caller's world

    [detectShapes] touches two things it does not own: the [ImageData]
    object handed in by the caller and the clock behind
    [performance.now()].  They form the state that is threaded through the
    call; every array the pipeline allocates itself is a local value. *)

Record World := mkWorld {
  image : ImageData;      (* the caller's pixel buffer *)
  now : nat -> float;     (* the successive clock readings *)
  ticks : nat             (* how many readings were taken so far *)
}.

Definition M (A : Type) : Type := World -> A * World.

#[global] Instance M_ret : MRet M := fun A (a : A) (s : World) => (a, s).

#[global] Instance M_bind : MBind M :=
  fun A B (f : A -> M B) (m : M A) (s : World) =>
    let '(a, s') := m s in f a s'.

(** [performance.now()] *)
Definition performance_now : M float :=
  fun s => (now s (ticks s), mkWorld (image s) (now s) (S (ticks s))).

(** [data[i]]; [None] is [undefined]. *)
Definition readData (i : nat) : M (option Z) :=
  fun s => (data (image s) !! i, s).

(** [data.length] *)
Definition dataLength : M nat := fun s => (length (data (image s)), s).

(** [const { data, width, height } = imageData]: the two dimensions are
    copied, [data] stays a reference into the world. *)
Definition dimensions : M (Z * Z) :=
  fun s => ((width (image s), height (image s)), s).

(** A [for] loop over [xs] with accumulator, in the monad. *)
Fixpoint forM {A B : Type} (xs : list A) (acc : B) (body : B -> A -> M B)
  : M B :=
  match xs with
  | [] => mret acc
  | x :: xs' => acc' ← body acc x; forM xs' acc' body
  end.

(** ** Binarisation: [createBinaryImage] *)

(** [(r + g + b) / 3]; an [undefined] sample makes the sum NaN. *)
Definition grayOf (r g b : option Z) : float :=
  match r, g, b with
  | Some r, Some g, Some b => (JS.Z2F (r + g + b) / 3)%float
  | _, _, _ => PrimFloat.nan
  end.

(** The start indices [0, 4, 8, ...] below [len]. *)
Definition pixelStarts (len : nat) : list nat :=
  map (fun k => 4 * k)%nat (seq 0 ((len + 3) / 4)).

Definition createBinaryImage (w h : Z) : M (list bool) :=
  len ← dataLength;
  forM (pixelStarts len) (replicate (Z.to_nat (w * h)) false)
       (fun binary i =>
          r ← readData i;
          g ← readData (i + 1);
          b ← readData (i + 2);
          let gray := grayOf r g b in
          let index := (i / 4)%nat in
          mret (JS.setb binary index (gray <? 128)%float)).

(** ** Component extraction: [floodFill] *)

(** The eight offsets in the order of the two nested [dy], [dx] loops. *)
Definition offsets : list (Z * Z) :=
  [(-1, -1); (0, -1); (1, -1); (-1, 0); (1, 0); (-1, 1); (0, 1); (1, 1)].

Definition inBounds (w h x y : Z) : bool :=
  negb ((x <? 0) || (w <=? x) || (y <? 0) || (h <=? y)).

(** [isBoundary]: some neighbour is outside the image or light. *)
Definition isBoundary (binary : list bool) (w h x y : Z) : bool :=
  existsb (fun '(dx, dy) =>
             let nx := x + dx in
             let ny := y + dy in
             if negb (inBounds w h nx ny) then true
             else negb (JS.getb binary (ny * w + nx)))
          offsets.

(** The working state of the fill loop.  [stack] has its top first;
    [allPoints] and [boundaryPoints] grow at the end, as [push] does. *)
Record Fill := mkFill {
  visited : list bool;
  stack : list Point;
  allPoints : list Point;
  boundaryPoints : list Point
}.

(** The neighbours pushed onto the stack: the last pushed is on top. *)
Definition pushNeighbours (x y : Z) (st : list Point) : list Point :=
  fold_left (fun s '(dx, dy) => mkPoint (x + dx) (y + dy) :: s) offsets st.

(** One iteration of [while (stack.length > 0)]; [None] when the stack is
    empty. *)
Definition fillStep (binary : list bool) (w h : Z) (s : Fill) : option Fill :=
  match stack s with
  | [] => None
  | p :: rest =>
      let x := px p in
      let y := py p in
      let index := y * w + x in
      if negb (inBounds w h x y) || JS.getb (visited s) index
         || negb (JS.getb binary index)
      then Some (mkFill (visited s) rest (allPoints s) (boundaryPoints s))
      else
        Some (mkFill (JS.setb (visited s) (Z.to_nat index) true)
                     (pushNeighbours x y rest)
                     (allPoints s ++ [p])
                     (if isBoundary binary w h x y
                      then boundaryPoints s ++ [p] else boundaryPoints s))
  end.

(** The loop itself; [None] only when the fuel does not suffice. *)
Fixpoint fillLoop (fuel : nat) (binary : list bool) (w h : Z) (s : Fill)
  : option Fill :=
  match fuel with
  | O => None
  | S fuel' =>
      match fillStep binary w h s with
      | None => Some s
      | Some s' => fillLoop fuel' binary w h s'
      end
  end.

(** ** Boundary ordering: [orderBoundaryPoints] *)

(** [new Set(points.map(key))]: insertion order, first occurrence kept.
    The keys [`${x},${y}`] are in bijection with the integer points, so a
    key is the point. *)
Definition setOf (l : list Point) : list Point :=
  fold_left (fun s p => if bool_decide (p ∈ s) then s else s ++ [p]) l [].

(** [remaining.delete(key)] *)
Definition setDelete (p : Point) (s : list Point) : list Point :=
  filter (fun q => q ≠ p) s.

Definition manhattan (p c : Point) : Z :=
  Z.abs (px p - px c) + Z.abs (py p - py c).

Definition euclid (p c : Point) : float :=
  PrimFloat.sqrt (JS.Z2F ((px p - px c) * (px p - px c)
                          + (py p - py c) * (py p - py c))).

(** First scan: the nearest point at Manhattan distance at most 2. *)
Definition nearScan (current : Point) (remaining : list Point)
  : float * option Point :=
  fold_left (fun '(minDist, nearest) p =>
               let dist := manhattan p current in
               if PrimFloat.ltb (JS.Z2F dist) minDist && (dist <=? 2)
               then (JS.Z2F dist, Some p) else (minDist, nearest))
            remaining (PrimFloat.infinity, None).

(** Second scan: the nearest point at Euclidean distance. *)
Definition farScan (current : Point) (remaining : list Point)
           (start : float * option Point) : float * option Point :=
  fold_left (fun '(minDist, nearest) p =>
               let dist := euclid p current in
               if PrimFloat.ltb dist minDist
               then (dist, Some p) else (minDist, nearest))
            remaining start.

(** The point selected in one iteration of the ordering loop. *)
Definition selectNext (current : Point) (remaining : list Point)
  : option Point :=
  match nearScan current remaining with
  | (_, Some p) => Some p
  | (minDist, None) => snd (farScan current remaining (minDist, None))
  end.

Fixpoint orderLoop (fuel : nat) (ordered remaining : list Point)
         (current : Point) : option (list Point) :=
  match fuel with
  | O => None
  | S fuel' =>
      match remaining with
      | [] => Some ordered
      | _ :: _ =>
          match selectNext current remaining with
          | Some p => orderLoop fuel' (ordered ++ [p]) (setDelete p remaining) p
          | None => Some ordered
          end
      end
  end.

Definition orderBoundaryPoints (fuel : nat) (boundary all : list Point)
  : option (list Point) :=
  match boundary with
  | [] => Some all
  | b0 :: rest =>
      ordered ← orderLoop fuel [b0] (setOf rest) b0;
      Some (if (0 <? length ordered)%nat then ordered else all)
  end.

(** Fuel that always suffices (see the termination lemmas). *)
Definition fillFuel (vis : list bool) : nat := 8 * length vis + 2.
Definition orderFuel (boundary : list Point) : nat := length boundary.

(** The two phases of [floodFill]: the fill loop from the seed, then the
    choice of the contour.  The final loop state is kept so that the full
    pixel set of the component can be named. *)
Definition floodRegion (binary vis : list bool) (startX startY w h : Z)
  : option (Fill * list Point) :=
  s ← fillLoop (fillFuel vis) binary w h
        (mkFill vis [mkPoint startX startY] [] []);
  contour ← (if (0 <? length (boundaryPoints s))%nat
             then orderBoundaryPoints (orderFuel (boundaryPoints s))
                                      (boundaryPoints s) (allPoints s)
             else Some (allPoints s));
  Some (s, contour).

(** [floodFill] returns the contour; the updated [visited] array, which the
    source mutates in place, is returned with it. *)
Definition floodFill (binary vis : list bool) (startX startY w h : Z)
  : option (list Point * list bool) :=
  '(s, contour) ← floodRegion binary vis startX startY w h;
  Some (contour, visited s).

(** ** [findContours] *)

(** The body of the two nested loops at pixel [(x, y)]. *)
Definition scanPixel (binary : list bool) (w h : Z)
           (acc : option (list bool * list (list Point))) (xy : Z * Z)
  : option (list bool * list (list Point)) :=
  '(vis, contours) ← acc;
  let '(x, y) := xy in
  let index := y * w + x in
  if JS.getb binary index && negb (JS.getb vis index) then
    '(contour, vis') ← floodFill binary vis x y w h;
    Some (vis',
          if (10 <? length contour)%nat then contours ++ [contour]
          else contours)
  else Some (vis, contours).

(** Row-major pixel order. *)
Definition raster (w h : Z) : list (Z * Z) :=
  y ← JS.range h; x ← JS.range w; [(x, y)].

Definition findContours (binary : list bool) (w h : Z)
  : option (list (list Point)) :=
  '(_, contours) ← fold_left (scanPixel binary w h) (raster w h)
                     (Some (replicate (Z.to_nat (w * h)) false, []));
  Some contours.

(** The same raster scan without the noise filter: for every seed, in
    scan order, the full pixel set of its component and the contour that
    [floodFill] returns for it.  It serves to state which components
    [findContours] keeps. *)
Definition scanComponent (binary : list bool) (w h : Z)
           (acc : option (list bool * list (list Point * list Point)))
           (xy : Z * Z)
  : option (list bool * list (list Point * list Point)) :=
  '(vis, comps) ← acc;
  let '(x, y) := xy in
  let index := y * w + x in
  if JS.getb binary index && negb (JS.getb vis index) then
    '(s, contour) ← floodRegion binary vis x y w h;
    Some (visited s, comps ++ [(allPoints s, contour)])
  else Some (vis, comps).

Definition components (binary : list bool) (w h : Z)
  : option (list (list Point * list Point)) :=
  '(_, comps) ← fold_left (scanComponent binary w h) (raster w h)
                  (Some (replicate (Z.to_nat (w * h)) false, []));
  Some comps.

(** ** Polygon simplification: [simplifyContour] *)

(** [pointToLineDistance]: distance from [point] to the segment.  The
    differences and the two integer sums are exact; the quotient, the
    projection and the root are rounded. *)
Definition pointToLineDistance (point lineStart lineEnd : Point) : float :=
  let A := px point - px lineStart in
  let B := py point - py lineStart in
  let C := px lineEnd - px lineStart in
  let D := py lineEnd - py lineStart in
  let dot := A * C + B * D in
  let lenSq := C * C + D * D in
  let param : float :=
    if negb (lenSq =? 0) then (JS.Z2F dot / JS.Z2F lenSq)%float
    else (-1)%float in
  let '(xx, yy) :=
    if (param <? 0)%float then (JS.Z2F (px lineStart), JS.Z2F (py lineStart))
    else if (1 <? param)%float then (JS.Z2F (px lineEnd), JS.Z2F (py lineEnd))
    else ((JS.Z2F (px lineStart) + param * JS.Z2F C)%float,
          (JS.Z2F (py lineStart) + param * JS.Z2F D)%float) in
  let dx := (JS.Z2F (px point) - xx)%float in
  let dy := (JS.Z2F (py point) - yy)%float in
  PrimFloat.sqrt (dx * dx + dy * dy)%float.

(** The [for] loop of [simplifyContour]: the farthest interior point,
    as the pair [(maxDist, maxIndex)]. *)
Definition farthest (contour : list Point) : float * nat :=
  let first := contour !!! 0%nat in
  let last := contour !!! (length contour - 1)%nat in
  fold_left (fun '(maxDist, maxIndex) i =>
               let dist := pointToLineDistance (contour !!! i) first last in
               if (maxDist <? dist)%float then (dist, i)
               else (maxDist, maxIndex))
            (seq 1 (length contour - 2)) (0%float, 0%nat).

(** [l.slice(0, -1)] *)
Definition dropLast (l : list Point) : list Point := take (length l - 1) l.

(** The recursion copies [epsilon] unchanged; [None] only when the fuel
    does not suffice. *)
Fixpoint simplifyContour (fuel : nat) (contour : list Point) (epsilon : float)
  : option (list Point) :=
  match fuel with
  | O => None
  | S fuel' =>
      if (length contour <=? 2)%nat then Some contour
      else
        let '(maxDist, maxIndex) := farthest contour in
        if (epsilon <? maxDist)%float then
          left ← simplifyContour fuel' (take (maxIndex + 1) contour) epsilon;
          right ← simplifyContour fuel' (drop maxIndex contour) epsilon;
          Some (dropLast left ++ right)
        else Some [contour !!! 0%nat; contour !!! (length contour - 1)%nat]
  end.

(** ** Geometry of the classifier *)

Record Bounds := mkBounds { minX : Z; minY : Z; bw : Z; bh : Z }.

(** [calculateBounds].  On a non-empty array the four running extremes
    are integers.  On the empty array the source returns infinite
    extents; that case is [None] here, and [detectShapes] never reaches
    it (a classified contour has at least 3 points). *)
Definition calculateBounds (points : list Point) : option Bounds :=
  match points with
  | [] => None
  | p :: _ =>
      let '(x0, y0, x1, y1) :=
        fold_left (fun '(x0, y0, x1, y1) q =>
                     (Z.min x0 (px q), Z.min y0 (py q),
                      Z.max x1 (px q), Z.max y1 (py q)))
                  points (px p, py p, px p, py p) in
      Some (mkBounds x0 y0 (x1 - x0 + 1) (y1 - y0 + 1))
  end.

(** The signed shoelace sum accumulated by the loop of [calculateArea]. *)
Definition shoelace (points : list Point) : Z :=
  let n := length points in
  fold_left (fun acc i =>
               let j := ((i + 1) mod n)%nat in
               acc + px (points !!! i) * py (points !!! j)
                   - px (points !!! j) * py (points !!! i))
            (seq 0 n) 0.

(** [calculateArea]: [Math.abs(area) / 2]. *)
Definition calculateArea (points : list Point) : Q :=
  Qmake (Z.abs (shoelace points)) 2.

(** [calculateEdgeLengths] *)
Definition calculateEdgeLengths (points : list Point) : list float :=
  let n := length points in
  map (fun i => euclid (points !!! ((i + 1) mod n)%nat) (points !!! i))
      (seq 0 n).

(** [calculatePerimeter] *)
Definition calculatePerimeter (points : list Point) : float :=
  fold_left PrimFloat.add (calculateEdgeLengths points) 0%float.

Section Classifier.

(** [Math.acos] of the host. *)
Variable acos : float -> float.

(** The vector norm [Math.sqrt(v.x * v.x + v.y * v.y)]. *)
Definition mag (vx vy : Z) : float :=
  PrimFloat.sqrt (JS.Z2F (vx * vx + vy * vy)).

(** The clamped cosine handed to [Math.acos]. *)
Definition clampCos (cosAngle : float) : float :=
  JS.max (-1)%float (JS.min 1%float cosAngle).

(** The two edge vectors at vertex [i]: [v1 = prev - curr] and
    [v2 = next - curr], as [(v1.x, v1.y, v2.x, v2.y)]. *)
Definition edgeVectors (points : list Point) (i : nat) : Z * Z * Z * Z :=
  let n := length points in
  let prev := points !!! ((i + n - 1) mod n)%nat in
  let curr := points !!! i in
  let next := points !!! ((i + 1) mod n)%nat in
  (px prev - px curr, py prev - py curr,
   px next - px curr, py next - py curr).

(** The divisor [mag1 * mag2] of the cosine. *)
Definition divisorAt (points : list Point) (i : nat) : float :=
  let '(v1x, v1y, v2x, v2y) := edgeVectors points i in
  (mag v1x v1y * mag v2x v2y)%float.

(** [cosAngle = dot / (mag1 * mag2)] *)
Definition cosAngleAt (points : list Point) (i : nat) : float :=
  let '(v1x, v1y, v2x, v2y) := edgeVectors points i in
  let dot := v1x * v2x + v1y * v2y in
  (JS.Z2F dot / divisorAt points i)%float.

(** The angle at vertex [i] of [calculateAngles], in degrees. *)
Definition angleAt (points : list Point) (i : nat) : float :=
  (acos (clampCos (cosAngleAt points i)) * (180 / JS.PI))%float.

Definition calculateAngles (points : list Point) : list float :=
  map (angleAt points) (seq 0 (length points)).

Definition isTriangle (points : list Point) : bool :=
  if negb (length points =? 3)%nat then false
  else
    let angles := calculateAngles points in
    let minAngle := JS.min_list angles in
    let maxAngle := JS.max_list angles in
    (20 <? minAngle)%float && (maxAngle <? 160)%float.

Definition isRectangle (points : list Point) : bool :=
  if (length points <? 4)%nat then false
  else
    let angles := calculateAngles points in
    let rightAngles :=
      fold_left (fun k angle =>
                   if (PrimFloat.abs (angle - 90) <? 30)%float
                   then k + 1 else k) angles 0 in
    2 <=? rightAngles.

Definition isPentagon (points : list Point) : bool :=
  if (length points <? 5)%nat then false
  else
    let edgeLengths := calculateEdgeLengths points in
    let count := JS.Z2F (Z.of_nat (length edgeLengths)) in
    let avgLength :=
      (fold_left PrimFloat.add edgeLengths 0 / count)%float in
    let variance :=
      (fold_left (fun sum len => sum + JS.sq (len - avgLength))
                 edgeLengths 0 / count)%float in
    let stdDev := PrimFloat.sqrt variance in
    (stdDev / avgLength <? 0.3)%float.

(** [alternating >= points.length / 2] compares an integer with a half
    integer; doubled, both sides are integers. *)
Definition isStar (points : list Point) : bool :=
  if (length points <? 8)%nat then false
  else
    let angles := calculateAngles points in
    let alternating :=
      fold_left (fun k i =>
                   let diff := PrimFloat.abs
                                 (angles !!! i - angles !!! (i + 1)%nat) in
                   if (30 <? diff)%float then k + 1 else k)
                (seq 0 (length angles - 1)) 0 in
    Z.of_nat (length points) <=? 2 * alternating.

(** The decision tree of [classifyShape]: the label and the confidence
    before the final clamp, or [None] for [return null]. *)
Definition decide_shape (simplified : list Point) (circularity : float)
  : option (ShapeType * float) :=
  let numVertices := length simplified in
  if (0.85 <? circularity)%float && (8 <=? numVertices)%nat then
    Some (circle, JS.min 0.95%float (0.7 + circularity * 0.25)%float)
  else if (numVertices =? 3)%nat
          || ((3 <=? numVertices)%nat && (numVertices <=? 5)%nat
              && isTriangle simplified) then
    Some (triangle,
          (0.85 + (if (numVertices =? 3)%nat then 0.1 else -0.1))%float)
  else if (numVertices =? 4)%nat
          || ((4 <=? numVertices)%nat && (numVertices <=? 6)%nat
              && isRectangle simplified) then
    Some (rectangle,
          (0.9 + (if (numVertices =? 4)%nat then 0.08 else -0.1))%float)
  else if (numVertices =? 5)%nat
          || ((5 <=? numVertices)%nat && (numVertices <=? 7)%nat
              && isPentagon simplified) then
    Some (pentagon,
          (0.85 + (if (numVertices =? 5)%nat then 0.1 else -0.1))%float)
  else if (8 <=? numVertices)%nat && (numVertices <=? 12)%nat
          && isStar simplified then
    Some (star, 0.8%float)
  else if (6 <=? numVertices)%nat && (numVertices <=? 8)%nat then
    Some (pentagon, 0.75%float)
  else None.

Definition classifyShape (simplified originalContour : list Point)
  : option DetectedShape :=
  bounds ← calculateBounds originalContour;
  let center := mkCenter (inject_Z (minX bounds) + Qmake (bw bounds) 2)
                         (inject_Z (minY bounds) + Qmake (bh bounds) 2) in
  let area := calculateArea originalContour in
  let perimeter := calculatePerimeter simplified in
  let circularity :=
    (4 * JS.PI * JS.Q2F area / (perimeter * perimeter))%float in
  '(shapeType, confidence) ← decide_shape simplified circularity;
  Some (mkShape shapeType (JS.min 1%float confidence)
                (mkBox (minX bounds) (minY bounds) (bw bounds) (bh bounds))
                center area).

(** ** [detectShapes] *)

(** The body of [for (const contour of contours)]. *)
Definition processContour (acc : option (list DetectedShape))
           (contour : list Point) : option (list DetectedShape) :=
  shapes ← acc;
  if (length contour <? 3)%nat then Some shapes
  else
    simplified ← simplifyContour (S (length contour)) contour 2%float;
    if (length simplified <? 3)%nat then Some shapes
    else
      match classifyShape simplified contour with
      | Some shapeInfo => Some (shapes ++ [shapeInfo])
      | None => Some shapes
      end.

(** Steps 2 and 3 of [detectShapes]: the contours of the mask, each
    one simplified and classified in turn. *)
Definition processContours (binary : list bool) (w h : Z)
  : option (list DetectedShape) :=
  contours ← findContours binary w h;
  fold_left processContour contours (Some []).

Definition detectShapes : M (option DetectionResult) :=
  startTime ← performance_now;
  '(w, h) ← dimensions;
  binary ← createBinaryImage w h;
  let found := processContours binary w h in
  endTime ← performance_now;
  mret (shapes ← found;
        Some (mkResult shapes (endTime - startTime)%float w h)).

End Classifier.

(** ** Vocabulary of the statements *)

(** The number of cells still unvisited. *)
Definition unvisited (l : list bool) : nat :=
  length (filter (fun b => b = false) l).

(** Each iteration lowers this measure: a pop costs one, a newly marked
    pixel pays for the eight pushes. *)
Definition fillMeasure (s : Fill) : nat :=
  (8 * unvisited (visited s) + length (stack s))%nat.

(** The boundary pixels among [all]: those with a neighbour that is
    light or outside the image. *)
Definition boundaryOf (binary : list bool) (w h : Z) (all : list Point)
  : list Point :=
  filter (fun p => isBoundary binary w h (px p) (py p) = true) all.

(** The invariant of the fill loop in a [w] x [h] image. *)
Record FillInv (binary : list bool) (w h : Z) (s : Fill) : Prop := mkFillInv {
  inv_len : length (visited s) = Z.to_nat (w * h);
  inv_bounds : forall p, p ∈ allPoints s -> inBounds w h (px p) (py p) = true;
  inv_marked : forall p, p ∈ allPoints s ->
                         JS.getb (visited s) (py p * w + px p) = true;
  inv_nodup : NoDup (allPoints s);
  inv_boundary : boundaryPoints s = boundaryOf binary w h (allPoints s)
}.

(** All mutual Euclidean distances are finite doubles (a check that can
    be run on a given array). *)
Definition finiteDistances (l : list Point) : Prop :=
  forallb (fun p =>
             forallb (fun q => PrimFloat.ltb (euclid p q) PrimFloat.infinity)
                     l) l = true.

(** The contour of a component: its boundary pixels in some order, or
    all its pixels when none is on the boundary. *)
Definition isContourOf (binary : list bool) (w h : Z)
           (all contour : list Point) : Prop :=
  match boundaryOf binary w h all with
  | [] => contour = all
  | _ :: _ => contour ≡ₚ boundaryOf binary w h all
  end.

(** What is known of a component and of the contour chosen for it. *)
Definition goodComponent (binary : list bool) (w h : Z)
           (c : list Point * list Point) : Prop :=
  NoDup (fst c) /\ NoDup (snd c)
  /\ (forall p, p ∈ fst c -> inBounds w h (px p) (py p) = true)
  /\ (forall p, p ∈ snd c -> p ∈ fst c)
  /\ (w <= 2 ^ 25 -> h <= 2 ^ 25 -> isContourOf binary w h (fst c) (snd c)).

(** The contours kept are those of more than 10 points. *)
Definition kept (comps : list (list Point * list Point))
  : list (list Point) :=
  map snd (filter (fun c => (10 < length (snd c))%nat) comps).

(** A number that is neither NaN nor negative: +0, a positive finite
    number or +infinity. *)
Definition nonneg_spec (x : spec_float) : Prop :=
  match x with
  | S754_zero false | S754_finite false _ _ | S754_infinity false => True
  | _ => False
  end.

Definition nonnegF (x : float) : Prop := nonneg_spec (Prim2SF x).

(** A computation that leaves the world as it found it and whose result
    depends on the image only. *)
Definition readsOnly {A : Type} (m : M A) : Prop :=
  forall W, snd (m W) = W
            /\ forall W', image W' = image W -> fst (m W') = fst (m W).

(** The mask that the call computes from the world's image. *)
Definition maskOf (W : World) : list bool :=
  fst (createBinaryImage (width (image W)) (height (image W)) W).

(** The position of the leading bit: [m * 2^e] lies in
    [[2^(position - 1), 2^position)]. *)
Definition position (m : positive) (e : Z) : Z := Zdigits2 (Z.pos m) + e.

(** A positive number at or above [2^(lo - 1)], possibly +infinity. *)
Definition posAbove (lo : Z) (x : spec_float) : Prop :=
  match x with
  | S754_infinity false => True
  | S754_finite false m e => lo <= position m e
  | _ => False
  end.

(** A finite number or a zero, of either sign. *)
Definition finite_spec (x : spec_float) : Prop :=
  match x with
  | S754_zero _ | S754_finite _ _ _ => True
  | _ => False
  end.

(** A number: anything but NaN. *)
Definition numF (x : float) : Prop := Prim2SF x <> S754_nan.

(** Pixel coordinates: integers on which the arithmetic of the model is
    exact. *)
Definition pixelRange (p : Point) : Prop :=
  (Z.abs (px p) <? 2 ^ 25) && (Z.abs (py p) <? 2 ^ 25) = true.

(** Consecutive vertices (the last and the first included) are distinct. *)
Definition consecutiveDistinct (points : list Point) : Prop :=
  forallb (fun i => negb (bool_decide
                            (points !!! i
                             = points !!! ((i + 1) mod length points)%nat)))
          (seq 0 (length points)) = true.

(** ** Concrete inputs used below *)

(** A fully dark 4 x 3 mask: 12 pixels, 10 of them on the boundary. *)
Definition blockMask : list bool := replicate 12 true.

(** A dark pixel is opaque black, a light one opaque white. *)
Definition rgba (dark : bool) : list Z :=
  if dark then [0; 0; 0; 255] else [255; 255; 255; 255].

Definition imageOfRows (rows : list (list bool)) (w h : Z) : ImageData :=
  mkImage (concat (map rgba (concat rows))) w h.

(** A one-pixel-wide rectangular spiral of one and a half turns in a
    13 x 13 image. *)
Definition spiralRows : list (list bool) :=
  let X := true in
  let o := false in
  [[X;X;X;X;X;X;X;X;X;X;X;X;X];
   [o;o;o;o;o;o;o;o;o;o;o;o;X];
   [X;X;X;X;X;X;X;X;X;X;X;o;X];
   [X;o;o;o;o;o;o;o;o;o;X;o;X];
   [X;o;o;o;o;o;o;o;o;o;X;o;X];
   [X;o;o;o;o;o;o;o;o;o;X;o;X];
   [X;o;o;o;o;o;o;o;o;o;X;o;X];
   [X;o;o;o;o;o;o;o;o;o;X;o;X];
   [X;o;o;o;o;o;o;o;o;o;X;o;X];
   [X;o;o;o;o;o;o;o;o;o;X;o;X];
   [X;o;o;o;o;o;o;o;o;o;X;o;X];
   [X;o;o;o;o;o;o;o;o;o;o;o;X];
   [X;X;X;X;X;X;X;X;X;X;X;X;X]].

Definition spiralImage : ImageData := imageOfRows spiralRows 13 13.

(** A clock that reads 0, 1, 2, ... *)
Definition tickClock (n : nat) : float := JS.Z2F (Z.of_nat n).

Definition spiralWorld : World := mkWorld spiralImage tickClock 0.

(** Three far-apart points, the corners of a right triangle. *)
Definition trianglePoints : list Point :=
  [mkPoint 0 0; mkPoint 12 0; mkPoint 0 12].

(** An L-shaped path of five points. *)
Definition ellPoints : list Point :=
  [mkPoint 0 0; mkPoint 5 0; mkPoint 10 0; mkPoint 10 5; mkPoint 10 10].

(** Three collinear points. *)
Definition linePoints : list Point :=
  [mkPoint 0 0; mkPoint 1 0; mkPoint 2 0].

(** The concrete inputs below are never asked for an angle (a polygon of
    3 vertices is a triangle before [isTriangle] is consulted, one of 7
    vertices only has its edge lengths measured), so any function can
    stand for [Math.acos] when they are evaluated. *)
Definition noAcos (x : float) : float := PrimFloat.nan.

(** What the call returns for the spiral when the clock reads 0 and 1. *)
Definition spiralShape : DetectedShape :=
  mkShape pentagon 0.75 (mkBox 0 0 13 13) (mkCenter (13 # 2) (13 # 2))
          (348 # 2).

Definition spiralResult : DetectionResult := mkResult [spiralShape] 1 13 13.

(** A well-formed buffer: positive dimensions, four samples per pixel,
    every sample a byte. *)
Definition wellFormed (img : ImageData) : Prop :=
  (0 <? width img) && (0 <? height img)
  && (Z.of_nat (length (data img)) =? 4 * width img * height img)
  && forallb (fun b => (0 <=? b) && (b <=? 255)) (data img) = true.

(** ** Vocabulary of the further properties *)

(** The sum of the red, green and blue samples of pixel [k]. *)
Definition colourSum (d : list Z) (k : nat) : Z :=
  default 0 (d !! (4 * k)%nat) + default 0 (d !! (4 * k + 1)%nat)
  + default 0 (d !! (4 * k + 2)%nat).

(** A dark pixel of the mask inside the [w] x [h] image. *)
Definition darkAt (binary : list bool) (w h : Z) (p : Point) : bool :=
  inBounds w h (px p) (py p) && JS.getb binary (py p * w + px p).

(** Two distinct pixels that touch by a side or a corner. *)
Definition adjacent (p q : Point) : Prop :=
  Z.max (Z.abs (px q - px p)) (Z.abs (py q - py p)) = 1.

(** The dark pixels joined to [seed] by a chain of adjacent dark pixels. *)
Inductive connected (binary : list bool) (w h : Z) (seed : Point)
  : Point -> Prop :=
| connected_seed :
    darkAt binary w h seed = true -> connected binary w h seed seed
| connected_step (p q : Point) :
    connected binary w h seed p -> adjacent p q ->
    darkAt binary w h q = true -> connected binary w h seed q.

(** The invariant of the fill loop started at [seed] with the array
    [vis0] of pixels visited by earlier fills. *)
Record FillReach (binary : list bool) (w h : Z) (vis0 : list bool)
       (seed : Point) (s : Fill) : Prop := mkFillReach {
  fr_len : length (visited s) = Z.to_nat (w * h);
  fr_dark : forall p, p ∈ allPoints s ->
                      darkAt binary w h p = true
                      /\ JS.getb vis0 (py p * w + px p) = false;
  fr_visited : forall i, JS.getb (visited s) i = true
                         <-> JS.getb vis0 i = true
                             \/ exists p, p ∈ allPoints s
                                          /\ py p * w + px p = i;
  fr_conn : forall p, p ∈ allPoints s -> connected binary w h seed p;
  fr_stack : forall q, q ∈ stack s ->
                       q = seed \/ exists p, p ∈ allPoints s /\ adjacent p q;
  fr_closed : forall p q, p ∈ allPoints s -> adjacent p q ->
                          q ∈ stack s \/ darkAt binary w h q = false
                          \/ JS.getb (visited s) (py q * w + px q) = true;
  fr_seed : seed ∈ stack s \/ darkAt binary w h seed = false
            \/ JS.getb (visited s) (py seed * w + px seed) = true;
  fr_head : forall p, head (allPoints s) = Some p -> p = seed
}.

(** All pixels of the components found so far, in the order found. *)
Definition pixelsOf (comps : list (list Point * list Point)) : list Point :=
  concat (map fst comps).

(** The invariant of the raster scan. *)
Record ScanInv (binary : list bool) (w h : Z) (vis : list bool)
       (comps : list (list Point * list Point)) : Prop := mkScanInv {
  si_len : length vis = Z.to_nat (w * h);
  si_vis : forall i, JS.getb vis i = true
                     <-> exists p, p ∈ pixelsOf comps /\ py p * w + px p = i;
  si_region : forall c, c ∈ comps ->
                        exists seed,
                          seed ∈ fst c
                          /\ forall p,
                              p ∈ fst c <-> connected binary w h seed p;
  si_nodup : NoDup (pixelsOf comps)
}.

(** The dark pixels of the mask, in raster order. *)
Definition darkPixels (binary : list bool) (w h : Z) : list Point :=
  filter (fun p => darkAt binary w h p = true)
         (map (fun xy => mkPoint (fst xy) (snd xy)) (raster w h)).

(** A mask of four dark pixels. *)
Definition speckMask : list bool := replicate 4 true.

(** The term that one edge adds to the shoelace sum. *)
Definition cross (p q : Point) : Z := px p * py q - px q * py p.

(** The sum of the terms of the consecutive pairs of a path. *)
Fixpoint chain (l : list Point) : Z :=
  match l with
  | a :: (b :: _) as t => cross a b + chain t
  | _ => 0
  end.

(** The point moved by [(dx, dy)]. *)
Definition translate (dx dy : Z) (p : Point) : Point :=
  mkPoint (px p + dx) (py p + dy).

(** Coordinates of size at most [B], on so few points that every product
    and every partial sum of the shoelace loop stays within 2^53 in size:
    there the binary64 arithmetic of the loop is exact. *)
Definition areaRange (B : Z) (points : list Point) : Prop :=
  forallb (fun p => (Z.abs (px p) <=? B) && (Z.abs (py p) <=? B)) points
  && (2 * Z.of_nat (length points) * B * B <=? 2 ^ 53) = true.

(** The state of the first scan after the points [seen]: nothing within
    Manhattan distance 2 so far, or a nearest such point. *)
Definition nearState (current : Point) (seen : list Point)
           (acc : float * option Point) : Prop :=
  match snd acc with
  | None => fst acc = PrimFloat.infinity
            /\ forall q, q ∈ seen -> 2 < manhattan q current
  | Some p => fst acc = JS.Z2F (manhattan p current)
              /\ p ∈ seen /\ manhattan p current <= 2
              /\ forall q, q ∈ seen ->
                           manhattan p current <= manhattan q current
  end.

(** The shape, if any, that the loop body of [detectShapes] adds for a
    contour. *)
Definition shapeOf (acos : float -> float) (contour : list Point)
  : option DetectedShape :=
  if (length contour <? 3)%nat then None
  else
    simplified ← simplifyContour (S (length contour)) contour 2%float;
    if (length simplified <? 3)%nat then None
    else classifyShape acos simplified contour.

(** An image of one white pixel. *)
Definition whiteWorld : World :=
  mkWorld (mkImage [255; 255; 255; 255] 1 1) tickClock 0.

(** The spiral image with every pixel fully transparent. *)
Definition clearSpiralWorld : World :=
  mkWorld (mkImage (concat (map (fun dark : bool =>
                                   if dark then [0; 0; 0; 0]
                                   else [255; 255; 255; 0])
                                (concat spiralRows))) 13 13)
          tickClock 0.

(** No pixel of the image is dark: every colour sum is at least 384. *)
Definition noDark (img : ImageData) : bool :=
  forallb (fun k => 384 <=? colourSum (data img) k)
          (seq 0 (Z.to_nat (width img * height img))).

(** Two sample arrays of one length that agree on every red, green and
    blue sample. *)
Definition sameColours (d1 d2 : list Z) : bool :=
  (length d1 =? length d2)%nat
  && forallb (fun i => (i mod 4 =? 3)%nat || bool_decide (d1 !! i = d2 !! i))
             (seq 0 (length d1)).

(** The component starts, as does its contour, with [seed], which comes
    first among the component's pixels in raster order. *)
Definition startsAt (w : Z) (seed : Point) (c : list Point * list Point)
  : Prop :=
  head (fst c) = Some seed /\ head (snd c) = Some seed
  /\ forall p, p ∈ fst c -> py seed * w + px seed <= py p * w + px p.

(** The first point of the first array comes before the first point of
    the second one in raster order. *)
Definition before (w : Z) (c c' : list Point) : Prop :=
  forall s s', head c = Some s -> head c' = Some s' ->
               py s * w + px s < py s' * w + px s'.

(** The components found after the scan of the pixels [done]: each one
    starts at a scanned pixel, and they are listed in the raster order of
    these pixels. *)
Definition scanOrder (w : Z) (done : list (Z * Z))
           (comps : list (list Point * list Point)) : Prop :=
  Forall (fun c => exists seed, startsAt w seed c
                                /\ (px seed, py seed) ∈ done) comps
  /\ StronglySorted (fun c c' => before w (snd c) (snd c')) comps.

(** [orderBoundaryPoints] keeps the remaining points in a [Set] of
    strings: a point is written as the key [`${x},${y}`] and read back by
    [split(',').map(Number)]. *)
Module Key.

Import String Ascii.

(** The decimal digits of an integer, with a minus sign when negative. *)
Definition showZ (z : Z) : string :=
  DecimalString.NilZero.string_of_int (Z.to_int z).

(** [Number(s)] on the decimal integer literals; [None] stands for every
    other outcome. *)
Definition readZ (s : string) : option Z :=
  option_map Z.of_int (DecimalString.NilZero.int_of_string s).

(** [`${p.x},${p.y}`] *)
Definition key (p : Point) : string :=
  append (showZ (px p)) (String "," (showZ (py p))).

(** [s.split(',')] *)
Fixpoint splitComma (s : string) : list string :=
  match s with
  | EmptyString => [EmptyString]
  | String c rest =>
      if Ascii.eqb c ","
      then EmptyString :: splitComma rest
      else match splitComma rest with
           | h :: t => String c h :: t
           | [] => [String c EmptyString]
           end
  end.

(** [const [x, y] = pointStr.split(',').map(Number)] *)
Definition parseKey (s : string) : option Point :=
  match splitComma s with
  | sx :: sy :: _ =>
      match readZ sx, readZ sy with
      | Some x, Some y => Some (mkPoint x y)
      | _, _ => None
      end
  | _ => None
  end.

(** A string without a comma. *)
Fixpoint commaFree (s : string) : bool :=
  match s with
  | EmptyString => true
  | String c rest => negb (Ascii.eqb c ",") && commaFree rest
  end.

End Key.

(** * Properties *)

(** ** Arrays of booleans *)

Lemma setb_length_in (l : list bool) (i : nat) (v : bool) :
  (i < length l)%nat -> length (JS.setb l i v) = length l.
Proof.
  intros Hi. unfold JS.setb.
  destruct (Nat.ltb_spec i (length l)); [apply length_insert | lia].
Qed.

Lemma getb_setb_same (l : list bool) (i : Z) :
  0 <= i -> (Z.to_nat i < length l)%nat ->
  JS.getb (JS.setb l (Z.to_nat i) true) i = true.
Proof.
  intros H0 Hi. unfold JS.getb, JS.setb.
  destruct (Z.ltb_spec i 0); [lia|].
  destruct (Nat.ltb_spec (Z.to_nat i) (length l)); [|lia].
  by rewrite list_lookup_insert_eq.
Qed.

Lemma getb_setb_true (l : list bool) (i : nat) (j : Z) :
  (i < length l)%nat ->
  JS.getb l j = true -> JS.getb (JS.setb l i true) j = true.
Proof.
  intros Hi. unfold JS.getb, JS.setb.
  destruct (Z.ltb_spec j 0); [done|].
  destruct (Nat.ltb_spec i (length l)); [|lia].
  destruct (decide (i = Z.to_nat j)) as [->|Hne].
  - by rewrite list_lookup_insert_eq.
  - by rewrite list_lookup_insert_ne.
Qed.

Lemma unvisited_le (l : list bool) : (unvisited l <= length l)%nat.
Proof. apply length_filter. Qed.

Lemma unvisited_insert (l : list bool) (i : nat) :
  l !! i = Some false ->
  (unvisited (<[i := true]> l) + 1 = unvisited l)%nat.
Proof.
  unfold unvisited. revert i. induction l as [|b l IH]; intros [|i] H;
    simpl in *; try done.
  - injection H as ->. rewrite !filter_cons.
    destruct (decide (true = false)); [done|].
    destruct (decide (false = false)); [simpl; lia|done].
  - rewrite !filter_cons. specialize (IH i H).
    destruct (decide (b = false)); simpl; lia.
Qed.

Lemma getb_false_lookup (l : list bool) (i : Z) :
  0 <= i -> (Z.to_nat i < length l)%nat ->
  JS.getb l i = false -> l !! Z.to_nat i = Some false.
Proof.
  intros H0 Hi. unfold JS.getb. destruct (Z.ltb_spec i 0); [lia|].
  destruct (lookup_lt_is_Some_2 l (Z.to_nat i) Hi) as [b Hb].
  rewrite Hb. simpl. by intros ->.
Qed.

Lemma inBounds_index (w h x y : Z) :
  inBounds w h x y = true ->
  0 <= x < w /\ 0 <= y < h /\ 0 <= y * w + x < w * h.
Proof.
  unfold inBounds. intros H.
  apply negb_true_iff in H.
  repeat (apply orb_false_iff in H; destruct H as [H ?]).
  repeat match goal with
         | H : (_ <? _) = false |- _ => apply Z.ltb_ge in H
         | H : (_ <=? _) = false |- _ => apply Z.leb_gt in H
         end.
  nia.
Qed.

(** ** The fill loop terminates and keeps its invariant *)

Section FillLoop.

Variables (binary : list bool) (w h : Z).

Lemma pushNeighbours_length (x y : Z) (st : list Point) :
  length (pushNeighbours x y st) = (8 + length st)%nat.
Proof. reflexivity. Qed.

Lemma fillStep_inv (s s' : Fill) :
  FillInv binary w h s -> fillStep binary w h s = Some s' ->
  FillInv binary w h s' /\ (fillMeasure s' < fillMeasure s)%nat.
Proof.
  intros [Hlen Hb Hm Hnd Hsub]. unfold fillStep, fillMeasure.
  destruct (stack s) as [|p rest] eqn:Hst; [done|].
  destruct (negb (inBounds w h (px p) (py p))
            || JS.getb (visited s) (py p * w + px p)
            || negb (JS.getb binary (py p * w + px p))) eqn:Hc;
    intros [= <-]; simpl.
  - split; [by constructor | lia].
  - apply orb_false_iff in Hc as [Hc _].
    apply orb_false_iff in Hc as [Hin Hvis].
    apply negb_false_iff in Hin.
    destruct (inBounds_index _ _ _ _ Hin) as (_ & _ & Hidx).
    assert (Hlt : (Z.to_nat (py p * w + px p) < length (visited s))%nat)
      by (rewrite Hlen; lia).
    split.
    + constructor; simpl.
      * rewrite setb_length_in; done.
      * intros q [Hq | ->%list_elem_of_singleton]%elem_of_app; auto.
      * intros q [Hq | ->%list_elem_of_singleton]%elem_of_app.
        -- apply getb_setb_true; auto.
        -- apply getb_setb_same; lia.
      * apply NoDup_app. split; [done|]. split; [|apply NoDup_singleton].
        intros q Hq ->%list_elem_of_singleton.
        specialize (Hm _ Hq). congruence.
      * unfold boundaryOf in *. rewrite filter_app, filter_cons, filter_nil.
        rewrite <- Hsub.
        destruct (isBoundary binary w h (px p) (py p)).
        -- by rewrite decide_True.
        -- rewrite decide_False by done. by rewrite app_nil_r.
    + assert (Hu := unvisited_insert (visited s) _
                      (getb_false_lookup _ _ (proj1 Hidx) Hlt Hvis)).
      unfold JS.setb.
      destruct (Nat.ltb_spec (Z.to_nat (py p * w + px p))
                             (length (visited s))); [|lia].
      lia.
Qed.

Lemma fillLoop_terminates (fuel : nat) (s : Fill) :
  FillInv binary w h s -> (fillMeasure s < fuel)%nat ->
  exists s', fillLoop fuel binary w h s = Some s'
             /\ FillInv binary w h s' /\ stack s' = [].
Proof.
  revert s. induction fuel as [|fuel IH]; intros s Hinv Hfuel; [lia|].
  simpl. destruct (fillStep binary w h s) as [s1|] eqn:Hstep.
  - destruct (fillStep_inv _ _ Hinv Hstep) as [Hinv1 Hlt].
    apply IH; [done | lia].
  - exists s. split; [done|]. split; [done|].
    unfold fillStep in Hstep. destruct (stack s); [done|].
    by destruct (_ || _).
Qed.

Lemma fill_start (vis : list bool) (x y : Z) :
  length vis = Z.to_nat (w * h) ->
  exists s', fillLoop (fillFuel vis) binary w h
                      (mkFill vis [mkPoint x y] [] []) = Some s'
             /\ FillInv binary w h s' /\ stack s' = [].
Proof.
  intros Hlen. apply fillLoop_terminates.
  - constructor; simpl; try done.
    + intros p Hp. by apply elem_of_nil in Hp.
    + intros p Hp. by apply elem_of_nil in Hp.
    + apply NoDup_nil_2.
  - unfold fillMeasure, fillFuel. simpl.
    pose proof (unvisited_le vis). lia.
Qed.

End FillLoop.

(** ** The ordering loop *)

Lemma nearScan_from (current : Point) (remaining : list Point)
      (acc : float * option Point) :
  let f := fun '(minDist, nearest) p =>
             let dist := manhattan p current in
             if PrimFloat.ltb (JS.Z2F dist) minDist && (dist <=? 2)
             then (JS.Z2F dist, Some p) else (minDist, nearest) in
  forall p, snd (fold_left f remaining acc) = Some p ->
            snd acc = Some p \/ p ∈ remaining.
Proof.
  intros f. revert acc. induction remaining as [|q l IH]; intros acc p H.
  - by left.
  - simpl in H. apply IH in H as [H|H]; [|right; by apply list_elem_of_further].
    destruct acc as [md nr]. unfold f in H.
    destruct (_ && _) in H; simpl in H.
    + injection H as ->. right. apply list_elem_of_here.
    + by left.
Qed.

Lemma nearScan_none (current : Point) (remaining : list Point) :
  snd (nearScan current remaining) = None ->
  fst (nearScan current remaining) = PrimFloat.infinity.
Proof.
  unfold nearScan.
  assert (G : forall acc : float * option Point,
             (snd acc = None -> fst acc = PrimFloat.infinity) ->
             snd (fold_left
                    (fun '(minDist, nearest) p =>
                       let dist := manhattan p current in
                       if PrimFloat.ltb (JS.Z2F dist) minDist && (dist <=? 2)
                       then (JS.Z2F dist, Some p) else (minDist, nearest))
                    remaining acc) = None ->
             fst (fold_left
                    (fun '(minDist, nearest) p =>
                       let dist := manhattan p current in
                       if PrimFloat.ltb (JS.Z2F dist) minDist && (dist <=? 2)
                       then (JS.Z2F dist, Some p) else (minDist, nearest))
                    remaining acc) = PrimFloat.infinity).
  { induction remaining as [|q l IH]; intros acc Hacc; [done|].
    simpl. apply IH. destruct acc as [md nr].
    destruct (_ && _); simpl; [done | exact Hacc]. }
  by apply G.
Qed.

Lemma farScan_from (current : Point) (remaining : list Point)
      (acc : float * option Point) (p : Point) :
  snd (farScan current remaining acc) = Some p ->
  snd acc = Some p \/ p ∈ remaining.
Proof.
  unfold farScan. revert acc.
  induction remaining as [|q l IH]; intros acc H; [by left|].
  simpl in H. apply IH in H as [H|H]; [|right; by apply list_elem_of_further].
  destruct acc as [md nr].
  destruct (PrimFloat.ltb _ _) in H; simpl in H.
  - injection H as ->. right. apply list_elem_of_here.
  - by left.
Qed.

Lemma farScan_keeps (current : Point) (remaining : list Point)
      (acc : float * option Point) :
  is_Some (snd acc) -> is_Some (snd (farScan current remaining acc)).
Proof.
  unfold farScan. revert acc.
  induction remaining as [|q l IH]; intros acc H; [done|].
  simpl. apply IH. destruct acc as [md nr].
  by destruct (PrimFloat.ltb _ _).
Qed.

Lemma nearScan_elem (current p : Point) (remaining : list Point) :
  snd (nearScan current remaining) = Some p -> p ∈ remaining.
Proof.
  intros H.
  destruct (nearScan_from current remaining (PrimFloat.infinity, None) p H)
    as [H'|H']; done.
Qed.

(** A selected point is taken from the remaining set. *)
Lemma selectNext_elem (current p : Point) (remaining : list Point) :
  selectNext current remaining = Some p -> p ∈ remaining.
Proof.
  unfold selectNext.
  pose proof (nearScan_elem current p remaining) as Hn.
  destruct (nearScan current remaining) as [md [q|]].
  - intros [= ->]. by apply Hn.
  - intros H. by destruct (farScan_from _ _ _ _ H).
Qed.

Lemma finiteDistances_elim (l : list Point) (p q : Point) :
  finiteDistances l -> p ∈ l -> q ∈ l ->
  PrimFloat.ltb (euclid p q) PrimFloat.infinity = true.
Proof.
  unfold finiteDistances. intros H Hp%list_elem_of_In Hq%list_elem_of_In.
  rewrite forallb_forall in H. specialize (H p Hp).
  rewrite forallb_forall in H. by apply H.
Qed.

(** The Euclidean fallback always selects when the set is non-empty. *)
Lemma selectNext_some (current : Point) (remaining : list Point) :
  remaining <> [] ->
  (forall q, q ∈ remaining ->
             PrimFloat.ltb (euclid q current) PrimFloat.infinity = true) ->
  is_Some (selectNext current remaining).
Proof.
  intros Hne Hfin. unfold selectNext.
  destruct (nearScan current remaining) as [md [q|]] eqn:Hn; [done|].
  assert (md = PrimFloat.infinity) as ->.
  { pose proof (nearScan_none current remaining) as H.
    rewrite Hn in H. by apply H. }
  destruct remaining as [|q l]; [done|].
  unfold farScan. simpl. rewrite (Hfin q (list_elem_of_here _ _)).
  by apply farScan_keeps.
Qed.

Lemma setDelete_length (p : Point) (s : list Point) :
  p ∈ s -> (length (setDelete p s) < length s)%nat.
Proof.
  intros Hp. unfold setDelete.
  eapply length_filter_lt; [exact Hp | by intros H].
Qed.

Lemma setDelete_elem (p q : Point) (s : list Point) :
  q ∈ setDelete p s <-> q <> p /\ q ∈ s.
Proof. unfold setDelete. by rewrite list_elem_of_filter. Qed.

Lemma setDelete_perm (p : Point) (s : list Point) :
  NoDup s -> p ∈ s -> s ≡ₚ p :: setDelete p s.
Proof.
  intros Hnd Hp. apply NoDup_Permutation; [done| |].
  - apply NoDup_cons. split.
    + rewrite setDelete_elem. by intros [].
    + by apply NoDup_filter.
  - intros q. rewrite elem_of_cons, setDelete_elem.
    split.
    + intros Hq. destruct (decide (q = p)); auto.
    + intros [->|[_ Hq]]; done.
Qed.

(** The loop returns, and what it appends is drawn from the set. *)
Lemma orderLoop_total (fuel : nat) (ordered remaining : list Point)
      (current : Point) :
  (length remaining < fuel)%nat ->
  exists picked,
    orderLoop fuel ordered remaining current = Some (ordered ++ picked)
    /\ (forall p, p ∈ picked -> p ∈ remaining)
    /\ (NoDup remaining -> NoDup picked).
Proof.
  revert ordered remaining current.
  induction fuel as [|fuel IH]; intros ordered remaining current Hf; [lia|].
  simpl. destruct remaining as [|r0 rs].
  { exists []. rewrite app_nil_r. split; [done|]. split; [done|].
    intros _. apply NoDup_nil_2. }
  destruct (selectNext current (r0 :: rs)) as [p|] eqn:Hsel.
  - pose proof (selectNext_elem _ _ _ Hsel) as Hp.
    pose proof (setDelete_length _ _ Hp) as Hlen.
    destruct (IH (ordered ++ [p]) (setDelete p (r0 :: rs)) p)
      as (picked & Heq & Hin & Hnd); [simpl in *; lia|].
    exists (p :: picked). split; [by rewrite Heq, <- app_assoc|]. split.
    + intros q [->|Hq]%elem_of_cons; [done|].
      by apply Hin, setDelete_elem in Hq as [].
    + intros Hr. apply NoDup_cons. split.
      * intros Hq. by apply Hin, setDelete_elem in Hq as [].
      * apply Hnd. by apply NoDup_filter.
  - exists []. rewrite app_nil_r. split; [done|]. split.
    + intros p Hp. by apply elem_of_nil in Hp.
    + intros _. apply NoDup_nil_2.
Qed.

(** More fuel does not change the result. *)
Lemma orderLoop_fuel_mono (fuel fuel' : nat) (ordered remaining : list Point)
      (current : Point) (r : list Point) :
  (fuel <= fuel')%nat ->
  orderLoop fuel ordered remaining current = Some r ->
  orderLoop fuel' ordered remaining current = Some r.
Proof.
  revert fuel' ordered remaining current.
  induction fuel as [|fuel IH]; intros fuel' ordered remaining current Hle H;
    [done|].
  destruct fuel' as [|fuel']; [lia|]. simpl in *.
  destruct remaining as [|r0 rs]; [done|].
  destruct (selectNext current (r0 :: rs)); [|done].
  apply IH; [lia | done].
Qed.

(** With finite distances every point of the set is appended. *)
Lemma orderLoop_complete (fuel : nat) (ordered remaining : list Point)
      (current : Point) (universe : list Point) :
  finiteDistances universe ->
  current ∈ universe -> (forall p, p ∈ remaining -> p ∈ universe) ->
  NoDup remaining -> (length remaining < fuel)%nat ->
  exists picked,
    orderLoop fuel ordered remaining current = Some (ordered ++ picked)
    /\ picked ≡ₚ remaining.
Proof.
  intros Hfin. revert ordered remaining current.
  induction fuel as [|fuel IH];
    intros ordered remaining current Hc Hsub Hnd Hf; [lia|].
  simpl. destruct remaining as [|r0 rs].
  { exists []. by rewrite app_nil_r. }
  destruct (selectNext_some current (r0 :: rs)) as [p Hsel]; [done| |].
  { intros q Hq. apply (finiteDistances_elim universe); auto. }
  rewrite Hsel.
  pose proof (selectNext_elem _ _ _ Hsel) as Hp.
  pose proof (setDelete_length _ _ Hp) as Hlen.
  destruct (IH (ordered ++ [p]) (setDelete p (r0 :: rs)) p)
    as (picked & Heq & Hperm).
  - by apply Hsub.
  - intros q Hq. apply Hsub. by apply setDelete_elem in Hq as [].
  - by apply NoDup_filter.
  - simpl in *. lia.
  - exists (p :: picked). split; [by rewrite Heq, <- app_assoc|].
    rewrite Hperm. symmetry. by apply setDelete_perm.
Qed.

(** On a duplicate-free array the set is the array itself. *)
Lemma setOf_from (l acc : list Point) :
  NoDup (acc ++ l) ->
  fold_left (fun s p => if bool_decide (p ∈ s) then s else s ++ [p]) l acc
  = acc ++ l.
Proof.
  revert acc. induction l as [|p l IH]; intros acc Hnd; simpl.
  - by rewrite app_nil_r.
  - assert (Hp : p ∉ acc).
    { apply NoDup_app in Hnd as (_ & Hd & _). intros Hp.
      apply (Hd p Hp). apply list_elem_of_here. }
    rewrite bool_decide_eq_false_2 by done.
    rewrite IH; rewrite <- app_assoc; done.
Qed.

Lemma setOf_NoDup (l : list Point) : NoDup l -> setOf l = l.
Proof. intros H. unfold setOf. by rewrite setOf_from. Qed.

Lemma setOf_spec (l acc : list Point) :
  NoDup acc ->
  let r := fold_left
             (fun s p => if bool_decide (p ∈ s) then s else s ++ [p]) l acc in
  NoDup r /\ (forall p, p ∈ r -> p ∈ acc \/ p ∈ l)
  /\ (length r <= length acc + length l)%nat.
Proof.
  revert acc. induction l as [|p l IH]; intros acc Hnd; simpl.
  - split; [done|]. split; [by left | lia].
  - destruct (bool_decide_reflect (p ∈ acc)) as [Hp|Hp].
    + destruct (IH acc Hnd) as (H1 & H2 & H3).
      split; [done|]. split; [|lia].
      intros q Hq. destruct (H2 q Hq); [by left|].
      right. by apply list_elem_of_further.
    + destruct (IH (acc ++ [p])) as (H1 & H2 & H3).
      { apply NoDup_app. split; [done|]. split; [|apply NoDup_singleton].
        intros q Hq ->%list_elem_of_singleton. done. }
      split; [done|]. split; [|rewrite length_app in H3; simpl in H3; lia].
      intros q Hq.
      destruct (H2 q Hq) as [[?| ->%list_elem_of_singleton]%elem_of_app|?].
      * by left.
      * right. apply list_elem_of_here.
      * right. by apply list_elem_of_further.
Qed.

(** ** Douglas-Peucker simplification (C5) *)

Lemma dropLast_snoc (l : list Point) (a : Point) : dropLast (l ++ [a]) = l.
Proof.
  unfold dropLast. rewrite length_app. simpl.
  replace (length l + 1 - 1)%nat with (length l) by lia.
  apply take_app_length.
Qed.

Lemma dropLast_sublist (l k : list Point) (a : Point) :
  l `sublist_of` k ++ [a] -> dropLast l `sublist_of` k.
Proof.
  intros (l1 & l2 & -> & H1 & H2)%sublist_app_r.
  apply sublist_cons_r in H2 as [H2|(l' & -> & H2)].
  - apply sublist_nil_r in H2 as ->. rewrite app_nil_r.
    etrans; [apply sublist_take | done].
  - apply sublist_nil_r in H2 as ->. by rewrite dropLast_snoc.
Qed.

Lemma head_dropLast (l : list Point) :
  (2 <= length l)%nat -> head (dropLast l) = head l.
Proof.
  unfold dropLast. destruct l as [|x [|y l]]; simpl; intros; try lia. done.
Qed.

Lemma dropLast_nonempty (l : list Point) :
  (2 <= length l)%nat -> (1 <= length (dropLast l))%nat.
Proof. unfold dropLast. rewrite length_take. lia. Qed.

Lemma head_app_nonempty (l1 l2 : list Point) :
  (1 <= length l1)%nat -> head (l1 ++ l2) = head l1.
Proof. destruct l1; simpl; intros; [lia | done]. Qed.

Lemma last_app_nonempty (l1 l2 : list Point) :
  (1 <= length l2)%nat -> last (l1 ++ l2) = last l2.
Proof.
  intros H. destruct l2 as [|y l2 _] using rev_ind; [simpl in H; lia|].
  by rewrite app_assoc, !last_snoc.
Qed.

Lemma head_take_pos (l : list Point) (n : nat) :
  (0 < n)%nat -> head (take n l) = head l.
Proof. destruct n, l; simpl; intros; try lia; done. Qed.

Lemma last_drop_lt (l : list Point) (n : nat) :
  (n < length l)%nat -> last (drop n l) = last l.
Proof.
  intros Hn. rewrite !last_lookup, lookup_drop, length_drop.
  f_equal. lia.
Qed.

Lemma ends_sublist (l : list Point) :
  (2 <= length l)%nat ->
  [l !!! 0%nat; l !!! (length l - 1)%nat] `sublist_of` l
  /\ head l = Some (l !!! 0%nat)
  /\ last l = Some (l !!! (length l - 1)%nat).
Proof.
  intros Hlen. destruct l as [|x l]; [simpl in Hlen; lia|].
  destruct l as [|y m _] using rev_ind; [simpl in Hlen; lia|].
  assert (Hlast : (x :: m ++ [y]) !!! (length (x :: m ++ [y]) - 1)%nat = y).
  { simpl. rewrite length_app. simpl.
    replace (length m + 1 - 0)%nat with (S (length m)) by lia.
    change ((x :: m ++ [y]) !!! S (length m)) with ((m ++ [y]) !!! length m).
    replace (length m) with (length m + 0)%nat at 1 by lia.
    by rewrite lookup_total_app_r by lia; rewrite Nat.add_0_r, Nat.sub_diag. }
  rewrite Hlast. split; [|split].
  - simpl. apply sublist_skip. apply sublist_inserts_l. done.
  - done.
  - change (x :: m ++ [y]) with ((x :: m) ++ [y]). by rewrite last_snoc.
Qed.

(** The [for] loop either never updates [(maxDist, maxIndex) = (0, 0)] or
    leaves an interior index. *)
Lemma farthest_index (contour : list Point) :
  let '(maxDist, maxIndex) := farthest contour in
  (maxDist = 0%float /\ maxIndex = 0%nat)
  \/ (1 <= maxIndex <= length contour - 2)%nat.
Proof.
  unfold farthest.
  set (f := fun '(maxDist, maxIndex) i =>
              let dist := pointToLineDistance (contour !!! i)
                            (contour !!! 0%nat)
                            (contour !!! (length contour - 1)%nat) in
              if (maxDist <? dist)%float then (dist, i)
              else (maxDist, maxIndex)).
  assert (G : forall (l : list nat) (acc : float * nat),
             Forall (fun i => (1 <= i <= length contour - 2)%nat) l ->
             (let '(md, mi) := acc in
              (md = 0%float /\ mi = 0%nat)
              \/ (1 <= mi <= length contour - 2)%nat) ->
             let '(md, mi) := fold_left f l acc in
             (md = 0%float /\ mi = 0%nat)
             \/ (1 <= mi <= length contour - 2)%nat).
  { induction l as [|i l IH]; intros acc Hl Hacc; [done|].
    simpl. apply Forall_cons in Hl as [Hi Hl]. apply IH; [done|].
    destruct acc as [md mi]. unfold f.
    destruct (md <? _)%float; [by right | done]. }
  apply G; [|by left].
  apply Forall_forall. intros i Hi%elem_of_seq. lia.
Qed.

Lemma simplifyContour_spec (fuel : nat) (contour : list Point)
      (epsilon : float) :
  (epsilon <? 0)%float = false ->
  (length contour < fuel)%nat ->
  exists r,
    simplifyContour fuel contour epsilon = Some r
    /\ ((length contour <= 2)%nat -> r = contour)
    /\ ((2 <= length contour)%nat ->
        r `sublist_of` contour /\ (2 <= length r)%nat
        /\ head r = head contour /\ last r = last contour).
Proof.
  intros Heps. revert contour.
  induction fuel as [|fuel IH]; intros contour Hfuel; [lia|].
  simpl. destruct (Nat.leb_spec (length contour) 2) as [Hle|Hgt].
  { exists contour. split; [done|]. split; [done|]. intros. by repeat split. }
  pose proof (farthest_index contour) as Hidx.
  destruct (farthest contour) as [maxDist maxIndex].
  destruct (epsilon <? maxDist)%float eqn:Hcmp.
  - destruct Hidx as [[-> ->]|Hidx]; [congruence|].
    destruct (lookup_lt_is_Some_2 contour maxIndex) as [a Ha]; [lia|].
    destruct (IH (take (maxIndex + 1) contour))
      as (left & -> & _ & Hl); [rewrite length_take; lia|].
    destruct (IH (drop maxIndex contour))
      as (right & -> & _ & Hr); [rewrite length_drop; lia|].
    destruct Hl as (Hl1 & Hl2 & Hl3 & Hl4); [rewrite length_take; lia|].
    destruct Hr as (Hr1 & Hr2 & Hr3 & Hr4); [rewrite length_drop; lia|].
    exists (dropLast left ++ right). split; [done|]. split; [lia|].
    intros _. split; [|split; [|split]].
    + rewrite <- (take_drop maxIndex contour).
      apply sublist_app; [|done].
      apply (dropLast_sublist _ _ a).
      replace (maxIndex + 1)%nat with (S maxIndex) in Hl1 by lia.
      by rewrite (take_S_r _ _ _ Ha) in Hl1.
    + rewrite length_app. lia.
    + rewrite head_app_nonempty by (by apply dropLast_nonempty).
      rewrite head_dropLast, Hl3 by done.
      apply head_take_pos. lia.
    + rewrite last_app_nonempty, Hr4 by lia.
      apply last_drop_lt. lia.
  - eexists. split; [done|]. split; [lia|]. intros _.
    destruct (ends_sublist contour) as (H1 & H2 & H3); [lia|].
    split; [done|]. split; [simpl; lia|]. by rewrite H2, H3.
Qed.

(** C5: [simplifyContour] (with a tolerance that is not negative, such as
    the 2.0 of the pipeline) returns its input unchanged when the input
    has at most 2 points; for every longer input it returns an ordered
    subsequence of the input that has at least 2 points and whose first
    and last elements are the input's first and last points. *)
Theorem simplifyContour_subsequence (contour : list Point) (epsilon : float) :
  (epsilon <? 0)%float = false ->
  exists r,
    (forall fuel, (length contour < fuel)%nat ->
                  simplifyContour fuel contour epsilon = Some r)
    /\ ((length contour <= 2)%nat -> r = contour)
    /\ ((2 < length contour)%nat ->
        r `sublist_of` contour /\ (2 <= length r)%nat
        /\ head r = head contour /\ last r = last contour).
Proof.
  intros Heps.
  destruct (simplifyContour_spec (S (length contour)) contour epsilon Heps)
    as (r & Hr & H1 & H2); [lia|].
  exists r. split; [|split; [done|intros; apply H2; lia]].
  intros fuel Hfuel.
  destruct (simplifyContour_spec fuel contour epsilon Heps Hfuel)
    as (r' & Hr' & _).
  rewrite Hr'. f_equal.
  assert (G : forall f1 f2 c x y,
             simplifyContour f1 c epsilon = Some x ->
             simplifyContour f2 c epsilon = Some y -> x = y).
  { clear. induction f1 as [|f1 IH1]; intros f2 c x y Hx Hy; [done|].
    destruct f2 as [|f2]; [done|]. simpl in *.
    destruct (length c <=? 2)%nat; [congruence|].
    destruct (farthest c) as [md mi].
    destruct (epsilon <? md)%float; [|congruence].
    destruct (simplifyContour f1 (take (mi + 1) c) epsilon) as [l1|] eqn:E1;
      [|done].
    destruct (simplifyContour f2 (take (mi + 1) c) epsilon) as [l2|] eqn:E2;
      [|done].
    simpl in *.
    destruct (simplifyContour f1 (drop mi c) epsilon) as [r1|] eqn:E3;
      [|done].
    destruct (simplifyContour f2 (drop mi c) epsilon) as [r2|] eqn:E4;
      [|done].
    simpl in *. rewrite (IH1 _ _ _ _ E1 E2), (IH1 _ _ _ _ E3 E4) in Hx.
    congruence. }
  symmetry. eapply G; eauto.
Qed.

Lemma simplifyContour_subsequence_witness :
  exists r,
    (forall fuel, (length ellPoints < fuel)%nat ->
                  simplifyContour fuel ellPoints 2 = Some r)
    /\ ((length ellPoints <= 2)%nat -> r = ellPoints)
    /\ ((2 < length ellPoints)%nat ->
        r `sublist_of` ellPoints /\ (2 <= length r)%nat
        /\ head r = head ellPoints /\ last r = last ellPoints).
Proof. apply (simplifyContour_subsequence ellPoints 2). reflexivity. Defined.

(** With a negative tolerance the recursion need not end: on three
    collinear points the right half of the split is the whole input
    again, so no amount of fuel suffices. *)
Lemma simplifyContour_negative_epsilon (fuel : nat) :
  simplifyContour fuel linePoints (-1) = None.
Proof.
  induction fuel as [|fuel IH]; [done|].
  change (simplifyContour (S fuel) linePoints (-1))
    with (left ← simplifyContour fuel (take 1 linePoints) (-1);
          right ← simplifyContour fuel linePoints (-1);
          Some (dropLast left ++ right)).
  rewrite IH.
  destruct (simplifyContour fuel (take 1 linePoints) (-1)); reflexivity.
Qed.

(** ** Binary64 facts used by the classifier *)

Lemma shr_1_nonneg (r : shr_record) : 0 <= shr_m r -> 0 <= shr_m (shr_1 r).
Proof.
  destruct r as [m b s]. simpl. destruct m as [|p|p]; simpl; try lia.
  - destruct p; simpl; lia.
Qed.

Lemma iter_shr_1_nonneg (p : positive) (r : shr_record) :
  0 <= shr_m r -> 0 <= shr_m (SpecFloat.iter_pos shr_1 p r).
Proof.
  revert r. induction p as [p IH|p IH|]; intros r Hr; simpl.
  - apply IH, IH. by apply shr_1_nonneg.
  - by apply IH, IH.
  - by apply shr_1_nonneg.
Qed.

Lemma shr_fexp_nonneg (m e : Z) (l : location) :
  0 <= m -> 0 <= shr_m (fst (shr_fexp prec emax m e l)).
Proof.
  intros Hm. unfold shr_fexp, shr.
  assert (H0 : 0 <= shr_m (shr_record_of_loc m l))
    by (destruct l as [|[]]; simpl; lia).
  destruct (_ - e); simpl; try done.
  by apply iter_shr_1_nonneg.
Qed.

Lemma round_nearest_even_nonneg (m : Z) (l : location) :
  0 <= m -> 0 <= round_nearest_even m l.
Proof.
  intros Hm. destruct l as [|[]]; simpl; try lia.
  destruct (Z.even m); lia.
Qed.

(** Rounding a non-negative mantissa never produces NaN nor flips the
    sign. *)
Lemma binary_round_aux_nonneg (m e : Z) (l : location) :
  0 <= m -> nonneg_spec (binary_round_aux prec emax false m e l).
Proof.
  intros Hm. unfold binary_round_aux.
  pose proof (shr_fexp_nonneg m e l Hm) as H1.
  destruct (shr_fexp prec emax m e l) as [mrs' e'].
  pose proof (shr_fexp_nonneg
                (round_nearest_even (shr_m mrs') (loc_of_shr_record mrs'))
                e' loc_Exact
                (round_nearest_even_nonneg _ _ H1)) as H2.
  destruct (shr_fexp prec emax _ e' loc_Exact) as [mrs'' e''].
  simpl in H2. destruct (shr_m mrs''); simpl; try done; try lia.
  by destruct (_ <=? _).
Qed.

Lemma binary_round_nonneg (m : positive) (e : Z) :
  nonneg_spec (binary_round prec emax false m e).
Proof.
  unfold binary_round. destruct (shl_align _ _ _) as [mz ez].
  apply binary_round_aux_nonneg. lia.
Qed.

Lemma mul_nonneg (x y : float) : nonnegF x -> nonnegF y ->
  (exists m e, Prim2SF y = S754_finite false m e) -> nonnegF (x * y).
Proof.
  unfold nonnegF. rewrite FloatAxioms.mul_spec. intros Hx _ (m & e & ->).
  destruct (Prim2SF x) as [[]|[]| |[] mx ex]; simpl in *; try done.
  apply binary_round_aux_nonneg. lia.
Qed.

Lemma add_nonneg (x y : float) : nonnegF x -> nonnegF y -> nonnegF (x + y).
Proof.
  unfold nonnegF. rewrite FloatAxioms.add_spec. intros Hx Hy.
  destruct (Prim2SF x) as [[]|[]| |[] mx ex]; simpl in *; try done;
    destruct (Prim2SF y) as [[]|[]| |[] my ey]; simpl in *; try done.
  apply binary_round_nonneg.
Qed.

Lemma SFcompare_nonneg_refl (x : spec_float) :
  nonneg_spec x -> SFcompare x x = Some Eq.
Proof.
  destruct x as [[]|[]| |[] m e]; simpl; try done. intros _.
  rewrite Z.compare_refl. by rewrite Pos.compare_cont_refl.
Qed.

Lemma nonnegF_not_nan (x : float) : nonnegF x -> PrimFloat.is_nan x = false.
Proof.
  unfold nonnegF, PrimFloat.is_nan. intros H. rewrite FloatAxioms.eqb_spec.
  unfold SFeqb. by rewrite SFcompare_nonneg_refl.
Qed.

Lemma zero_le_nonneg (x : float) : nonnegF x -> (0 <=? x)%float = true.
Proof.
  unfold nonnegF. rewrite FloatAxioms.leb_spec. unfold SFleb.
  change (Prim2SF 0) with (S754_zero false).
  by destruct (Prim2SF x) as [[]|[]| |[] m e].
Qed.

Lemma gt_nonneg (a x : float) :
  nonnegF a -> (a <? x)%float = true -> nonnegF x.
Proof.
  unfold nonnegF. rewrite FloatAxioms.ltb_spec. unfold SFltb.
  destruct (Prim2SF a) as [[]|[]| |[] ma ea]; simpl; try done;
    destruct (Prim2SF x) as [[]|[]| |[] m e]; simpl; done.
Qed.

Lemma min_nonneg (a b : float) :
  nonnegF a -> nonnegF b -> nonnegF (JS.min a b).
Proof.
  intros Ha Hb. unfold JS.min.
  rewrite (nonnegF_not_nan a Ha), (nonnegF_not_nan b Hb). simpl.
  by repeat case_match.
Qed.

Lemma SFcompare_swap (x y : spec_float) :
  SFcompare y x = option_map CompOpp (SFcompare x y).
Proof.
  destruct x as [[]|[]| |[] mx ex], y as [[]|[]| |[] my ey]; simpl; try done.
  all: assert (H : Pos.compare_cont Eq my mx
                   = CompOpp (Pos.compare_cont Eq mx my))
    by (symmetry; apply (Pos.compare_cont_antisym mx my Eq)).
  all: rewrite (Z.compare_antisym ex ey), H.
  all: destruct (ex ?= ey); simpl; try done.
Qed.

(** The clamp [Math.min(1.0, c)] of a non-negative number lies in
    [[0, 1]]. *)
Lemma min_one_unit (c : float) :
  nonnegF c ->
  (0 <=? JS.min 1 c)%float = true /\ (JS.min 1 c <=? 1)%float = true.
Proof.
  intros Hc. split.
  { apply zero_le_nonneg, min_nonneg; [|done]. by vm_compute. }
  unfold JS.min. rewrite (nonnegF_not_nan c Hc).
  change (PrimFloat.is_nan 1) with false. simpl.
  destruct (1 <? c)%float eqn:H1; [done|].
  change (PrimFloat.get_sign 1) with false.
  assert (G : (c <=? 1)%float = true); [|by destruct (c <? 1)%float].
  rewrite FloatAxioms.leb_spec. rewrite FloatAxioms.ltb_spec in H1. unfold SFleb, SFltb in *.
  rewrite (SFcompare_swap (Prim2SF 1) (Prim2SF c)).
  unfold nonnegF in Hc.
  destruct (SFcompare (Prim2SF 1) (Prim2SF c)) as [[]|] eqn:Hcmp;
    simpl; try done.
  change (Prim2SF 1) with (S754_finite false 4503599627370496 (-52)) in Hcmp.
  by destruct (Prim2SF c) as [[]|[]| |[] m e].
Qed.

(** ** Binary64: the leading bit through rounding *)

Lemma Zdigits2_nonneg (z : Z) : 0 <= Zdigits2 z.
Proof. destruct z; simpl; lia. Qed.

Lemma Zdigits2_pos (z : Z) : 0 < z -> 1 <= Zdigits2 z.
Proof. destruct z; simpl; lia. Qed.

Lemma Zdigits2_zero (z : Z) : 0 <= z -> Zdigits2 z = 0 -> z = 0.
Proof. destruct z; simpl; lia. Qed.

Lemma digits_shr_1 (r : shr_record) :
  0 <= shr_m r ->
  0 <= shr_m (shr_1 r)
  /\ Zdigits2 (shr_m (shr_1 r)) = Z.max 0 (Zdigits2 (shr_m r) - 1).
Proof.
  destruct r as [m b s]. simpl. destruct m as [|p|p]; simpl; try lia.
  destruct p; simpl; lia.
Qed.

Lemma digits_iter_shr (p : positive) (r : shr_record) :
  0 <= shr_m r ->
  0 <= shr_m (SpecFloat.iter_pos shr_1 p r)
  /\ Zdigits2 (shr_m (SpecFloat.iter_pos shr_1 p r))
     = Z.max 0 (Zdigits2 (shr_m r) - Z.pos p).
Proof.
  revert r. induction p as [p IH|p IH|]; intros r Hr; simpl.
  - destruct (digits_shr_1 r Hr) as [H1 H2].
    destruct (IH _ H1) as [H3 H4]. destruct (IH _ H3) as [H5 H6].
    split; [done|]. rewrite H6, H4, H2. lia.
  - destruct (IH _ Hr) as [H3 H4]. destruct (IH _ H3) as [H5 H6].
    split; [done|]. rewrite H6, H4. lia.
  - apply digits_shr_1. done.
Qed.

Lemma digits_succ (m : Z) :
  0 <= m -> Zdigits2 m <= Zdigits2 (m + 1) <= Zdigits2 m + 1.
Proof.
  intros Hm. destruct m as [|p|p]; simpl; try lia.
  replace (p + 1)%positive with (Pos.succ p) by lia.
  induction p as [p IH|p IH|]; simpl; lia.
Qed.

Lemma digits_round (m : Z) (l : location) :
  0 < m ->
  0 < round_nearest_even m l
  /\ Zdigits2 m <= Zdigits2 (round_nearest_even m l) <= Zdigits2 m + 1.
Proof.
  intros Hm. pose proof (digits_succ m ltac:(lia)).
  destruct l as [|[]]; simpl; try lia.
  destruct (Z.even m); lia.
Qed.

(** What [shr_fexp] does to the digit count and to the exponent. *)
Lemma shr_fexp_digits (m e : Z) (l : location) :
  0 <= m ->
  let n := fexp prec emax (Zdigits2 m + e) - e in
  let '(r, e') := shr_fexp prec emax m e l in
  0 <= shr_m r
  /\ (n <= 0 -> shr_m r = m /\ e' = e)
  /\ (0 < n -> Zdigits2 (shr_m r) = Z.max 0 (Zdigits2 m - n) /\ e' = e + n).
Proof.
  intros Hm n. unfold shr_fexp, shr. fold n.
  assert (H0 : shr_m (shr_record_of_loc m l) = m)
    by (destruct l as [|[]]; reflexivity).
  destruct n as [|p|p] eqn:Hn.
  - rewrite H0. split; [done|]. split; [done|lia].
  - destruct (digits_iter_shr p (shr_record_of_loc m l)) as [H1 H2];
      [by rewrite H0|].
    rewrite H0 in H2. split; [done|]. split; [lia|done].
  - rewrite H0. split; [done|]. split; [done|lia].
Qed.

Lemma fexp_eq (e : Z) : fexp prec emax e = Z.max (e - 53) (-1074).
Proof. reflexivity. Qed.

(** Rounding keeps a positive number positive and does not lower its
    leading bit, provided that bit is above the underflow threshold. *)
Lemma binary_round_aux_position (m : positive) (e : Z) (l : location) :
  -1074 < position m e ->
  posAbove (position m e) (binary_round_aux prec emax false (Z.pos m) e l).
Proof.
  unfold position. intros Hpos. unfold binary_round_aux.
  pose proof (shr_fexp_digits (Z.pos m) e l ltac:(lia)) as H1.
  cbv zeta in H1. rewrite fexp_eq in H1.
  destruct (shr_fexp prec emax (Z.pos m) e l) as [r1 e1].
  destruct H1 as (Hr1 & Hn0 & Hn1).
  assert (Hd1 : 1 <= Zdigits2 (shr_m r1)
                /\ Zdigits2 (shr_m r1) + e1 = Zdigits2 (Z.pos m) + e
                /\ Z.max (Zdigits2 (Z.pos m) + e - 53) (-1074) <= e1).
  { destruct (Z_le_gt_dec (Z.max (Zdigits2 (Z.pos m) + e - 53) (-1074) - e) 0)
      as [Hn|Hn].
    - destruct (Hn0 Hn) as [-> ->]. simpl Zdigits2 in *. lia.
    - destruct (Hn1 ltac:(lia)) as [Hd ->]. lia. }
  destruct Hd1 as (Hd1 & Hp1 & He1).
  assert (Hm1 : 0 < shr_m r1).
  { destruct (shr_m r1); simpl in *; lia. }
  destruct (digits_round (shr_m r1) (loc_of_shr_record r1) Hm1) as [Hm2 Hd2].
  set (m2 := round_nearest_even (shr_m r1) (loc_of_shr_record r1)) in *.
  pose proof (shr_fexp_digits m2 e1 loc_Exact ltac:(lia)) as H3.
  cbv zeta in H3. rewrite fexp_eq in H3.
  destruct (shr_fexp prec emax m2 e1 loc_Exact) as [r3 e3].
  destruct H3 as (Hr3 & Hk0 & Hk1).
  assert (Hd3 : 1 <= Zdigits2 (shr_m r3)
                /\ Zdigits2 (Z.pos m) + e <= Zdigits2 (shr_m r3) + e3).
  { destruct (Z_le_gt_dec (Z.max (Zdigits2 m2 + e1 - 53) (-1074) - e1) 0)
      as [Hn|Hn].
    - destruct (Hk0 Hn) as [-> ->]. lia.
    - destruct (Hk1 ltac:(lia)) as [Hd ->]. lia. }
  destruct Hd3 as (Hd3 & Hp3).
  destruct (shr_m r3) as [|m3|m3] eqn:Hm3; simpl in Hd3; try lia.
  destruct (e3 <=? emax - prec); simpl; [|done].
  unfold position. simpl in *. lia.
Qed.

Lemma digits_round_nonneg (m : Z) (l : location) :
  0 <= m ->
  0 <= round_nearest_even m l
  /\ Zdigits2 (round_nearest_even m l) <= Zdigits2 m + 1.
Proof.
  intros Hm. pose proof (digits_succ m Hm).
  destruct l as [|[]]; simpl; try lia.
  destruct (Z.even m); lia.
Qed.

(** Rounding never yields NaN, and it stays finite when the leading bit
    and the exponent are below the overflow threshold. *)
Lemma binary_round_aux_finite (s : bool) (m e : Z) (l : location) :
  0 <= m -> e <= 971 -> Zdigits2 m + e <= 1023 ->
  finite_spec (binary_round_aux prec emax s m e l).
Proof.
  intros Hm He Hpos. unfold binary_round_aux.
  pose proof (shr_fexp_digits m e l Hm) as H1.
  cbv zeta in H1. rewrite fexp_eq in H1.
  destruct (shr_fexp prec emax m e l) as [r1 e1].
  destruct H1 as (Hr1 & Hn0 & Hn1).
  assert (Hd1 : e1 <= 971 /\ Zdigits2 (shr_m r1) + e1 <= 1023).
  { destruct (Z_le_gt_dec (Z.max (Zdigits2 m + e - 53) (-1074) - e) 0)
      as [Hn|Hn].
    - destruct (Hn0 Hn) as [-> ->]. lia.
    - destruct (Hn1 ltac:(lia)) as [Hd ->]. lia. }
  destruct (digits_round_nonneg (shr_m r1) (loc_of_shr_record r1) Hr1)
    as [Hm2 Hd2].
  set (m2 := round_nearest_even (shr_m r1) (loc_of_shr_record r1)) in *.
  pose proof (shr_fexp_digits m2 e1 loc_Exact Hm2) as H3.
  cbv zeta in H3. rewrite fexp_eq in H3.
  destruct (shr_fexp prec emax m2 e1 loc_Exact) as [r3 e3].
  destruct H3 as (Hr3 & Hk0 & Hk1).
  assert (He3 : e3 <= 971).
  { destruct (Z_le_gt_dec (Z.max (Zdigits2 m2 + e1 - 53) (-1074) - e1) 0)
      as [Hn|Hn].
    - destruct (Hk0 Hn) as [_ ->]. lia.
    - destruct (Hk1 ltac:(lia)) as [_ ->]. lia. }
  destruct (shr_m r3) as [|m3|m3]; simpl; try done; try lia.
  destruct (Z.leb_spec e3 (emax - prec)) as [|Hgt]; [done|].
  change (emax - prec) with 971 in Hgt. lia.
Qed.

Lemma digits_iter_xO (m d : positive) :
  Z.pos (digits2_pos (Pos.iter xO m d)) = Z.pos (digits2_pos m) + Z.pos d.
Proof.
  induction d as [|d IH] using Pos.peano_ind.
  - simpl. lia.
  - rewrite Pos.iter_succ. simpl. lia.
Qed.

Lemma shl_align_position (m : positive) (e e' : Z) :
  let '(mz, ez) := shl_align m e e' in
  position mz ez = position m e /\ ez <= e.
Proof.
  unfold shl_align, position. destruct (e' - e) as [|d|d] eqn:Hd; simpl.
  - lia.
  - lia.
  - rewrite digits_iter_xO. lia.
Qed.

Lemma binary_round_position (m : positive) (e : Z) :
  -1074 < position m e ->
  posAbove (position m e) (binary_round prec emax false m e).
Proof.
  intros Hpos. unfold binary_round.
  pose proof (shl_align_position m e
                (fexp prec emax (Z.pos (digits2_pos m) + e))) as H.
  destruct (shl_align _ _ _) as [mz ez]. destruct H as [Hp _].
  rewrite <- Hp. apply binary_round_aux_position. by rewrite Hp.
Qed.

Lemma binary_round_finite (s : bool) (m : positive) (e : Z) :
  e <= 971 -> position m e <= 1023 ->
  finite_spec (binary_round prec emax s m e).
Proof.
  intros He Hpos. unfold binary_round.
  pose proof (shl_align_position m e
                (fexp prec emax (Z.pos (digits2_pos m) + e))) as H.
  destruct (shl_align _ _ _) as [mz ez]. destruct H as [Hp Hez].
  apply binary_round_aux_finite; [lia | lia |].
  unfold position in *. simpl in *. lia.
Qed.

(** The digit count is the binary logarithm plus one. *)
Lemma digits2_size (p : positive) : digits2_pos p = Pos.size p.
Proof. induction p; simpl; congruence. Qed.

Lemma Zdigits2_log2 (p : positive) :
  Zdigits2 (Z.pos p) = Z.log2 (Z.pos p) + 1.
Proof.
  simpl Zdigits2. destruct p; simpl; rewrite ?digits2_size; lia.
Qed.

Lemma Zdigits2_upper (p : positive) (k : Z) :
  0 <= k -> Z.pos p < 2 ^ k -> Zdigits2 (Z.pos p) <= k.
Proof.
  intros Hk Hp. rewrite Zdigits2_log2.
  apply Z.log2_lt_pow2 in Hp; lia.
Qed.

Lemma of_uint63_finite (i : int) :
  finite_spec (Prim2SF (PrimFloat.of_uint63 i)).
Proof.
  rewrite FloatAxioms.of_uint63_spec. pose proof (Uint63.to_Z_bounded i) as Hb.
  unfold binary_normalize. destruct (to_Z i) as [|p|p] eqn:Hi; [done| |lia].
  apply binary_round_finite; [lia|].
  unfold position. rewrite Z.add_0_r.
  etrans; [apply (Zdigits2_upper p 63); [lia|]|lia].
  change (2 ^ 63) with wB. lia.
Qed.

Lemma of_uint63_position (i : int) :
  0 < to_Z i -> posAbove 1 (Prim2SF (PrimFloat.of_uint63 i)).
Proof.
  intros Hi. rewrite FloatAxioms.of_uint63_spec. unfold binary_normalize.
  destruct (to_Z i) as [|p|p] eqn:Hp; try lia.
  pose proof (binary_round_position p 0) as H.
  unfold position in H. simpl Zdigits2 in H.
  destruct (binary_round prec emax false p 0) as [[]|[]| |[] m e];
    simpl in *; try (apply H; lia).
  specialize (H ltac:(lia)). lia.
Qed.

Lemma posAbove_weaken (lo lo' : Z) (x : spec_float) :
  lo' <= lo -> posAbove lo x -> posAbove lo' x.
Proof. destruct x as [[]|[]| |[] m e]; simpl; try done. lia. Qed.

(** The square root of a number at or above 1 is at or above 1. *)
Lemma SFsqrt_position (m : positive) (e : Z) :
  1 <= position m e ->
  posAbove 1 (SFsqrt prec emax (S754_finite false m e)).
Proof.
  unfold position. rewrite Zdigits2_log2. intros Hpos.
  unfold SFsqrt, SFsqrt_core_binary.
  set (e' := Z.min (fexp prec emax
                      (Z.div2 (Zdigits2 (Z.pos m) + e + 1))) (Z.div2 e)).
  assert (He' : 2 * e' <= e).
  { assert (e' <= Z.div2 e) by apply Z.le_min_r.
    rewrite Z.div2_div in *. pose proof (Z.mul_div_le e 2). lia. }
  set (s := e - 2 * e').
  assert (Hs : 0 <= s) by (unfold s; lia).
  set (m' := match s with
             | 0 => Z.pos m
             | Z.pos _ => Z.shiftl (Z.pos m) s
             | Z.neg _ => 0
             end).
  assert (Hm' : m' = Z.pos m * 2 ^ s).
  { unfold m'. destruct s as [|p|p] eqn:Es; [lia| |lia].
    by rewrite Z.shiftl_mul_pow2. }
  pose proof (Z.log2_spec (Z.pos m) ltac:(lia)) as [Hlog _].
  assert (Hbig : 2 ^ (Z.log2 (Z.pos m) + s) <= m').
  { rewrite Hm', Z.pow_add_r by (try apply Z.log2_nonneg; lia).
    apply Z.mul_le_mono_nonneg_r; [apply Z.pow_nonneg; lia | done]. }
  assert (Hm'pos : 0 < m').
  { eapply Z.lt_le_trans; [|exact Hbig]. apply Z.pow_pos_nonneg; [lia|].
    pose proof (Z.log2_nonneg (Z.pos m)). lia. }
  pose proof (Z.sqrtrem_sqrt m') as Hq.
  destruct (Z.sqrtrem m') as [q r]. simpl in Hq. subst q.
  assert (Hq1 : 1 <= Z.sqrt m').
  { apply Z.sqrt_le_square; lia. }
  assert (Hqd : 1 <= Zdigits2 (Z.sqrt m') + e').
  { destruct (Z.sqrt m') as [|qp|qp] eqn:Hq; try lia.
    rewrite Zdigits2_log2.
    destruct (Z_le_gt_dec 0 e') as [Hpos'|Hneg].
    - pose proof (Z.log2_nonneg (Z.pos qp)). lia.
    - assert (- e' <= Z.log2 (Z.pos qp)); [|lia].
      apply Z.log2_le_pow2; [lia|]. rewrite <- Hq.
      apply Z.sqrt_le_square; [lia | apply Z.pow_nonneg; lia |].
      rewrite <- Z.pow_add_r by lia.
      etrans; [|exact Hbig]. apply Z.pow_le_mono_r; lia. }
  destruct (Z.sqrt m') as [|qp|qp] eqn:Hq; try lia.
  eapply posAbove_weaken; [|apply binary_round_aux_position].
  - exact Hqd.
  - unfold position. lia.
Qed.

(** The product of two numbers at or above 1 is at or above 1 (and in
    particular not zero). *)
Lemma SFmul_position (x y : spec_float) :
  posAbove 1 x -> posAbove 1 y -> posAbove 1 (SFmul prec emax x y).
Proof.
  destruct x as [[]|[]| |[] mx ex], y as [[]|[]| |[] my ey];
    simpl; try done.
  unfold position. rewrite !Zdigits2_log2. intros Hx Hy.
  pose proof (Z.log2_mul_below (Z.pos mx) (Z.pos my) ltac:(lia) ltac:(lia))
    as Hlog.
  eapply posAbove_weaken; [|apply binary_round_aux_position].
  - unfold position. rewrite Zdigits2_log2.
    change (Z.pos (mx * my)) with (Z.pos mx * Z.pos my). lia.
  - unfold position. rewrite Zdigits2_log2.
    change (Z.pos (mx * my)) with (Z.pos mx * Z.pos my). lia.
Qed.

(** Rounding a non-negative mantissa never produces NaN. *)
Lemma binary_round_aux_number (s : bool) (m e : Z) (l : location) :
  0 <= m -> binary_round_aux prec emax s m e l <> S754_nan.
Proof.
  intros Hm. unfold binary_round_aux.
  pose proof (shr_fexp_digits m e l Hm) as H1. cbv zeta in H1.
  destruct (shr_fexp prec emax m e l) as [r1 e1].
  destruct H1 as (Hr1 & _).
  destruct (digits_round_nonneg (shr_m r1) (loc_of_shr_record r1) Hr1)
    as [Hm2 _].
  pose proof (shr_fexp_digits _ e1 loc_Exact Hm2) as H3. cbv zeta in H3.
  destruct (shr_fexp prec emax _ e1 loc_Exact) as [r3 e3].
  destruct H3 as (Hr3 & _).
  destruct (shr_m r3); simpl; try done; try lia.
  by destruct (_ <=? _).
Qed.

(** A finite number divided by a positive number is a number. *)
Lemma SFdiv_number (x y : spec_float) :
  finite_spec x -> posAbove 1 y -> SFdiv prec emax x y <> S754_nan.
Proof.
  destruct x as [sx|sx| |sx mx ex], y as [[]|[]| |[] my ey];
    simpl; try done.
  intros _ _. unfold SFdiv_core_binary.
  set (m' := match _ - _ - _ with
             | 0 => Z.pos mx | Z.pos _ => Z.shiftl (Z.pos mx) _ | Z.neg _ => 0
             end).
  assert (Hm' : 0 <= m').
  { unfold m'. destruct (_ - _ - _); try lia. apply Z.shiftl_nonneg. lia. }
  pose proof (Z.div_pos m' (Z.pos my) Hm' ltac:(lia)) as Hq.
  unfold Z.div in Hq. destruct (Z.div_eucl m' (Z.pos my)) as [q r].
  by apply binary_round_aux_number.
Qed.

(** ** From specifications to binary64 values *)

Lemma Z2F_finite (z : Z) : finite_spec (Prim2SF (JS.Z2F z)).
Proof.
  unfold JS.Z2F. destruct (z <? 0).
  - rewrite FloatAxioms.opp_spec.
    pose proof (of_uint63_finite (Uint63.of_Z (- z))) as H.
    by destruct (Prim2SF _).
  - apply of_uint63_finite.
Qed.

Lemma Z2F_position (z : Z) :
  0 < z < 2 ^ 63 ->
  exists m e, Prim2SF (JS.Z2F z) = S754_finite false m e
              /\ 1 <= position m e.
Proof.
  intros Hz. unfold JS.Z2F. destruct (Z.ltb_spec z 0); [lia|].
  pose proof (of_uint63_finite (Uint63.of_Z z)) as Hf.
  pose proof (of_uint63_position (Uint63.of_Z z)) as Hp.
  rewrite Uint63.of_Z_spec, Z.mod_small in Hp by (change wB with (2 ^ 63); lia).
  specialize (Hp ltac:(lia)).
  destruct (Prim2SF _) as [[]|[]| |[] m e]; simpl in *; try done.
  by exists m, e.
Qed.

Lemma mag_position (vx vy : Z) :
  Z.abs vx < 2 ^ 26 -> Z.abs vy < 2 ^ 26 -> (vx <> 0 \/ vy <> 0) ->
  posAbove 1 (Prim2SF (mag vx vy)).
Proof.
  intros Hx Hy Hne. unfold mag. rewrite FloatAxioms.sqrt_spec.
  destruct (Z2F_position (vx * vx + vy * vy)) as (m & e & -> & Hp).
  { change (2 ^ 26) with 67108864 in *.
    change (2 ^ 63) with 9223372036854775808.
    assert (0 <= vx * vx < 4503599627370496) by nia.
    assert (0 <= vy * vy < 4503599627370496) by nia.
    assert (0 < vx * vx \/ 0 < vy * vy) by nia.
    lia. }
  by apply SFsqrt_position.
Qed.

Lemma posAbove_nonzero (x : float) :
  posAbove 1 (Prim2SF x) ->
  (x =? 0)%float = false /\ PrimFloat.is_nan x = false.
Proof.
  intros H. unfold PrimFloat.is_nan. rewrite !FloatAxioms.eqb_spec.
  unfold SFeqb. change (Prim2SF 0) with (S754_zero false).
  destruct (Prim2SF x) as [[]|[]| |[] m e]; simpl in *; try done.
  by rewrite Z.compare_refl, Pos.compare_cont_refl.
Qed.

Lemma SFcompare_refl (x : spec_float) :
  x <> S754_nan -> SFcompare x x = Some Eq.
Proof.
  destruct x as [[]|[]| |[] m e]; simpl; try done; intros _;
    by rewrite Z.compare_refl, Pos.compare_cont_refl.
Qed.

Lemma numF_not_nan (x : float) : numF x -> PrimFloat.is_nan x = false.
Proof.
  unfold numF, PrimFloat.is_nan. intros H. rewrite FloatAxioms.eqb_spec.
  unfold SFeqb. by rewrite SFcompare_refl.
Qed.

Lemma SFcompare_total (x y : spec_float) :
  x <> S754_nan -> y <> S754_nan -> is_Some (SFcompare x y).
Proof.
  destruct x as [[]|[]| |[] mx ex], y as [[]|[]| |[] my ey]; simpl; done.
Qed.

Lemma ltb_leb (a b : float) : (a <? b)%float = true -> (a <=? b)%float = true.
Proof.
  rewrite FloatAxioms.ltb_spec, FloatAxioms.leb_spec. unfold SFltb, SFleb.
  by destruct (SFcompare _ _) as [[]|].
Qed.

(** Among numbers, "not above" is "at most". *)
Lemma not_ltb_leb (a b : float) :
  numF a -> numF b -> (b <? a)%float = false -> (a <=? b)%float = true.
Proof.
  unfold numF. rewrite FloatAxioms.ltb_spec, FloatAxioms.leb_spec.
  unfold SFltb, SFleb. intros Ha Hb.
  rewrite (SFcompare_swap (Prim2SF b) (Prim2SF a)).
  destruct (SFcompare_total _ _ Hb Ha) as [c ->]. by destruct c.
Qed.

(** The clamp [Math.max(-1, Math.min(1, c))] of a number lies in
    [[-1, 1]]. *)
Lemma clampCos_range (c : float) :
  numF c ->
  (-1 <=? clampCos c)%float = true /\ (clampCos c <=? 1)%float = true.
Proof.
  intros Hc. unfold clampCos.
  assert (Hmin : numF (JS.min 1 c) /\ (JS.min 1 c <=? 1)%float = true).
  { unfold JS.min. rewrite (numF_not_nan c Hc).
    change (PrimFloat.is_nan 1) with false. cbn [orb].
    change (PrimFloat.get_sign 1) with false.
    destruct (1 <? c)%float eqn:H1; [split; [by vm_compute | done]|].
    assert ((c <=? 1)%float = true)
      by (apply not_ltb_leb; [done | by vm_compute | done]).
    by destruct (c <? 1)%float. }
  destruct Hmin as [Hn Hle]. set (m := JS.min 1 c) in *.
  unfold JS.max. rewrite (numF_not_nan m Hn).
  change (PrimFloat.is_nan (-1)) with false. cbn [orb].
  change (PrimFloat.get_sign (-1)) with true.
  destruct (-1 <? m)%float eqn:H1; [split; [by apply ltb_leb | done]|].
  destruct (m <? -1)%float eqn:H2; [by vm_compute|].
  split; [|done]. apply not_ltb_leb; [by vm_compute | done | done].
Qed.

(** ** Numbers stay numbers *)

Lemma binary_normalize_number (m e : Z) (s : bool) :
  binary_normalize prec emax m e s <> S754_nan.
Proof.
  unfold binary_normalize, binary_round.
  destruct m; [done| |]; destruct (shl_align _ _ _);
    apply binary_round_aux_number; lia.
Qed.

Lemma SFsub_number (x y : spec_float) :
  finite_spec x -> y <> S754_nan -> SFsub prec emax x y <> S754_nan.
Proof.
  destruct x as [sx|sx| |sx mx ex], y as [sy|sy| |sy my ey];
    simpl; try done; intros _ _.
  - by destruct sx, sy.
  - apply binary_normalize_number.
Qed.

Lemma SFadd_number (x y : spec_float) :
  finite_spec x -> y <> S754_nan -> SFadd prec emax x y <> S754_nan.
Proof.
  destruct x as [sx|sx| |sx mx ex], y as [sy|sy| |sy my ey];
    simpl; try done; intros _ _.
  - by destruct sx, sy.
  - apply binary_normalize_number.
Qed.

Lemma SFmul_finite_number (x y : spec_float) :
  finite_spec x -> finite_spec y -> SFmul prec emax x y <> S754_nan.
Proof.
  destruct x as [sx|sx| |sx mx ex], y as [sy|sy| |sy my ey];
    simpl; try done; intros _ _.
  apply binary_round_aux_number. lia.
Qed.

Lemma SFmul_self_nonneg (x : spec_float) :
  x <> S754_nan -> nonneg_spec (SFmul prec emax x x).
Proof.
  destruct x as [[]|[]| |[] m e]; simpl; try done; intros _;
    apply binary_round_aux_nonneg; lia.
Qed.

Lemma SFsqrt_nonneg (x : spec_float) :
  nonneg_spec x -> nonneg_spec (SFsqrt prec emax x).
Proof.
  destruct x as [[]|[]| |[] m e]; simpl; try done; intros _.
  unfold SFsqrt_core_binary.
  set (m' := match _ - _ with
             | 0 => Z.pos m | Z.pos _ => Z.shiftl (Z.pos m) _ | Z.neg _ => 0
             end).
  pose proof (Z.sqrtrem_sqrt m') as Hq. pose proof (Z.sqrt_nonneg m') as H0.
  destruct (Z.sqrtrem m') as [q r]. simpl in Hq. subst q.
  by apply binary_round_aux_nonneg.
Qed.

(** ** Distances between pixels are finite *)

(** Rounding raises the leading bit by at most one place. *)
Lemma binary_round_aux_upper (s : bool) (m e : Z) (l : location) (P : Z) :
  0 <= m -> -1074 <= P <= 971 -> e <= P -> Zdigits2 m + e <= P ->
  match binary_round_aux prec emax s m e l with
  | S754_zero _ => True
  | S754_finite _ m' e' => position m' e' <= P + 1
  | _ => False
  end.
Proof.
  intros Hm HP He Hpos. unfold binary_round_aux.
  pose proof (shr_fexp_digits m e l Hm) as H1.
  cbv zeta in H1. rewrite fexp_eq in H1.
  destruct (shr_fexp prec emax m e l) as [r1 e1].
  destruct H1 as (Hr1 & Hn0 & Hn1).
  assert (Hd1 : e1 <= P /\ Zdigits2 (shr_m r1) + e1 <= P).
  { destruct (Z_le_gt_dec (Z.max (Zdigits2 m + e - 53) (-1074) - e) 0)
      as [Hn|Hn].
    - destruct (Hn0 Hn) as [-> ->]. lia.
    - destruct (Hn1 ltac:(lia)) as [Hd ->]. lia. }
  destruct (digits_round_nonneg (shr_m r1) (loc_of_shr_record r1) Hr1)
    as [Hm2 Hd2].
  set (m2 := round_nearest_even (shr_m r1) (loc_of_shr_record r1)) in *.
  pose proof (shr_fexp_digits m2 e1 loc_Exact Hm2) as H3.
  cbv zeta in H3. rewrite fexp_eq in H3.
  destruct (shr_fexp prec emax m2 e1 loc_Exact) as [r3 e3].
  destruct H3 as (Hr3 & Hk0 & Hk1).
  assert (He3 : e3 <= P /\ Zdigits2 (shr_m r3) + e3 <= P + 1).
  { destruct (Z_le_gt_dec (Z.max (Zdigits2 m2 + e1 - 53) (-1074) - e1) 0)
      as [Hn|Hn].
    - destruct (Hk0 Hn) as [-> ->]. lia.
    - destruct (Hk1 ltac:(lia)) as [Hd ->]. lia. }
  destruct (shr_m r3) as [|m3|m3] eqn:Hm3; simpl; try done; try lia.
  destruct (Z.leb_spec e3 (emax - prec)) as [|Hgt].
  - unfold position. simpl in *. lia.
  - change (emax - prec) with 971 in Hgt. lia.
Qed.

(** The binary64 value of a positive integer below [2^63]: its leading
    bit and its exponent. *)
Lemma Z2F_bounds (z : Z) :
  0 < z < 2 ^ 63 ->
  exists m e, Prim2SF (JS.Z2F z) = S754_finite false m e
              /\ 1 <= position m e <= 64 /\ -52 <= e <= 11.
Proof.
  intros Hz. destruct (Z2F_position z Hz) as (m & e & Heq & Hlo).
  exists m, e. split; [done|].
  assert (Hhi : position m e <= 64).
  { unfold JS.Z2F in Heq. destruct (Z.ltb_spec z 0); [lia|].
    rewrite FloatAxioms.of_uint63_spec, Uint63.of_Z_spec, Z.mod_small in Heq
      by (change wB with (2 ^ 63); lia).
    destruct z as [|p|p]; try lia. unfold binary_normalize, binary_round in Heq.
    pose proof (shl_align_position p 0
                  (fexp prec emax (Z.pos (digits2_pos p) + 0))) as Ha.
    destruct (shl_align _ _ _) as [mz ez]. destruct Ha as [Hp Hez].
    pose proof (binary_round_aux_upper false (Z.pos mz) ez loc_Exact 63) as Hu.
    rewrite Heq in Hu. apply Hu; try lia.
    pose proof (Zdigits2_upper p 63 ltac:(lia) ltac:(lia)).
    unfold position in Hp. simpl in *. lia. }
  pose proof (Prim2SF_valid (JS.Z2F z)) as Hv. rewrite Heq in Hv.
  unfold valid_binary, bounded, canonical_mantissa in Hv.
  apply andb_true_iff in Hv as [Hc _]. apply Z.eqb_eq in Hc.
  rewrite fexp_eq in Hc. unfold position in *. simpl in *. lia.
Qed.

Lemma Zdigits2_mono (a b : Z) : 0 < a <= b -> Zdigits2 a <= Zdigits2 b.
Proof.
  intros H. destruct a as [|p|p], b as [|q|q]; try lia.
  rewrite !Zdigits2_log2. pose proof (Z.log2_le_mono (Z.pos p) (Z.pos q)). lia.
Qed.

(** The square root of such a value is finite. *)
Lemma SFsqrt_finite (m : positive) (e : Z) :
  1 <= position m e <= 64 -> -52 <= e <= 11 ->
  finite_spec (SFsqrt prec emax (S754_finite false m e)).
Proof.
  unfold position. intros Hpos He. unfold SFsqrt, SFsqrt_core_binary.
  set (d := Zdigits2 (Z.pos m)) in *.
  set (e' := Z.min (fexp prec emax (Z.div2 (d + e + 1))) (Z.div2 e)).
  assert (He' : -52 <= e' /\ 2 * e' <= e).
  { unfold e'. rewrite fexp_eq, !Z.div2_div.
    pose proof (Z.mul_div_le e 2). pose proof (Z.mul_div_le (d + e + 1) 2).
    pose proof (Z.mul_succ_div_gt e 2). pose proof (Z.mul_succ_div_gt (d + e + 1) 2).
    lia. }
  set (s := e - 2 * e').
  set (m' := match s with
             | 0 => Z.pos m
             | Z.pos _ => Z.shiftl (Z.pos m) s
             | Z.neg _ => 0
             end).
  assert (Hm' : m' = Z.pos m * 2 ^ s).
  { unfold m'. destruct s as [|p|p] eqn:Es; [lia| |lia].
    by rewrite Z.shiftl_mul_pow2. }
  assert (Hpow : 0 < 2 ^ s) by (apply Z.pow_pos_nonneg; unfold s; lia).
  assert (Hm'pos : 0 < m') by (rewrite Hm'; lia).
  assert (Hdm' : Zdigits2 m' <= d + s).
  { destruct m' as [|mp|mp] eqn:Emp; try lia.
    rewrite Zdigits2_log2, Hm'.
    unfold d. rewrite Zdigits2_log2.
    rewrite Z.log2_mul_pow2; [lia | lia | unfold s; lia]. }
  pose proof (Z.sqrtrem_sqrt m') as Hq.
  pose proof (Z.sqrt_nonneg m') as Hq0.
  pose proof (Z.sqrt_le_lin m' ltac:(lia)) as Hqle.
  destruct (Z.sqrtrem m') as [q r]. simpl in Hq. subst q.
  apply binary_round_aux_finite; [done | lia |].
  destruct (Z.eq_dec (Z.sqrt m') 0) as [->|Hne]; [simpl; lia|].
  pose proof (Zdigits2_mono (Z.sqrt m') m' ltac:(lia)). unfold s in *. lia.
Qed.

Lemma pixelRange_bound (p : Point) :
  pixelRange p -> Z.abs (px p) < 2 ^ 25 /\ Z.abs (py p) < 2 ^ 25.
Proof. unfold pixelRange. intros [H1 H2]%andb_true_iff. lia. Qed.

Lemma euclid_finite (p q : Point) :
  pixelRange p -> pixelRange q ->
  (euclid p q <? PrimFloat.infinity)%float = true.
Proof.
  intros [Hp1 Hp2]%pixelRange_bound [Hq1 Hq2]%pixelRange_bound.
  change (2 ^ 25) with 33554432 in *. unfold euclid.
  set (dx := px p - px q). set (dy := py p - py q).
  assert (-67108864 < dx < 67108864) by (unfold dx; lia).
  assert (-67108864 < dy < 67108864) by (unfold dy; lia).
  assert (0 <= dx * dx < 4503599627370496) by nia.
  assert (0 <= dy * dy < 4503599627370496) by nia.
  rewrite FloatAxioms.ltb_spec, FloatAxioms.sqrt_spec. unfold SFltb.
  change (Prim2SF PrimFloat.infinity) with (S754_infinity false).
  assert (Hres : finite_spec (SFsqrt prec emax (Prim2SF (JS.Z2F (dx * dx + dy * dy))))
                 /\ nonneg_spec (SFsqrt prec emax (Prim2SF (JS.Z2F (dx * dx + dy * dy))))).
  { destruct (Z.eq_dec (dx * dx + dy * dy) 0) as [->|Hne]; [by vm_compute|].
    destruct (Z2F_bounds (dx * dx + dy * dy)) as (m & e & -> & Hpos & He).
    { change (2 ^ 63) with 9223372036854775808. lia. }
    split; [by apply SFsqrt_finite | by apply SFsqrt_nonneg]. }
  destruct Hres as [Hf Hn]. unfold SF64sqrt.
  by destruct (SFsqrt _ _ _) as [[]|[]| |[] m e].
Qed.

Lemma pixelRange_finiteDistances (l : list Point) :
  Forall pixelRange l -> finiteDistances l.
Proof.
  intros Hl. unfold finiteDistances. rewrite Forall_forall in Hl.
  apply forallb_forall. intros p Hp%list_elem_of_In.
  apply forallb_forall. intros q Hq%list_elem_of_In.
  apply euclid_finite; auto.
Qed.

(** ** Boundary ordering (C6) *)

Lemma orderBoundaryPoints_complete (boundary all : list Point) :
  boundary <> [] -> NoDup boundary -> finiteDistances boundary ->
  exists ordered,
    (forall fuel, (length boundary <= fuel)%nat ->
                  orderBoundaryPoints fuel boundary all = Some ordered)
    /\ ordered ≡ₚ boundary /\ NoDup ordered.
Proof.
  intros Hne Hnd Hfin. destruct boundary as [|b0 rest]; [done|].
  apply NoDup_cons in Hnd as [Hb0 Hrest].
  destruct (orderLoop_complete (S (length rest)) [b0] rest b0 (b0 :: rest))
    as (picked & Hrun & Hperm); auto.
  - apply list_elem_of_here.
  - intros p Hp. by apply list_elem_of_further.
  - exists (b0 :: picked). split; [|split].
    + intros fuel Hfuel. unfold orderBoundaryPoints.
      rewrite (setOf_NoDup rest Hrest).
      rewrite (orderLoop_fuel_mono _ fuel _ _ _ _ Hfuel Hrun). done.
    + by rewrite Hperm.
    + apply NoDup_cons. split.
      * by rewrite Hperm.
      * by rewrite Hperm.
Qed.

(** C6: for every non-empty array of distinct boundary points (pixel
    coordinates), [orderBoundaryPoints] returns: as many iterations as
    there are points suffice, each one removing a point from the remaining
    set, since the Euclidean fallback always selects one, and the returned
    sequence holds every input point exactly once. *)
Theorem orderBoundaryPoints_permutation (boundary all : list Point) :
  boundary <> [] -> NoDup boundary -> Forall pixelRange boundary ->
  exists ordered,
    (forall fuel, (length boundary <= fuel)%nat ->
                  orderBoundaryPoints fuel boundary all = Some ordered)
    /\ ordered ≡ₚ boundary /\ NoDup ordered.
Proof.
  intros Hne Hnd Hrange.
  apply orderBoundaryPoints_complete; auto using pixelRange_finiteDistances.
Qed.

Lemma orderBoundaryPoints_permutation_witness :
  exists ordered,
    (forall fuel, (3 <= fuel)%nat ->
                  orderBoundaryPoints fuel trianglePoints [] = Some ordered)
    /\ ordered ≡ₚ trianglePoints /\ NoDup ordered.
Proof.
  apply (orderBoundaryPoints_permutation trianglePoints []).
  - discriminate.
  - compute_done.
  - repeat constructor.
Defined.

(** ** Component extraction returns, with contours inside the image *)

Section Extraction.

Variables (binary : list bool) (w h : Z).

Lemma inBounds_pixelRange (p : Point) :
  w <= 2 ^ 25 -> h <= 2 ^ 25 ->
  inBounds w h (px p) (py p) = true -> pixelRange p.
Proof.
  intros Hw Hh Hp%inBounds_index. unfold pixelRange.
  apply andb_true_iff. split; apply Z.ltb_lt; lia.
Qed.

Lemma floodRegion_spec (vis : list bool) (x y : Z) :
  length vis = Z.to_nat (w * h) ->
  exists s contour,
    floodRegion binary vis x y w h = Some (s, contour)
    /\ length (visited s) = Z.to_nat (w * h)
    /\ goodComponent binary w h (allPoints s, contour).
Proof.
  intros Hlen. unfold floodRegion.
  destruct (fill_start binary w h vis x y Hlen) as (s & -> & Hinv & _).
  destruct Hinv as [Hl Hb Hm Hnd Hbd]. cbn [mbind option_bind].
  assert (Hsub : boundaryPoints s `sublist_of` allPoints s).
  { rewrite Hbd. apply sublist_filter. }
  destruct (boundaryPoints s) as [|b0 rest] eqn:Hbp.
  { exists s, (allPoints s). split; [done|]. split; [done|].
    unfold goodComponent, isContourOf. cbn [fst snd]. rewrite <- Hbd.
    by repeat split. }
  change (0 <? length (b0 :: rest))%nat with true. cbv iota.
  unfold orderBoundaryPoints.
  pose proof (sublist_NoDup _ _ Hnd Hsub) as Hndb.
  pose proof Hndb as Hndb'. apply NoDup_cons in Hndb as [Hb0 Hrest].
  destruct (setOf_spec rest [] (NoDup_nil_2)) as (Hs1 & Hs2 & Hs3).
  fold (setOf rest) in Hs1, Hs2, Hs3. simpl in Hs3.
  destruct (orderLoop_total (orderFuel (b0 :: rest)) [b0] (setOf rest) b0)
    as (picked & Hrun & Hin & Hpnd); [unfold orderFuel; simpl; lia|].
  rewrite Hrun. cbn [mbind option_bind app length Nat.ltb Nat.leb].
  exists s, (b0 :: picked). split; [done|]. split; [done|].
  assert (Hrest_in : forall p, p ∈ picked -> p ∈ rest).
  { intros p Hp. destruct (Hs2 p (Hin p Hp)) as [H|H]; [|done].
    by apply elem_of_nil in H. }
  unfold goodComponent, isContourOf. cbn [fst snd]. rewrite <- Hbd.
  split; [done|]. split; [|split; [done|split]].
  - apply NoDup_cons. split; [|by apply Hpnd].
    intros Hp. by apply Hb0, Hrest_in.
  - intros p [->|Hp]%elem_of_cons.
    + apply (elem_of_sublist (b0 :: rest)); [apply list_elem_of_here|done].
    + apply (elem_of_sublist (b0 :: rest)); [|done].
      by apply list_elem_of_further, Hrest_in.
  - intros Hw Hh.
    destruct (orderBoundaryPoints_complete (b0 :: rest) (allPoints s))
      as (ordered & Hord & Hperm & _); [done | done | |].
    { apply pixelRange_finiteDistances, Forall_forall. intros p Hp.
      apply inBounds_pixelRange; [done | done |].
      apply Hb. by apply (elem_of_sublist (b0 :: rest)). }
    specialize (Hord (orderFuel (b0 :: rest)) ltac:(done)).
    unfold orderBoundaryPoints in Hord. rewrite Hrun in Hord.
    cbn [mbind option_bind app length Nat.ltb Nat.leb] in Hord.
    by simplify_eq.
Qed.

Lemma scan_related (pixels : list (Z * Z)) (vis : list bool)
      (comps : list (list Point * list Point)) :
  length vis = Z.to_nat (w * h) ->
  Forall (goodComponent binary w h) comps ->
  exists vis' comps',
    fold_left (scanComponent binary w h) pixels (Some (vis, comps))
    = Some (vis', comps')
    /\ fold_left (scanPixel binary w h) pixels (Some (vis, kept comps))
       = Some (vis', kept comps')
    /\ Forall (goodComponent binary w h) comps'.
Proof.
  revert vis comps.
  induction pixels as [|[x y] pixels IH]; intros vis comps Hlen Hgood.
  { by exists vis, comps. }
  simpl.
  destruct (JS.getb binary (y * w + x) && negb (JS.getb vis (y * w + x)))
    eqn:Hseed; [|by apply IH].
  unfold floodFill.
  destruct (floodRegion_spec vis x y Hlen) as (s & contour & -> & Hl & Hg).
  simpl.
  replace (if (10 <? length contour)%nat
           then kept comps ++ [contour] else kept comps)
    with (kept (comps ++ [(allPoints s, contour)])).
  - apply IH; [done|]. apply Forall_app. split; [done|].
    by apply Forall_singleton.
  - unfold kept. rewrite filter_app, map_app. simpl.
    rewrite filter_cons, filter_nil. simpl.
    destruct (Nat.ltb_spec 10 (length contour)) as [H|H];
      destruct (decide (10 < length contour)%nat); try lia; simpl.
    + done.
    + by rewrite app_nil_r.
Qed.

Lemma findContours_components :
  exists comps,
    components binary w h = Some comps
    /\ findContours binary w h = Some (kept comps)
    /\ Forall (goodComponent binary w h) comps.
Proof.
  unfold components, findContours.
  destruct (scan_related (raster w h)
              (replicate (Z.to_nat (w * h)) false) [])
    as (vis' & comps' & H1 & H2 & H3).
  - apply length_replicate.
  - constructor.
  - exists comps'. rewrite H1. change (kept []) with (@nil (list Point)) in H2.
    rewrite H2. done.
Qed.

End Extraction.

(** ** The noise filter (C1) *)

(** C1, as amended: for every binary mask [findContours] returns, and a
    connected component is discarded exactly when the contour that
    [floodFill] returns for it has at most 10 points.  That contour is
    the component's boundary pixels in some order (all its pixels when
    none is on the boundary), so the test counts boundary pixels; the size
    of the component's full pixel set is not consulted. *)
Theorem findContours_keeps_long_contours (binary : list bool) (w h : Z) :
  exists comps,
    components binary w h = Some comps
    /\ findContours binary w h
       = Some (map snd (filter (fun c => (10 < length (snd c))%nat) comps))
    /\ (forall all contour,
          (all, contour) ∈ comps ->
          (contour ∈ default [] (findContours binary w h)
           <-> (10 < length contour)%nat)
          /\ (w <= 2 ^ 25 -> h <= 2 ^ 25 ->
              isContourOf binary w h all contour)).
Proof.
  destruct (findContours_components binary w h) as (comps & H1 & H2 & Hg).
  exists comps. split; [done|]. split; [done|].
  intros all contour Hin. split.
  - rewrite H2. simpl. unfold kept.
    rewrite list_elem_of_In, in_map_iff. split.
    + intros ([a c] & <- & Hc). apply list_elem_of_In in Hc.
      by apply list_elem_of_filter in Hc as [Hc _].
    + intros Hlen. exists (all, contour). split; [done|].
      apply list_elem_of_In, list_elem_of_filter. done.
  - rewrite Forall_forall in Hg. by apply (Hg _ Hin).
Qed.

(** C1 fails as stated: the fully dark 4 x 3 mask is one component of 12
    pixels, more than 10, and no contour is emitted for it (its contour
    has the 10 boundary pixels). *)
Lemma findContours_drops_12_pixel_component :
  exists all contour,
    components blockMask 4 3 = Some [(all, contour)]
    /\ length all = 12%nat /\ length contour = 10%nat
    /\ findContours blockMask 4 3 = Some [].
Proof. eexists _, _. vm_compute. repeat split. Qed.

(** ** The decision tree *)

Section ClassifierFacts.

Variable acos : float -> float.

(** [isTriangle] rejects every array that does not have exactly 3 points,
    before any angle is computed. *)
Lemma isTriangle_length (points : list Point) :
  isTriangle acos points = true -> length points = 3%nat.
Proof.
  unfold isTriangle. destruct (Nat.eqb_spec (length points) 3); [done|].
  simpl. discriminate.
Qed.

Lemma decide_shape_triangle (simplified : list Point) (circularity c : float) :
  decide_shape acos simplified circularity = Some (triangle, c) ->
  length simplified = 3%nat /\ c = (0.85 + 0.1)%float.
Proof.
  unfold decide_shape.
  destruct (_ && (8 <=? _)%nat); [discriminate|].
  destruct (Nat.eqb_spec (length simplified) 3) as [H3|H3].
  - simpl. by intros [= <-].
  - simpl. destruct (isTriangle acos simplified) eqn:Ht.
    + by apply isTriangle_length in Ht.
    + rewrite andb_false_r.
      repeat (match goal with
              | |- context [if ?b then _ else _] => destruct b
              end; try discriminate).
Qed.

(** Every confidence the tree assigns is a non-negative number. *)
Lemma decide_shape_nonneg (simplified : list Point) (circularity c : float)
      (t : ShapeType) :
  decide_shape acos simplified circularity = Some (t, c) -> nonnegF c.
Proof.
  unfold decide_shape.
  destruct (0.85 <? circularity)%float eqn:Hc;
    destruct (8 <=? length simplified)%nat eqn:H8; cbn [andb].
  1: { intros H; simplify_eq. apply min_nonneg; [by vm_compute|].
       apply add_nonneg; [by vm_compute|].
       apply mul_nonneg; [|by vm_compute|by eexists _, _; vm_compute].
       apply (gt_nonneg 0.85); [by vm_compute | done]. }
  all: repeat match goal with
              | |- context [if ?b then _ else _] => destruct b
              end.
  all: intros H; simplify_eq; by vm_compute.
Qed.

Lemma calculateBounds_extent (points : list Point) (b : Bounds) :
  calculateBounds points = Some b -> 1 <= bw b /\ 1 <= bh b.
Proof.
  unfold calculateBounds. destruct points as [|p ps]; [done|].
  assert (G : forall (l : list Point) (acc : Z * Z * Z * Z),
             (let '(x0, y0, x1, y1) := acc in x0 <= x1 /\ y0 <= y1) ->
             let '(x0, y0, x1, y1) :=
               fold_left (fun '(x0, y0, x1, y1) q =>
                            (Z.min x0 (px q), Z.min y0 (py q),
                             Z.max x1 (px q), Z.max y1 (py q))) l acc in
             x0 <= x1 /\ y0 <= y1).
  { induction l as [|q l IH]; intros [[[x0 y0] x1] y1] H; [done|].
    simpl. apply IH. lia. }
  specialize (G (p :: ps) (px p, py p, px p, py p)).
  destruct (fold_left _ (p :: ps) _) as [[[x0 y0] x1] y1].
  intros [= <-]. simpl. destruct G; lia.
Qed.

(** What [classifyShape] puts into a shape. *)
Lemma classifyShape_fields (simplified originalContour : list Point)
      (s : DetectedShape) :
  classifyShape acos simplified originalContour = Some s ->
  exists b t c,
    calculateBounds originalContour = Some b
    /\ decide_shape acos simplified
         (4 * JS.PI * JS.Q2F (calculateArea originalContour)
          / (calculatePerimeter simplified * calculatePerimeter simplified))
       = Some (t, c)
    /\ s = mkShape t (JS.min 1 c)
                   (mkBox (minX b) (minY b) (bw b) (bh b))
                   (mkCenter (inject_Z (minX b) + Qmake (bw b) 2)
                             (inject_Z (minY b) + Qmake (bh b) 2))
                   (calculateArea originalContour).
Proof.
  unfold classifyShape.
  destruct (calculateBounds originalContour) as [b|]; [|done]. simpl.
  destruct (decide_shape _ _ _) as [[t c]|]; [|done]. simpl.
  intros [= <-]. by exists b, t, c.
Qed.

(** C2: every shape that [classifyShape] labels "triangle" comes from a
    simplified polygon with exactly 3 vertices, and its confidence is
    exactly 0.95, because [isTriangle] is false whenever the point count
    differs from 3. *)
Theorem triangle_has_three_vertices (simplified originalContour : list Point)
        (s : DetectedShape) :
  classifyShape acos simplified originalContour = Some s ->
  type s = triangle ->
  length simplified = 3%nat /\ confidence s = 0.95%float.
Proof.
  intros (b & t & c & _ & Hd & ->)%classifyShape_fields. simpl.
  intros ->. apply decide_shape_triangle in Hd as [H3 ->]. done.
Qed.

(** The second disjunct of the triangle test can never decide. *)
Lemma triangle_disjunct_unreachable (simplified : list Point) :
  (3 <=? length simplified)%nat && (length simplified <=? 5)%nat
  && isTriangle acos simplified = true ->
  (length simplified =? 3)%nat = true.
Proof.
  intros [_ H%isTriangle_length]%andb_true_iff. by rewrite H.
Qed.

(** The confidence of a classified shape lies in [[0, 1]]. *)
Lemma classifyShape_confidence (simplified originalContour : list Point)
      (s : DetectedShape) :
  classifyShape acos simplified originalContour = Some s ->
  (0 <=? confidence s)%float = true /\ (confidence s <=? 1)%float = true.
Proof.
  intros (b & t & c & _ & Hd & ->)%classifyShape_fields. simpl.
  apply min_one_unit. by apply decide_shape_nonneg in Hd.
Qed.

(** The center of a classified shape lies in its bounding box. *)
Lemma classifyShape_center (simplified originalContour : list Point)
      (s : DetectedShape) :
  classifyShape acos simplified originalContour = Some s ->
  (inject_Z (bx (boundingBox s)) <= cx (center s))%Q
  /\ (cx (center s)
      <= inject_Z (bx (boundingBox s) + bwidth (boundingBox s)))%Q
  /\ (inject_Z (by_ (boundingBox s)) <= cy (center s))%Q
  /\ (cy (center s)
      <= inject_Z (by_ (boundingBox s) + bheight (boundingBox s)))%Q.
Proof.
  intros (b & t & c & Hb & _ & ->)%classifyShape_fields. simpl.
  apply calculateBounds_extent in Hb as [Hw Hh].
  unfold Qle. simpl. lia.
Qed.

End ClassifierFacts.

Lemma triangle_has_three_vertices_witness :
  length trianglePoints = 3%nat
  /\ confidence
       (default (mkShape circle 0 (mkBox 0 0 0 0) (mkCenter 0 0) 0)
                (classifyShape noAcos trianglePoints trianglePoints))
     = 0.95%float.
Proof.
  apply (triangle_has_three_vertices noAcos trianglePoints trianglePoints);
    reflexivity.
Defined.

(** ** The call and the caller's world *)

Lemma readsOnly_ret {A : Type} (a : A) : readsOnly (mret a).
Proof. intros W. split; [done|]. by intros W' _. Qed.

Lemma readsOnly_bind {A B : Type} (m : M A) (f : A -> M B) :
  readsOnly m -> (forall a, readsOnly (f a)) -> readsOnly (m ≫= f).
Proof.
  intros Hm Hf W. unfold mbind, M_bind.
  destruct (Hm W) as [H1 H2]. split.
  - destruct (m W) as [a W1] eqn:E. simpl in H1. subst W1.
    apply (Hf a W).
  - intros W' HW'. specialize (H2 W' HW').
    destruct (Hm W') as [H1' _].
    destruct (m W) as [a W1] eqn:E, (m W') as [a' W1'] eqn:E'.
    simpl in *. subst. destruct (Hf a W) as [_ H3]. by apply H3.
Qed.

Lemma readsOnly_forM {A B : Type} (xs : list A) (acc : B)
      (body : B -> A -> M B) :
  (forall b a, readsOnly (body b a)) -> readsOnly (forM xs acc body).
Proof.
  intros Hbody. revert acc. induction xs as [|x xs IH]; intros acc; simpl.
  - apply readsOnly_ret.
  - apply readsOnly_bind; [apply Hbody | intros; apply IH].
Qed.

Lemma readsOnly_readData (i : nat) : readsOnly (readData i).
Proof. intros W. split; [done|]. intros W' H. unfold readData. simpl. by rewrite H. Qed.

Lemma readsOnly_dataLength : readsOnly dataLength.
Proof. intros W. split; [done|]. intros W' H. unfold dataLength. simpl. by rewrite H. Qed.

Lemma createBinaryImage_readsOnly (w h : Z) :
  readsOnly (createBinaryImage w h).
Proof.
  unfold createBinaryImage.
  apply readsOnly_bind; [apply readsOnly_dataLength|]. intros len.
  apply readsOnly_forM. intros binary i.
  repeat (apply readsOnly_bind; [apply readsOnly_readData|]; intros ?).
  apply readsOnly_ret.
Qed.

Section Pipeline.

Variable acos : float -> float.

(** The whole call, unfolded: two clock readings around a computation
    that reads the image. *)
Lemma detectShapes_run (W : World) :
  detectShapes acos W
  = (shapes ← processContours acos (maskOf W)
                (width (image W)) (height (image W));
     Some (mkResult shapes (now W (S (ticks W)) - now W (ticks W))%float
                    (width (image W)) (height (image W))),
     mkWorld (image W) (now W) (S (S (ticks W)))).
Proof.
  unfold detectShapes, mbind, M_bind, performance_now, dimensions, maskOf.
  simpl.
  set (W1 := mkWorld (image W) (now W) (S (ticks W))).
  destruct (createBinaryImage_readsOnly (width (image W)) (height (image W))
              W1) as [Hs Hf].
  specialize (Hf W eq_refl).
  destruct (createBinaryImage _ _ W1) as [binary W2]. simpl in *.
  subst W2. rewrite Hf. done.
Qed.

(** Each contour adds at most one shape, the one [classifyShape] builds
    for it; the loop always runs to its end. *)
Lemma processContour_fold (contours : list (list Point))
      (acc : list DetectedShape) :
  exists r,
    fold_left (processContour acos) contours (Some acc) = Some r
    /\ forall s, s ∈ r ->
                 s ∈ acc
                 \/ exists contour simplified,
                      contour ∈ contours
                      /\ classifyShape acos simplified contour = Some s.
Proof.
  revert acc. induction contours as [|c cs IH]; intros acc.
  { exists acc. split; [done|]. by left. }
  cbn [fold_left].
  assert (Hstep : exists acc',
             processContour acos (Some acc) c = Some acc'
             /\ forall s, s ∈ acc' ->
                          s ∈ acc
                          \/ exists simplified,
                               classifyShape acos simplified c = Some s).
  { unfold processContour. cbn [mbind option_bind].
    destruct (length c <? 3)%nat; [exists acc; split; [done|by left]|].
    destruct (simplifyContour_spec (S (length c)) c 2) as (r & -> & _);
      [done | lia |]. cbn [mbind option_bind].
    destruct (length r <? 3)%nat; [exists acc; split; [done|by left]|].
    destruct (classifyShape acos r c) as [s|] eqn:Hs.
    - exists (acc ++ [s]). split; [done|].
      intros s' [?| ->%list_elem_of_singleton]%elem_of_app; [by left|].
      right. by exists r.
    - exists acc. split; [done|]. by left. }
  destruct Hstep as (acc' & -> & Hacc').
  destruct (IH acc') as (r & Hr & Hin). exists r. split; [done|].
  intros s Hs. destruct (Hin s Hs) as [H|(contour & simplified & H1 & H2)].
  - destruct (Hacc' s H) as [?|[simplified ?]]; [by left|].
    right. exists c, simplified. split; [apply list_elem_of_here | done].
  - right. exists contour, simplified.
    split; [by apply list_elem_of_further | done].
Qed.

(** Every detected shape is the classification of a kept contour. *)
Lemma detected_shape_origin (W : World) (r : DetectionResult)
      (s : DetectedShape) :
  fst (detectShapes acos W) = Some r -> s ∈ shapes r ->
  imageWidth r = width (image W) /\ imageHeight r = height (image W)
  /\ exists all contour simplified,
       goodComponent (maskOf W) (width (image W)) (height (image W))
                     (all, contour)
       /\ classifyShape acos simplified contour = Some s.
Proof.
  rewrite detectShapes_run. simpl. unfold processContours.
  destruct (findContours_components (maskOf W) (width (image W))
                                    (height (image W)))
    as (comps & _ & -> & Hgood). simpl.
  destruct (processContour_fold (kept comps) []) as (sh & -> & Hin). simpl.
  intros [= <-]. simpl. intros Hs. split; [done|]. split; [done|].
  destruct (Hin s Hs) as [H|(contour & simplified & Hc & Hcl)].
  { by apply elem_of_nil in H. }
  unfold kept in Hc.
  apply list_elem_of_In, in_map_iff in Hc as ([all c] & <- & Hc).
  apply list_elem_of_In, list_elem_of_filter in Hc as [_ Hc].
  exists all, c, simplified. split; [|done].
  rewrite Forall_forall in Hgood. by apply Hgood.
Qed.

(** The call always returns a result. *)
Lemma detectShapes_total (W : World) : is_Some (fst (detectShapes acos W)).
Proof.
  rewrite detectShapes_run. simpl. unfold processContours.
  destruct (findContours_components (maskOf W) (width (image W))
                                    (height (image W)))
    as (comps & _ & -> & _). simpl.
  destruct (processContour_fold (kept comps) []) as (sh & -> & _). done.
Qed.

End Pipeline.

(** ** Properties of the detection result (C3, C7, C8, C9) *)

(** C3: for every shape in the detection result, 0 <= confidence <= 1. *)
Theorem confidence_bounds (acos : float -> float) (W : World)
        (r : DetectionResult) (s : DetectedShape) :
  fst (detectShapes acos W) = Some r -> s ∈ shapes r ->
  (0 <=? confidence s)%float = true /\ (confidence s <=? 1)%float = true.
Proof.
  intros Hr Hs.
  destruct (detected_shape_origin acos W r s Hr Hs)
    as (_ & _ & all & contour & simplified & _ & Hcl).
  by apply classifyShape_confidence in Hcl.
Qed.

(** C7: [detectShapes] is deterministic: two calls on the same pixel
    buffer, width and height both return, and their [shapes] arrays (and
    image dimensions) are identical, whatever the clock reads; only
    [processingTime] may differ. *)
Theorem detectShapes_deterministic (acos : float -> float) (W1 W2 : World) :
  image W1 = image W2 ->
  exists r1 r2,
    fst (detectShapes acos W1) = Some r1
    /\ fst (detectShapes acos W2) = Some r2
    /\ shapes r1 = shapes r2
    /\ imageWidth r1 = imageWidth r2 /\ imageHeight r1 = imageHeight r2.
Proof.
  intros Himg.
  destruct (detectShapes_total acos W1) as [r1 H1].
  destruct (detectShapes_total acos W2) as [r2 H2].
  exists r1, r2. split; [done|]. split; [done|].
  rewrite detectShapes_run in H1, H2. simpl in H1, H2.
  assert (Hmask : maskOf W1 = maskOf W2).
  { unfold maskOf. rewrite Himg.
    by apply (createBinaryImage_readsOnly (width (image W2))
                                          (height (image W2)) W2). }
  rewrite Hmask, Himg in H1.
  destruct (processContours acos (maskOf W2) _ _) as [sh|]; [|done].
  simpl in *. by simplify_eq.
Qed.

(** C8: for every detected shape the center lies within the shape's own
    bounding box, in x and in y. *)
Theorem center_in_bounding_box (acos : float -> float) (W : World)
        (r : DetectionResult) (s : DetectedShape) :
  fst (detectShapes acos W) = Some r -> s ∈ shapes r ->
  (inject_Z (bx (boundingBox s)) <= cx (center s))%Q
  /\ (cx (center s)
      <= inject_Z (bx (boundingBox s) + bwidth (boundingBox s)))%Q
  /\ (inject_Z (by_ (boundingBox s)) <= cy (center s))%Q
  /\ (cy (center s)
      <= inject_Z (by_ (boundingBox s) + bheight (boundingBox s)))%Q.
Proof.
  intros Hr Hs.
  destruct (detected_shape_origin acos W r s Hr Hs)
    as (_ & _ & all & contour & simplified & _ & Hcl).
  by apply classifyShape_center in Hcl.
Qed.

(** C9: [detectShapes] never modifies the caller's pixel buffer: after
    the call the image in the world is the one before it, and so is the
    clock; only the count of clock readings has advanced. *)
Theorem detectShapes_preserves_image (acos : float -> float) (W : World) :
  image (snd (detectShapes acos W)) = image W
  /\ now (snd (detectShapes acos W)) = now W
  /\ ticks (snd (detectShapes acos W)) = S (S (ticks W)).
Proof. by rewrite detectShapes_run. Qed.


Lemma spiral_detected (acos : float -> float) :
  fst (detectShapes acos spiralWorld) = Some spiralResult.
Proof. vm_compute. reflexivity. Qed.

Lemma confidence_bounds_witness :
  (0 <=? confidence spiralShape)%float = true
  /\ (confidence spiralShape <=? 1)%float = true.
Proof.
  apply (confidence_bounds noAcos spiralWorld spiralResult spiralShape).
  - vm_compute. reflexivity.
  - apply list_elem_of_here.
Defined.

Lemma detectShapes_deterministic_witness :
  exists r1 r2,
    fst (detectShapes noAcos spiralWorld) = Some r1
    /\ fst (detectShapes noAcos (mkWorld spiralImage (fun _ => 0%float) 7))
       = Some r2
    /\ shapes r1 = shapes r2
    /\ imageWidth r1 = imageWidth r2 /\ imageHeight r1 = imageHeight r2.
Proof.
  apply (detectShapes_deterministic noAcos spiralWorld
           (mkWorld spiralImage (fun _ => 0%float) 7)).
  reflexivity.
Defined.

Lemma center_in_bounding_box_witness :
  (inject_Z (bx (boundingBox spiralShape)) <= cx (center spiralShape))%Q
  /\ (cx (center spiralShape)
      <= inject_Z (bx (boundingBox spiralShape)
                   + bwidth (boundingBox spiralShape)))%Q
  /\ (inject_Z (by_ (boundingBox spiralShape)) <= cy (center spiralShape))%Q
  /\ (cy (center spiralShape)
      <= inject_Z (by_ (boundingBox spiralShape)
                   + bheight (boundingBox spiralShape)))%Q.
Proof.
  apply (center_in_bounding_box noAcos spiralWorld spiralResult spiralShape).
  - vm_compute. reflexivity.
  - apply list_elem_of_here.
Defined.

(** ** The area of a detected shape (C4) *)

Lemma inBounds_range (w h : Z) (p : Point) :
  inBounds w h (px p) (py p) = true ->
  0 <= px p <= w - 1 /\ 0 <= py p <= h - 1.
Proof. intros H%inBounds_index. lia. Qed.

Lemma cross_bound (w h : Z) (p q : Point) :
  inBounds w h (px p) (py p) = true -> inBounds w h (px q) (py q) = true ->
  Z.abs (px p * py q - px q * py p) <= (w - 1) * (h - 1).
Proof.
  intros [Hp1 Hp2]%inBounds_range [Hq1 Hq2]%inBounds_range.
  assert (0 <= px p * py q <= (w - 1) * (h - 1)) by nia.
  assert (0 <= px q * py p <= (w - 1) * (h - 1)) by nia.
  lia.
Qed.

(** Each of the [n] summands of the shoelace sum is a cross product of
    two points of the image. *)
Lemma shoelace_bound (w h : Z) (points : list Point) :
  (forall p, p ∈ points -> inBounds w h (px p) (py p) = true) ->
  Z.abs (shoelace points)
  <= Z.of_nat (length points) * ((w - 1) * (h - 1)).
Proof.
  intros Hin. unfold shoelace.
  set (n := length points).
  set (f := fun acc i =>
              let j := ((i + 1) mod n)%nat in
              acc + px (points !!! i) * py (points !!! j)
              - px (points !!! j) * py (points !!! i)).
  assert (G : forall (l : list nat) (acc : Z),
             Forall (fun i => (i < n)%nat) l ->
             Z.abs (fold_left f l acc)
             <= Z.abs acc + Z.of_nat (length l) * ((w - 1) * (h - 1))).
  { induction l as [|i l IH]; intros acc Hl; [simpl; lia|].
    apply Forall_cons in Hl as [Hi Hl]. cbn [fold_left length].
    specialize (IH (f acc i) Hl).
    assert (Hj : ((i + 1) mod n < n)%nat) by (apply Nat.mod_upper_bound; lia).
    pose proof (cross_bound w h (points !!! i) (points !!! ((i + 1) mod n)%nat)
                  (Hin _ (list_elem_of_lookup_total_2 points i Hi))
                  (Hin _ (list_elem_of_lookup_total_2 points _ Hj))) as Hc.
    assert (Hf : Z.abs (f acc i) <= Z.abs acc + (w - 1) * (h - 1))
      by (unfold f; lia).
    rewrite Nat2Z.inj_succ, Z.mul_succ_l. lia. }
  specialize (G (seq 0 n) 0). rewrite length_seq in G. simpl in G.
  apply G. apply Forall_forall. intros i Hi%elem_of_seq. lia.
Qed.

(** Distinct points of the image are at most as many as its pixels. *)
Lemma inBounds_count (w h : Z) (points : list Point) :
  NoDup points ->
  (forall p, p ∈ points -> inBounds w h (px p) (py p) = true) ->
  Z.of_nat (length points) <= Z.max 0 (w * h).
Proof.
  intros Hnd Hin.
  set (idx := fun p : Point => Z.to_nat (py p * w + px p)).
  assert (Hnd' : NoDup (idx <$> points)).
  { apply NoDup_fmap_2_strong; [|done]. intros p q Hp Hq Heq.
    apply Hin, inBounds_index in Hp. apply Hin, inBounds_index in Hq.
    unfold idx in Heq. apply Z2Nat.inj in Heq; [|lia|lia].
    assert (py p = py q).
    { destruct (Z.lt_trichotomy (py p) (py q)) as [Hlt|[Heq'|Hgt]]; [|done|].
      - assert (0 <= (py q - py p - 1) * w) by nia. nia.
      - assert (0 <= (py p - py q - 1) * w) by nia. nia. }
    assert (px p = px q) by nia.
    destruct p, q; simpl in *; congruence. }
  assert (Hsub : idx <$> points ⊆+ seq 0 (Z.to_nat (w * h))).
  { apply NoDup_submseteq; [done|].
    intros i (p & -> & Hp)%list_elem_of_fmap.
    apply Hin, inBounds_index in Hp. apply elem_of_seq. unfold idx. lia. }
  apply submseteq_length in Hsub.
  rewrite length_fmap, length_seq in Hsub. lia.
Qed.

(** C4, as amended: for every input and every shape in the detection
    result the area is not negative and is at most
    [W * H * (W - 1) * (H - 1) / 2]: the contour has at most [W * H]
    distinct points of the image and each summand of the shoelace sum is
    at most [(W - 1) * (H - 1)].  The bound [W * H] itself does not hold
    for contours that wind around more than once. *)
Theorem area_bounds (acos : float -> float) (W : World)
        (r : DetectionResult) (s : DetectedShape) :
  fst (detectShapes acos W) = Some r -> s ∈ shapes r ->
  (0 <= area s)%Q
  /\ (area s <= Qmake (imageWidth r * imageHeight r
                       * (imageWidth r - 1) * (imageHeight r - 1)) 2)%Q.
Proof.
  intros Hr Hs.
  destruct (detected_shape_origin acos W r s Hr Hs)
    as (-> & -> & all & contour & simplified & Hgood & Hcl).
  destruct Hgood as (_ & Hnd & Hb & Hsub & _). simpl in *.
  apply classifyShape_fields in Hcl as (b & t & c & Hbd & _ & ->). simpl.
  assert (Hin : forall p, p ∈ contour ->
                          inBounds (width (image W)) (height (image W))
                                   (px p) (py p) = true) by auto.
  pose proof (shoelace_bound _ _ contour Hin) as Hsh.
  pose proof (inBounds_count _ _ contour Hnd Hin) as Hcount.
  unfold calculateArea, Qle. simpl.
  destruct contour as [|p0 ps] eqn:Hc; [done|]. rewrite <- Hc in *.
  assert (Hp0 : p0 ∈ contour) by (rewrite Hc; apply list_elem_of_here).
  apply Hin, inBounds_index in Hp0.
  split; [lia|].
  set (w := width (image W)) in *. set (h := height (image W)) in *.
  assert (HM : 0 <= (w - 1) * (h - 1)) by nia.
  assert (Hn : Z.of_nat (length contour) <= w * h) by nia.
  pose proof (Z.mul_le_mono_nonneg_r _ _ _ HM Hn) as Hmul.
  replace (w * h * (w - 1) * (h - 1)) with (w * h * ((w - 1) * (h - 1)))
    by ring.
  lia.
Qed.

Lemma area_bounds_witness :
  (0 <= area spiralShape)%Q
  /\ (area spiralShape
      <= Qmake (imageWidth spiralResult * imageHeight spiralResult
                * (imageWidth spiralResult - 1)
                * (imageHeight spiralResult - 1)) 2)%Q.
Proof.
  apply (area_bounds noAcos spiralWorld spiralResult spiralShape).
  - vm_compute. reflexivity.
  - apply list_elem_of_here.
Defined.

(** C4 fails as stated: whatever [Math.acos] computes, the well-formed
    13 x 13 spiral image yields a shape of area 174, above 13 * 13 = 169
    (the contour runs around the image one and a half times). *)
Lemma area_exceeds_image_size :
  ~ exists acos : float -> float,
      forall (W : World) (r : DetectionResult) (s : DetectedShape),
        wellFormed (image W) ->
        fst (detectShapes acos W) = Some r -> s ∈ shapes r ->
        (0 <= area s)%Q
        /\ (area s <= inject_Z (imageWidth r * imageHeight r))%Q.
Proof.
  intros [acos H].
  destruct (H spiralWorld spiralResult spiralShape) as [_ Hle].
  - vm_compute. reflexivity.
  - apply spiral_detected.
  - apply list_elem_of_here.
  - vm_compute in Hle. by apply Hle.
Qed.

(** ** No division by zero in [calculateAngles] *)

Lemma consecutiveDistinct_next (points : list Point) (i : nat) :
  consecutiveDistinct points -> (i < length points)%nat ->
  points !!! i <> points !!! ((i + 1) mod length points)%nat.
Proof.
  unfold consecutiveDistinct. rewrite forallb_forall. intros H Hi.
  specialize (H i). rewrite in_seq in H. specialize (H ltac:(lia)).
  apply negb_true_iff, bool_decide_eq_false in H. done.
Qed.

Lemma pred_succ_mod (i n : nat) :
  (i < n)%nat -> (((i + n - 1) mod n + 1) mod n = i)%nat.
Proof.
  intros Hi. destruct i as [|i].
  - rewrite (Nat.mod_small (0 + n - 1) n) by lia.
    replace (0 + n - 1 + 1)%nat with n by lia. apply Nat.Div0.mod_same.
  - replace (S i + n - 1)%nat with (i + 1 * n)%nat by lia.
    rewrite Nat.Div0.mod_add, (Nat.mod_small i) by lia.
    rewrite Nat.mod_small; lia.
Qed.

Lemma consecutiveDistinct_prev (points : list Point) (i : nat) :
  consecutiveDistinct points -> (i < length points)%nat ->
  points !!! ((i + length points - 1) mod length points)%nat <> points !!! i.
Proof.
  intros H Hi.
  assert (Hj : ((i + length points - 1) mod length points < length points)%nat)
    by (apply Nat.mod_upper_bound; lia).
  pose proof (consecutiveDistinct_next points _ H Hj) as Hn.
  by rewrite pred_succ_mod in Hn.
Qed.

Lemma point_difference (p q : Point) :
  p <> q -> px p - px q <> 0 \/ py p - py q <> 0.
Proof.
  intros Hne. destruct (decide (px p = px q)) as [Hx|Hx]; [|left; lia].
  destruct (decide (py p = py q)) as [Hy|Hy]; [|right; lia].
  destruct p, q; simpl in *; congruence.
Qed.

Lemma divisorAt_position (points : list Point) (i : nat) :
  Forall pixelRange points -> consecutiveDistinct points ->
  (i < length points)%nat ->
  posAbove 1 (Prim2SF (divisorAt points i)).
Proof.
  intros Hr Hd Hi. unfold divisorAt, edgeVectors.
  rewrite FloatAxioms.mul_spec.
  set (n := length points) in *.
  assert (Hj : ((i + n - 1) mod n < n)%nat) by (apply Nat.mod_upper_bound; lia).
  assert (Hk : ((i + 1) mod n < n)%nat) by (apply Nat.mod_upper_bound; lia).
  rewrite Forall_forall in Hr.
  pose proof (pixelRange_bound _ (Hr _ (list_elem_of_lookup_total_2 points i Hi)))
    as [Hc1 Hc2].
  pose proof (pixelRange_bound _ (Hr _ (list_elem_of_lookup_total_2 points _ Hj)))
    as [Hp1 Hp2].
  pose proof (pixelRange_bound _ (Hr _ (list_elem_of_lookup_total_2 points _ Hk)))
    as [Hn1 Hn2].
  change (2 ^ 25) with 33554432 in *.
  apply SFmul_position; apply mag_position;
    try (change (2 ^ 26) with 67108864; lia).
  - apply point_difference. by apply consecutiveDistinct_prev.
  - apply point_difference. intros Heq.
    by apply (consecutiveDistinct_next points i Hd Hi).
Qed.

Lemma cosAngleAt_number (points : list Point) (i : nat) :
  Forall pixelRange points -> consecutiveDistinct points ->
  (i < length points)%nat ->
  numF (cosAngleAt points i).
Proof.
  intros Hr Hd Hi. unfold cosAngleAt, numF.
  pose proof (divisorAt_position points i Hr Hd Hi) as Hdiv.
  destruct (edgeVectors points i) as [[[v1x v1y] v2x] v2y].
  rewrite FloatAxioms.div_spec.
  apply SFdiv_number; [apply Z2F_finite | done].
Qed.

(** ** [pointToLineDistance] always yields a number *)

(** The final step of [pointToLineDistance], from the foot [(xx, yy)]. *)
Lemma distance_nonneg (x y : Z) (xx yy : float) :
  numF xx -> numF yy ->
  nonnegF (PrimFloat.sqrt ((JS.Z2F x - xx) * (JS.Z2F x - xx)
                           + (JS.Z2F y - yy) * (JS.Z2F y - yy))).
Proof.
  intros Hx Hy. unfold nonnegF.
  rewrite FloatAxioms.sqrt_spec. apply SFsqrt_nonneg.
  apply (add_nonneg ((JS.Z2F x - xx) * (JS.Z2F x - xx))
                    ((JS.Z2F y - yy) * (JS.Z2F y - yy)));
    unfold nonnegF; rewrite FloatAxioms.mul_spec; apply SFmul_self_nonneg;
    rewrite FloatAxioms.sub_spec; apply SFsub_number;
    auto using Z2F_finite.
Qed.

Lemma Z2F_number (z : Z) : numF (JS.Z2F z).
Proof.
  unfold numF. pose proof (Z2F_finite z). by destruct (Prim2SF _).
Qed.

(** A number that is neither below 0 nor above 1 is finite. *)
Lemma between_finite (p : float) :
  numF p -> (p <? 0)%float = false -> (1 <? p)%float = false ->
  finite_spec (Prim2SF p).
Proof.
  unfold numF. rewrite !FloatAxioms.ltb_spec. unfold SFltb.
  change (Prim2SF 0) with (S754_zero false).
  change (Prim2SF 1) with (S754_finite false 4503599627370496 (-52)).
  by destruct (Prim2SF p) as [[]|[]| |[] m e].
Qed.

Lemma pointToLineDistance_nonneg (point lineStart lineEnd : Point) :
  pixelRange lineStart -> pixelRange lineEnd ->
  nonnegF (pointToLineDistance point lineStart lineEnd).
Proof.
  intros [Hs1 Hs2]%pixelRange_bound [He1 He2]%pixelRange_bound.
  change (2 ^ 25) with 33554432 in *.
  unfold pointToLineDistance.
  set (C := px lineEnd - px lineStart). set (D := py lineEnd - py lineStart).
  set (dot := (px point - px lineStart) * C + (py point - py lineStart) * D).
  set (lenSq := C * C + D * D).
  set (param := if negb (lenSq =? 0)
                then (JS.Z2F dot / JS.Z2F lenSq)%float else (-1)%float).
  assert (Hparam : numF param).
  { unfold param. destruct (Z.eqb_spec lenSq 0) as [H0|H0]; simpl;
      [by vm_compute|].
    unfold numF. rewrite FloatAxioms.div_spec.
    destruct (Z2F_position lenSq) as (m & e & -> & Hp).
    { change (2 ^ 63) with 9223372036854775808.
      assert (-67108864 < C < 67108864) by (unfold C; lia).
      assert (-67108864 < D < 67108864) by (unfold D; lia).
      assert (0 <= C * C < 4503599627370496) by nia.
      assert (0 <= D * D < 4503599627370496) by nia.
      unfold lenSq in *. lia. }
    apply SFdiv_number; [apply Z2F_finite | done]. }
  destruct (param <? 0)%float eqn:Hlt; cbv beta iota zeta.
  { apply distance_nonneg; apply Z2F_number. }
  destruct (1 <? param)%float eqn:Hgt; cbv beta iota zeta.
  { apply distance_nonneg; apply Z2F_number. }
  pose proof (between_finite param Hparam Hlt Hgt) as Hfin.
  apply distance_nonneg; unfold numF;
    rewrite FloatAxioms.add_spec; apply SFadd_number;
    try apply Z2F_finite;
    rewrite FloatAxioms.mul_spec; apply SFmul_finite_number;
    auto using Z2F_finite.
Qed.

(** With [lineStart = lineEnd] the division is skipped and the result is
    the distance to that point. *)
Lemma pointToLineDistance_degenerate (point lineStart : Point) :
  pointToLineDistance point lineStart lineStart
  = PrimFloat.sqrt
      ((JS.Z2F (px point) - JS.Z2F (px lineStart))
       * (JS.Z2F (px point) - JS.Z2F (px lineStart))
       + (JS.Z2F (py point) - JS.Z2F (py lineStart))
         * (JS.Z2F (py point) - JS.Z2F (py lineStart)))%float.
Proof.
  unfold pointToLineDistance. rewrite !Z.sub_diag, !Z.mul_0_r. reflexivity.
Qed.

(** ** Angles and distances are well defined (C10) *)

(** C10: for every polygon (of pixel coordinates) whose consecutive
    vertices are pairwise distinct, [calculateAngles] never divides by
    zero (the divisor [mag1 * mag2] is a non-zero number at every vertex)
    and never passes an argument outside [[-1, 1]] to [Math.acos] (the
    cosine is a number and its clamp lies in [[-1, 1]]), so every computed
    angle is a number as soon as [Math.acos] is finite on [[-1, 1]]; and
    on pixel coordinates [pointToLineDistance] always yields a
    non-negative number, also when [lineStart] equals [lineEnd], where the
    zero check skips the division and the result is the distance to that
    point. *)
Theorem angles_and_distances_well_defined (acos : float -> float)
        (points : list Point) :
  (Forall pixelRange points -> consecutiveDistinct points ->
   (forall i, (i < length points)%nat ->
              (divisorAt points i =? 0)%float = false
              /\ PrimFloat.is_nan (cosAngleAt points i) = false
              /\ (-1 <=? clampCos (cosAngleAt points i))%float = true
              /\ (clampCos (cosAngleAt points i) <=? 1)%float = true)
   /\ calculateAngles acos points
      = map (fun i => (acos (clampCos (cosAngleAt points i))
                       * (180 / JS.PI))%float)
            (seq 0 (length points))
   /\ ((forall x, (-1 <=? x)%float = true -> (x <=? 1)%float = true ->
                  finite_spec (Prim2SF (acos x))) ->
       Forall numF (calculateAngles acos points)))
  /\ (forall point lineStart lineEnd,
        pixelRange point -> pixelRange lineStart -> pixelRange lineEnd ->
        nonnegF (pointToLineDistance point lineStart lineEnd))
  /\ (forall point lineStart,
        pointToLineDistance point lineStart lineStart
        = PrimFloat.sqrt
            ((JS.Z2F (px point) - JS.Z2F (px lineStart))
             * (JS.Z2F (px point) - JS.Z2F (px lineStart))
             + (JS.Z2F (py point) - JS.Z2F (py lineStart))
               * (JS.Z2F (py point) - JS.Z2F (py lineStart)))%float).
Proof.
  split; [|split].
  - intros Hr Hd.
    assert (Hsafe : forall i, (i < length points)%nat ->
              (divisorAt points i =? 0)%float = false
              /\ PrimFloat.is_nan (cosAngleAt points i) = false
              /\ (-1 <=? clampCos (cosAngleAt points i))%float = true
              /\ (clampCos (cosAngleAt points i) <=? 1)%float = true).
    { intros i Hi.
      pose proof (cosAngleAt_number points i Hr Hd Hi) as Hc.
      split; [apply posAbove_nonzero; by apply divisorAt_position|].
      split; [by apply numF_not_nan|]. by apply clampCos_range. }
    split; [done|]. split; [done|].
    intros Hacos. unfold calculateAngles. apply Forall_forall.
    intros a Ha. apply list_elem_of_In, in_map_iff in Ha as (i & <- & Hi).
    apply in_seq in Hi. destruct (Hsafe i ltac:(lia)) as (_ & _ & Hlo & Hhi).
    unfold angleAt, numF. rewrite FloatAxioms.mul_spec.
    apply SFmul_finite_number; [by apply Hacos | by vm_compute].
  - intros point lineStart lineEnd _. apply pointToLineDistance_nonneg.
  - apply pointToLineDistance_degenerate.
Qed.

Lemma angles_and_distances_well_defined_witness :
  (forall i, (i < 3)%nat ->
             (divisorAt trianglePoints i =? 0)%float = false
             /\ PrimFloat.is_nan (cosAngleAt trianglePoints i) = false
             /\ (-1 <=? clampCos (cosAngleAt trianglePoints i))%float = true
             /\ (clampCos (cosAngleAt trianglePoints i) <=? 1)%float = true)
  /\ Forall numF (calculateAngles (fun _ => 1%float) trianglePoints)
  /\ nonnegF (pointToLineDistance (mkPoint 3 4) (mkPoint 0 0) (mkPoint 0 0)).
Proof.
  destruct (angles_and_distances_well_defined (fun _ => 1%float)
              trianglePoints) as (Hangles & Hdist & _).
  destruct Hangles as (H1 & _ & H3).
  - repeat constructor.
  - reflexivity.
  - split; [exact H1|]. split.
    + apply H3. intros x _ _. by vm_compute.
    + apply Hdist; reflexivity.
Defined.

(** * Further properties of the code *)

(** ** The binarisation threshold *)

(** For a sum of three byte samples the rounded mean is below 128
    exactly when the sum is below 384. *)
Lemma gray_threshold (s : Z) :
  0 <= s <= 765 -> (JS.Z2F s / 3 <? 128)%float = (s <? 384).
Proof.
  intros Hs.
  assert (H : forallb (fun n => Bool.eqb (JS.Z2F (Z.of_nat n) / 3 <? 128)%float
                                         (Z.of_nat n <? 384))
                      (seq 0 766) = true) by (vm_compute; reflexivity).
  rewrite forallb_forall in H. specialize (H (Z.to_nat s)).
  rewrite Z2Nat.id in H by lia. apply eqb_prop, H, in_seq. lia.
Qed.

(** A loop of state-preserving bodies is a fold. *)
Lemma forM_readsOnly {A B : Type} (xs : list A) (acc : B)
      (body : B -> A -> M B) (W : World) :
  (forall b a, snd (body b a W) = W) ->
  forM xs acc body W = (fold_left (fun b a => fst (body b a W)) xs acc, W).
Proof.
  intros Hbody. revert acc. induction xs as [|x xs IH]; intros acc; [done|].
  cbn [forM fold_left]. unfold mbind, M_bind.
  specialize (Hbody acc x). destruct (body acc x W) as [b W'] eqn:E.
  simpl in Hbody. subst W'. apply IH.
Qed.

(** Writing the cells [0 .. n-1] in turn. *)
Lemma fill_prefix (f : nat -> bool) (n : nat) (init : list bool) :
  (n <= length init)%nat ->
  let l := fold_left (fun b k => JS.setb b k (f k)) (seq 0 n) init in
  length l = length init
  /\ (forall k, (k < n)%nat -> l !! k = Some (f k))
  /\ (forall k, (n <= k)%nat -> l !! k = init !! k).
Proof.
  induction n as [|n IH]; intros Hn; cbv zeta.
  { simpl. split; [done|]. split; [lia | done]. }
  rewrite seq_S, fold_left_app. cbn [fold_left Nat.add].
  destruct (IH ltac:(lia)) as (Hl & Hin & Hout).
  set (l := fold_left _ (seq 0 n) init) in *.
  unfold JS.setb. destruct (Nat.ltb_spec n (length l)); [|lia].
  split; [by rewrite length_insert|]. split.
  - intros k Hk. destruct (decide (k = n)) as [->|Hne].
    + by rewrite list_lookup_insert_eq.
    + rewrite list_lookup_insert_ne by done. apply Hin. lia.
  - intros k Hk. rewrite list_lookup_insert_ne by lia. apply Hout. lia.
Qed.

Lemma fold_left_map_ext {A B C : Type} (f : A -> C -> A) (g : A -> B -> A)
      (m : B -> C) :
  (forall a b, f a (m b) = g a b) ->
  forall l a, fold_left f (map m l) a = fold_left g l a.
Proof.
  intros Hfg l. induction l as [|x l IH]; intros a; [done|].
  cbn [map fold_left]. by rewrite Hfg, IH.
Qed.

Lemma createBinaryImage_fold (w h : Z) (W : World) :
  fst (createBinaryImage w h W)
  = fold_left (fun b k =>
                 JS.setb b k
                   (grayOf (data (image W) !! (4 * k)%nat)
                           (data (image W) !! (4 * k + 1)%nat)
                           (data (image W) !! (4 * k + 2)%nat) <? 128)%float)
              (seq 0 ((length (data (image W)) + 3) / 4))
              (replicate (Z.to_nat (w * h)) false).
Proof.
  unfold createBinaryImage, mbind, M_bind, dataLength. cbn [fst snd].
  rewrite forM_readsOnly by done. cbn [fst].
  unfold pixelStarts. apply fold_left_map_ext. intros l j.
  unfold readData, mret, M_ret. cbn [fst snd].
  replace (4 * j / 4)%nat with j; [done|].
  symmetry. rewrite Nat.mul_comm. apply Nat.div_mul. lia.
Qed.

Lemma wellFormed_elim (img : ImageData) :
  wellFormed img ->
  0 < width img /\ 0 < height img
  /\ Z.of_nat (length (data img)) = 4 * width img * height img
  /\ forall i b, data img !! i = Some b -> 0 <= b <= 255.
Proof.
  unfold wellFormed. intros H.
  apply andb_true_iff in H as [H H4]. apply andb_true_iff in H as [H H3].
  apply andb_true_iff in H as [H1 H2].
  split; [lia|]. split; [lia|]. split; [lia|].
  intros i b Hb. rewrite forallb_forall in H4.
  apply list_elem_of_lookup_2, list_elem_of_In, H4 in Hb. lia.
Qed.

Lemma createBinaryImage_mask (W : World) :
  wellFormed (image W) ->
  length (maskOf W) = Z.to_nat (width (image W) * height (image W))
  /\ forall k : nat,
       (k < Z.to_nat (width (image W) * height (image W)))%nat ->
       JS.getb (maskOf W) (Z.of_nat k)
       = (colourSum (data (image W)) k <? 384).
Proof.
  intros (Hw & Hh & Hlen & Hbytes)%wellFormed_elim.
  unfold maskOf. rewrite createBinaryImage_fold.
  set (N := Z.to_nat (width (image W) * height (image W))).
  assert (HN : length (data (image W)) = (N * 4)%nat) by (unfold N; nia).
  replace ((length (data (image W)) + 3) / 4)%nat with N.
  2:{ rewrite HN. replace (N * 4 + 3)%nat with (3 + N * 4)%nat by lia.
      rewrite Nat.div_add by lia. simpl. lia. }
  destruct (fill_prefix
              (fun k => (grayOf (data (image W) !! (4 * k)%nat)
                                (data (image W) !! (4 * k + 1)%nat)
                                (data (image W) !! (4 * k + 2)%nat) <? 128)%float)
              N (replicate N false)) as (Hl & Hin & _);
    [by rewrite length_replicate|].
  split; [by rewrite Hl, length_replicate|].
  intros k Hk.
  unfold JS.getb. destruct (Z.ltb_spec (Z.of_nat k) 0); [lia|].
  rewrite Nat2Z.id, (Hin k Hk). unfold colourSum.
  destruct (lookup_lt_is_Some_2 (data (image W)) (4 * k)) as [r Hr]; [lia|].
  destruct (lookup_lt_is_Some_2 (data (image W)) (4 * k + 1)) as [g Hg];
    [lia|].
  destruct (lookup_lt_is_Some_2 (data (image W)) (4 * k + 2)) as [b Hb];
    [lia|].
  rewrite Hr, Hg, Hb. simpl.
  apply gray_threshold.
  pose proof (Hbytes _ _ Hr). pose proof (Hbytes _ _ Hg).
  pose proof (Hbytes _ _ Hb). lia.
Qed.

(** X1: On a well-formed image the mask has one cell per pixel, and a
    pixel is dark exactly when the sum of its red, green and blue samples
    is below 384, that is, when their mean is below 128; the alpha sample
    is not consulted. *)
Theorem createBinaryImage_threshold (W : World) :
  wellFormed (image W) ->
  length (maskOf W) = Z.to_nat (width (image W) * height (image W))
  /\ forall k : nat,
       (k < Z.to_nat (width (image W) * height (image W)))%nat ->
       JS.getb (maskOf W) (Z.of_nat k)
       = (colourSum (data (image W)) k <? 384).
Proof. apply createBinaryImage_mask. Qed.

Lemma createBinaryImage_threshold_witness :
  length (maskOf spiralWorld) = 169%nat
  /\ forall k : nat,
       (k < 169)%nat ->
       JS.getb (maskOf spiralWorld) (Z.of_nat k)
       = (colourSum (data spiralImage) k <? 384).
Proof.
  apply (createBinaryImage_threshold spiralWorld). vm_compute. reflexivity.
Defined.

(** ** The fill loop stays inside the seed's region *)

Lemma adjacent_sym (p q : Point) : adjacent p q -> adjacent q p.
Proof. unfold adjacent. lia. Qed.

Lemma adjacent_offsets (p q : Point) :
  adjacent p q
  <-> exists d, d ∈ offsets /\ q = mkPoint (px p + fst d) (py p + snd d).
Proof.
  unfold adjacent. destruct p as [x y], q as [x' y']. cbn [px py]. split.
  - intros H.
    assert (Hx : x' = x + -1 \/ x' = x + 0 \/ x' = x + 1) by lia.
    assert (Hy : y' = y + -1 \/ y' = y + 0 \/ y' = y + 1) by lia.
    assert (Hne : ~ (x' = x + 0 /\ y' = y + 0)) by lia.
    unfold offsets.
    destruct Hx as [->| [->| ->]], Hy as [->| [->| ->]];
      try (exfalso; apply Hne; by split);
      eexists (_, _); (split; [|cbn [fst snd]; reflexivity]);
      rewrite !elem_of_cons; tauto.
  - intros ([dx dy] & Hd & [= -> ->]). unfold offsets in Hd.
    rewrite !elem_of_cons, elem_of_nil in Hd. cbn [fst snd].
    repeat (destruct Hd as [[= -> ->] | Hd]; [lia|]). done.
Qed.

Lemma pushNeighbours_elem (p q : Point) (st : list Point) :
  q ∈ pushNeighbours (px p) (py p) st <-> adjacent p q \/ q ∈ st.
Proof.
  rewrite adjacent_offsets. unfold pushNeighbours, offsets.
  cbn [fold_left]. rewrite !elem_of_cons. split.
  - intros H.
    repeat (destruct H as [-> | H];
            [left; eexists (_, _); split; [|cbn [fst snd]; reflexivity];
             rewrite !elem_of_cons; tauto|]).
    by right.
  - intros [([dx dy] & Hd & ->) | H]; [|tauto].
    rewrite !elem_of_cons, elem_of_nil in Hd. cbn [fst snd].
    repeat (destruct Hd as [[= -> ->] | Hd]; [tauto|]). done.
Qed.

Lemma index_inj (w h : Z) (p q : Point) :
  inBounds w h (px p) (py p) = true -> inBounds w h (px q) (py q) = true ->
  py p * w + px p = py q * w + px q -> p = q.
Proof.
  intros Hp%inBounds_index Hq%inBounds_index He.
  destruct p as [x y], q as [x' y']. cbn [px py] in *.
  assert (y = y').
  { destruct (Z.lt_trichotomy y y') as [H | [H | H]]; [|done|].
    - assert (y * w + w <= y' * w) by nia. lia.
    - assert (y' * w + w <= y * w) by nia. lia. }
  subst y'. f_equal. lia.
Qed.

Lemma getb_setb_iff (l : list bool) (i : nat) (j : Z) :
  (i < length l)%nat ->
  JS.getb (JS.setb l i true) j = true
  <-> j = Z.of_nat i \/ JS.getb l j = true.
Proof.
  intros Hi. unfold JS.getb, JS.setb.
  destruct (Z.ltb_spec j 0); [split; [done | intros [?|?]; [lia|done]]|].
  destruct (Nat.ltb_spec i (length l)); [|lia].
  destruct (decide (i = Z.to_nat j)) as [->|Hne].
  - rewrite list_lookup_insert_eq by done. split; [left; lia | done].
  - rewrite list_lookup_insert_ne by done. split; [by right|].
    intros [?|?]; [lia | done].
Qed.

Lemma darkAt_inBounds (binary : list bool) (w h : Z) (p : Point) :
  darkAt binary w h p = true ->
  inBounds w h (px p) (py p) = true
  /\ JS.getb binary (py p * w + px p) = true.
Proof. unfold darkAt. by intros ?%andb_true_iff. Qed.

Lemma connected_dark (binary : list bool) (w h : Z) (seed p : Point) :
  connected binary w h seed p -> darkAt binary w h p = true.
Proof. by intros [|]. Qed.

Section Regions.

Variables (binary : list bool) (w h : Z).

Lemma fillStep_reach (vis0 : list bool) (seed : Point) (s s' : Fill) :
  FillReach binary w h vis0 seed s -> fillStep binary w h s = Some s' ->
  FillReach binary w h vis0 seed s'.
Proof.
  intros [Hlen Hdark Hvis Hconn Hstack Hclosed Hseed Hhead]. unfold fillStep.
  destruct (stack s) as [|p rest] eqn:Hst; [done|].
  destruct (negb (inBounds w h (px p) (py p))
            || JS.getb (visited s) (py p * w + px p)
            || negb (JS.getb binary (py p * w + px p))) eqn:Hc;
    intros [= <-].
  - assert (Hp : darkAt binary w h p = false
                 \/ JS.getb (visited s) (py p * w + px p) = true).
    { unfold darkAt.
      destruct (inBounds w h (px p) (py p)); [|by left].
      destruct (JS.getb (visited s) (py p * w + px p)); [by right|].
      destruct (JS.getb binary (py p * w + px p)); [done | by left]. }
    constructor; cbn [visited stack allPoints boundaryPoints]; try done.
    + intros q Hq. apply Hstack. by apply list_elem_of_further.
    + intros p0 q Hp0 Hadj.
      destruct (Hclosed p0 q Hp0 Hadj) as [[->|Hq]%elem_of_cons | H];
        [tauto | by left | by right].
    + destruct Hseed as [[->|Hq]%elem_of_cons | H];
        [tauto | by left | by right].
  - apply orb_false_iff in Hc as [Hc Hbin].
    apply orb_false_iff in Hc as [Hin Hv].
    apply negb_false_iff in Hin, Hbin.
    destruct (inBounds_index _ _ _ _ Hin) as (_ & _ & Hidx).
    assert (Hlt : (Z.to_nat (py p * w + px p) < length (visited s))%nat)
      by (rewrite Hlen; lia).
    assert (Hset : forall j,
               JS.getb (JS.setb (visited s) (Z.to_nat (py p * w + px p)) true)
                       j = true
               <-> j = py p * w + px p \/ JS.getb (visited s) j = true).
    { intros j. rewrite getb_setb_iff by done. by rewrite Z2Nat.id by lia. }
    assert (Hpd : darkAt binary w h p = true)
      by (unfold darkAt; by rewrite Hin, Hbin).
    constructor; cbn [visited stack allPoints boundaryPoints].
    + by rewrite setb_length_in.
    + intros q [Hq | ->%list_elem_of_singleton]%elem_of_app; [auto|].
      split; [done|].
      destruct (JS.getb vis0 (py p * w + px p)) eqn:E; [|done].
      assert (JS.getb (visited s) (py p * w + px p) = true)
        by (apply Hvis; by left).
      congruence.
    + intros i. rewrite Hset, Hvis. split.
      * intros [-> | [H | (q & Hq & Hi)]].
        -- right. exists p. split; [|done].
           apply elem_of_app. right. apply list_elem_of_here.
        -- by left.
        -- right. exists q. split; [|done]. apply elem_of_app. by left.
      * intros [H | (q & [Hq | ->%list_elem_of_singleton]%elem_of_app & Hi)].
        -- right. by left.
        -- right. right. by exists q.
        -- by left.
    + intros q [Hq | ->%list_elem_of_singleton]%elem_of_app; [auto|].
      destruct (Hstack p (list_elem_of_here _ _)) as [-> | (p0 & Hp0 & Hadj)].
      * by apply connected_seed.
      * apply (connected_step _ _ _ _ p0); auto.
    + intros q [Hadj | Hq]%pushNeighbours_elem.
      * right. exists p. split; [|done].
        apply elem_of_app. right. apply list_elem_of_here.
      * destruct (Hstack q (list_elem_of_further _ _ _ Hq)) as [-> | (p0 & Hp0 & Hadj)].
        -- by left.
        -- right. exists p0. split; [|done]. apply elem_of_app. by left.
    + intros p0 q [Hp0 | ->%list_elem_of_singleton]%elem_of_app Hadj.
      * destruct (Hclosed p0 q Hp0 Hadj) as [Hq | [H | H]].
        -- apply elem_of_cons in Hq as [-> | Hq].
           ++ right. right. apply Hset. by left.
           ++ left. apply pushNeighbours_elem. by right.
        -- right. by left.
        -- right. right. apply Hset. by right.
      * left. apply pushNeighbours_elem. by left.
    + destruct Hseed as [Hq | [H | H]].
      * apply elem_of_cons in Hq as [-> | Hq].
        -- right. right. apply Hset. by left.
        -- left. apply pushNeighbours_elem. by right.
      * right. by left.
      * right. right. apply Hset. by right.
    + intros p0. destruct (allPoints s) as [|a l] eqn:Hall.
      * cbn [app head]. intros [= <-].
        destruct (Hstack p (list_elem_of_here _ _))
          as [-> | (q & Hq%elem_of_nil & _)]; done.
      * cbn [app head]. apply Hhead.
Qed.

Lemma fillLoop_reach (vis0 : list bool) (seed : Point) (fuel : nat)
      (s s' : Fill) :
  FillReach binary w h vis0 seed s ->
  fillLoop fuel binary w h s = Some s' ->
  FillReach binary w h vis0 seed s' /\ stack s' = [].
Proof.
  revert s. induction fuel as [|fuel IH]; intros s Hinv; [done|].
  cbn [fillLoop]. destruct (fillStep binary w h s) as [s1|] eqn:Hstep.
  - apply IH. by apply (fillStep_reach vis0 seed s).
  - intros [= <-]. split; [done|].
    unfold fillStep in Hstep. destruct (stack s); [done|].
    by destruct (_ || _).
Qed.

Lemma fill_reach_start (vis : list bool) (seed : Point) :
  length vis = Z.to_nat (w * h) ->
  FillReach binary w h vis seed (mkFill vis [seed] [] []).
Proof.
  intros Hlen.
  constructor; cbn [visited stack allPoints boundaryPoints]; try done.
  - intros p Hp. by apply elem_of_nil in Hp.
  - intros i. split; [by left|]. intros [H | (p & Hp & _)]; [done|].
    by apply elem_of_nil in Hp.
  - intros p Hp. by apply elem_of_nil in Hp.
  - intros q ->%list_elem_of_singleton. by left.
  - intros p q Hp. by apply elem_of_nil in Hp.
  - left. apply list_elem_of_here.
Qed.

Lemma floodRegion_reach (vis : list bool) (x y : Z) (s : Fill)
      (contour : list Point) :
  length vis = Z.to_nat (w * h) ->
  floodRegion binary vis x y w h = Some (s, contour) ->
  FillReach binary w h vis (mkPoint x y) s /\ stack s = [].
Proof.
  intros Hlen. unfold floodRegion.
  destruct (fillLoop _ _ _ _ _) as [s1|] eqn:Hloop; [|done].
  cbn [mbind option_bind].
  destruct (if (0 <? length (boundaryPoints s1))%nat then _ else _);
    [|done].
  cbn [mbind option_bind]. intros [= <- _].
  apply (fillLoop_reach vis (mkPoint x y) _ _ _
           (fill_reach_start vis (mkPoint x y) Hlen) Hloop).
Qed.

End Regions.

(** ** The raster scan extracts the regions one by one *)

Lemma pixelsOf_elem (comps : list (list Point * list Point)) (p : Point) :
  p ∈ pixelsOf comps <-> exists c, c ∈ comps /\ p ∈ fst c.
Proof.
  unfold pixelsOf. induction comps as [|c comps IH]; cbn [map concat].
  - split; [by intros ?%elem_of_nil|]. by intros (c & ?%elem_of_nil & _).
  - rewrite elem_of_app, IH. split.
    + intros [H | (c' & Hc' & H)].
      * exists c. split; [apply list_elem_of_here | done].
      * exists c'. split; [by apply list_elem_of_further | done].
    + intros (c' & [-> | Hc']%elem_of_cons & H); [by left|].
      right. by exists c'.
Qed.

Lemma pixelsOf_app (comps : list (list Point * list Point))
      (c : list Point * list Point) :
  pixelsOf (comps ++ [c]) = pixelsOf comps ++ fst c.
Proof.
  unfold pixelsOf. rewrite map_app, concat_app. cbn [map concat].
  by rewrite app_nil_r.
Qed.

Lemma range_elem (n x : Z) : x ∈ JS.range n <-> 0 <= x < n.
Proof.
  unfold JS.range. rewrite list_elem_of_In, in_map_iff. split.
  - intros (k & <- & Hk%in_seq). lia.
  - intros Hx. exists (Z.to_nat x). split; [lia|]. apply in_seq. lia.
Qed.

Lemma raster_elem (w h x y : Z) :
  (x, y) ∈ raster w h <-> inBounds w h x y = true.
Proof.
  unfold raster. rewrite list_elem_of_bind. split.
  - intros (y' & (x' & [= -> ->]%list_elem_of_singleton & Hx)%list_elem_of_bind
            & Hy).
    apply range_elem in Hx, Hy. unfold inBounds.
    apply negb_true_iff. repeat (apply orb_false_iff; split); lia.
  - intros (Hx & Hy & _)%inBounds_index. exists y.
    split; [|by apply range_elem]. apply list_elem_of_bind. exists x.
    split; [apply list_elem_of_here | by apply range_elem].
Qed.

Section Scan.

Variables (binary : list bool) (w h : Z).

Lemma scan_closed (vis : list bool)
      (comps : list (list Point * list Point)) (p q : Point) :
  ScanInv binary w h vis comps ->
  inBounds w h (px p) (py p) = true ->
  JS.getb vis (py p * w + px p) = true ->
  adjacent p q -> darkAt binary w h q = true ->
  JS.getb vis (py q * w + px q) = true.
Proof.
  intros [Hlen Hvis Hreg Hnd] Hp Hv Hadj Hq.
  apply Hvis in Hv as (p' & (c & Hc & Hpc)%pixelsOf_elem & Hi).
  destruct (Hreg c Hc) as (seed & _ & Hs).
  assert (Hcp' : connected binary w h seed p') by by apply Hs.
  assert (p' = p) as ->.
  { apply (index_inj w h); [|done|done].
    by apply connected_dark, darkAt_inBounds in Hcp' as [? _]. }
  apply Hvis. exists q. split; [|done]. apply pixelsOf_elem. exists c.
  split; [done|]. apply Hs. by apply (connected_step _ _ _ _ p).
Qed.

Lemma scanComponent_inv (vis : list bool)
      (comps : list (list Point * list Point)) (x y : Z) (vis' : list bool)
      (comps' : list (list Point * list Point)) :
  ScanInv binary w h vis comps -> inBounds w h x y = true ->
  scanComponent binary w h (Some (vis, comps)) (x, y) = Some (vis', comps') ->
  ScanInv binary w h vis' comps'
  /\ (forall i, JS.getb vis i = true -> JS.getb vis' i = true)
  /\ (JS.getb binary (y * w + x) = true -> JS.getb vis' (y * w + x) = true).
Proof.
  intros Hinv Hin. unfold scanComponent. cbn [mbind option_bind].
  destruct (JS.getb binary (y * w + x) && negb (JS.getb vis (y * w + x)))
    eqn:Hseed.
  2:{ intros [= <- <-]. split; [done|]. split; [done|]. intros Hb.
      rewrite Hb in Hseed. by apply negb_false_iff in Hseed. }
  apply andb_true_iff in Hseed as [Hb Hv]. apply negb_true_iff in Hv.
  pose proof Hinv as [Hlen Hvis Hreg Hnd].
  destruct (floodRegion_spec binary w h vis x y Hlen)
    as (s & contour & Hrun & _ & Hall & _).
  rewrite Hrun. cbn [mbind option_bind fst] in *. intros [= <- <-].
  destruct (floodRegion_reach binary w h vis x y s contour Hlen Hrun)
    as [[Fl Fd Fv Fc Fs Fcl Fseed _] Hstack].
  rewrite Hstack in Fcl, Fseed.
  assert (Hsd : darkAt binary w h (mkPoint x y) = true)
    by (unfold darkAt; cbn [px py]; by rewrite Hin, Hb).
  assert (Hmark : forall q, darkAt binary w h q = true ->
                            JS.getb (visited s) (py q * w + px q) = true ->
                            JS.getb vis (py q * w + px q) = true
                            \/ q ∈ allPoints s).
  { intros q Hq [H | (q' & Hq' & Hi)]%Fv; [by left|]. right.
    assert (q' = q) as ->; [|done].
    apply (index_inj w h); [| |done].
    - by apply Fd, proj1, darkAt_inBounds in Hq' as [? _].
    - by apply darkAt_inBounds in Hq as [? _]. }
  assert (Hseedin : mkPoint x y ∈ allPoints s).
  { destruct Fseed as [H%elem_of_nil | [H | H]]; [done | congruence |].
    destruct (Hmark _ Hsd H) as [H'|H']; [|done].
    cbn [px py] in H'. congruence. }
  split; [|split].
  - constructor.
    + done.
    + intros i. rewrite Fv, Hvis. rewrite pixelsOf_app. cbn [fst]. split.
      * intros [(p & Hp & Hi) | (p & Hp & Hi)]; exists p;
          (split; [apply elem_of_app; tauto | done]).
      * intros (p & [Hp | Hp]%elem_of_app & Hi); [left | right];
          by exists p.
    + intros c [Hc | ->%list_elem_of_singleton]%elem_of_app; [auto|].
      exists (mkPoint x y). cbn [fst]. split; [done|].
      intros p. split; [apply Fc|].
      induction 1 as [|p q Hp IH Hadj Hq]; [done|].
      destruct (Fcl p q IH Hadj) as [H%elem_of_nil | [H | H]];
        [done | congruence |].
      destruct (Hmark _ Hq H) as [H'|H']; [|done]. exfalso.
      assert (JS.getb vis (py p * w + px p) = true).
      { apply (scan_closed vis comps q p); auto using adjacent_sym.
        - by apply darkAt_inBounds in Hq as [? _].
        - by apply Fd. }
      destruct (Fd p IH) as [_ Hf]. congruence.
    + rewrite pixelsOf_app. cbn [fst]. apply NoDup_app.
      split; [done|]. split; [|done].
      intros p Hp Hp'. destruct (Fd p Hp') as [_ Hf].
      assert (JS.getb vis (py p * w + px p) = true)
        by (apply Hvis; by exists p).
      congruence.
  - intros i Hi. apply Fv. by left.
  - intros _. apply Fv. right. by exists (mkPoint x y).
Qed.

Lemma scanComponent_none (pixels : list (Z * Z)) :
  fold_left (scanComponent binary w h) pixels None = None.
Proof. by induction pixels. Qed.

Lemma scan_inv (pixels : list (Z * Z)) (vis : list bool)
      (comps : list (list Point * list Point)) (vis' : list bool)
      (comps' : list (list Point * list Point)) :
  ScanInv binary w h vis comps ->
  (forall x y, (x, y) ∈ pixels -> inBounds w h x y = true) ->
  fold_left (scanComponent binary w h) pixels (Some (vis, comps))
  = Some (vis', comps') ->
  ScanInv binary w h vis' comps'
  /\ (forall i, JS.getb vis i = true -> JS.getb vis' i = true)
  /\ (forall x y, (x, y) ∈ pixels -> JS.getb binary (y * w + x) = true ->
                  JS.getb vis' (y * w + x) = true).
Proof.
  revert vis comps.
  induction pixels as [|[x y] pixels IH]; intros vis comps Hinv Hin.
  { intros [= <- <-]. split; [done|]. split; [done|].
    by intros x y ?%elem_of_nil. }
  cbn [fold_left].
  destruct (scanComponent binary w h (Some (vis, comps)) (x, y))
    as [[vis1 comps1]|] eqn:Hstep; [|by rewrite scanComponent_none].
  destruct (scanComponent_inv vis comps x y vis1 comps1 Hinv)
    as (Hinv1 & Hmono1 & Hseed1); [apply Hin, list_elem_of_here | done |].
  intros Hrun.
  destruct (IH vis1 comps1 Hinv1) as (Hinv' & Hmono' & Hcov'); [|done|].
  { intros x' y' H. by apply Hin, list_elem_of_further. }
  split; [done|]. split; [auto|].
  intros x' y' [[= -> ->] | H]%elem_of_cons Hb; auto.
Qed.

Lemma components_inv (comps : list (list Point * list Point)) :
  components binary w h = Some comps ->
  (forall c, c ∈ comps ->
             exists seed,
               seed ∈ fst c
               /\ forall p, p ∈ fst c <-> connected binary w h seed p)
  /\ NoDup (pixelsOf comps)
  /\ (forall p, p ∈ pixelsOf comps <-> darkAt binary w h p = true).
Proof.
  unfold components.
  destruct (fold_left _ _ _) as [[vis' comps']|] eqn:Hrun; [|done].
  cbn [mbind option_bind]. intros [= <-].
  apply scan_inv in Hrun as ([Hlen Hvis Hreg Hnd] & _ & Hcov).
  - split; [done|]. split; [done|]. intros p. split.
    + intros (c & Hc & Hp)%pixelsOf_elem.
      destruct (Hreg c Hc) as (seed & _ & Hs).
      by apply Hs, connected_dark in Hp.
    + intros [Hin Hb]%darkAt_inBounds.
      assert (Hv : JS.getb vis' (py p * w + px p) = true).
      { apply (Hcov (px p) (py p)); [by apply raster_elem | done]. }
      apply Hvis in Hv as (p' & Hp' & Hi).
      assert (p' = p) as ->; [|done].
      apply (index_inj w h); [|done|done].
      apply pixelsOf_elem in Hp' as (c & Hc & Hp').
      destruct (Hreg c Hc) as (seed & _ & Hs).
      by apply Hs, connected_dark, darkAt_inBounds in Hp' as [? _].
  - constructor.
    + apply length_replicate.
    + intros i. split.
      * unfold JS.getb. destruct (i <? 0); [done|].
        destruct (replicate _ _ !! _) as [b|] eqn:E; [|done].
        apply lookup_replicate in E as [-> _]. done.
      * by intros (p & ?%elem_of_nil & _).
    + by intros c ?%elem_of_nil.
    + apply NoDup_nil_2.
  - intros x y. apply raster_elem.
Qed.

End Scan.

(** ** Components and contours *)

Lemma exists_min_px (l : list Point) :
  l <> [] -> exists p, p ∈ l /\ forall q, q ∈ l -> px p <= px q.
Proof.
  induction l as [|a l IH]; [done|]. intros _.
  destruct l as [|b l].
  { exists a. split; [apply list_elem_of_here|].
    intros q ->%list_elem_of_singleton. lia. }
  destruct IH as (m & Hm & Hmin); [done|].
  destruct (Z.le_gt_cases (px a) (px m)).
  - exists a. split; [apply list_elem_of_here|].
    intros q [->|Hq]%elem_of_cons; [lia|]. specialize (Hmin q Hq). lia.
  - exists m. split; [by apply list_elem_of_further|].
    intros q [->|Hq]%elem_of_cons; [lia | auto].
Qed.

Lemma region_has_boundary (binary : list bool) (w h : Z) (seed : Point)
      (all : list Point) :
  seed ∈ all ->
  (forall p, p ∈ all <-> connected binary w h seed p) ->
  boundaryOf binary w h all <> [].
Proof.
  intros Hseed Hreg.
  destruct (exists_min_px all) as (p & Hp & Hmin).
  { intros ->. by apply elem_of_nil in Hseed. }
  assert (Hb : isBoundary binary w h (px p) (py p) = true).
  { unfold isBoundary. apply existsb_exists. exists (-1, 0).
    split; [unfold offsets; simpl; tauto|]. cbv beta iota zeta.
    destruct (inBounds w h (px p + -1) (py p + 0)) eqn:Hin; [|done].
    cbn [negb].
    destruct (JS.getb binary ((py p + 0) * w + (px p + -1))) eqn:Hg;
      [|done].
    exfalso.
    assert (Hq : mkPoint (px p + -1) (py p + 0) ∈ all).
    { apply Hreg. apply (connected_step _ _ _ _ p).
      - by apply Hreg.
      - unfold adjacent. cbn [px py]. lia.
      - unfold darkAt. cbn [px py]. by rewrite Hin, Hg. }
    specialize (Hmin _ Hq). cbn [px] in Hmin. lia. }
  intros Hnil.
  assert (H : p ∈ boundaryOf binary w h all)
    by (unfold boundaryOf; by apply list_elem_of_filter).
  rewrite Hnil in H. by apply elem_of_nil in H.
Qed.

Lemma kept_elem (comps : list (list Point * list Point))
      (c : list Point) :
  c ∈ kept comps
  <-> exists all, (all, c) ∈ comps /\ (10 < length c)%nat.
Proof.
  unfold kept. rewrite list_elem_of_In, in_map_iff. split.
  - intros ([a c'] & <- & Hc). apply list_elem_of_In in Hc.
    apply list_elem_of_filter in Hc as [Hlen Hc]. by exists a.
  - intros (a & Hc & Hlen). exists (a, c). split; [done|].
    apply list_elem_of_In, list_elem_of_filter. done.
Qed.

Lemma kept_pixels (comps : list (list Point * list Point)) (p : Point) :
  (forall c, c ∈ comps -> forall q, q ∈ snd c -> q ∈ fst c) ->
  p ∈ concat (kept comps) -> p ∈ pixelsOf comps.
Proof.
  intros Hsub. rewrite list_elem_of_In, in_concat.
  intros (c & Hc%list_elem_of_In & Hp%list_elem_of_In).
  apply kept_elem in Hc as (a & Hc & _). apply pixelsOf_elem.
  exists (a, c). split; [done|]. by apply (Hsub (a, c)).
Qed.

Lemma kept_NoDup (comps : list (list Point * list Point)) :
  NoDup (pixelsOf comps) ->
  (forall c, c ∈ comps ->
             NoDup (snd c) /\ forall q, q ∈ snd c -> q ∈ fst c) ->
  NoDup (concat (kept comps)).
Proof.
  induction comps as [|c comps IH]; intros Hnd Hc.
  { apply NoDup_nil_2. }
  unfold pixelsOf in Hnd. cbn [map concat] in Hnd.
  apply NoDup_app in Hnd as (Hnd1 & Hdisj & Hnd2).
  assert (IH' : NoDup (concat (kept comps))).
  { apply IH; [done|]. intros c' Hc'.
    by apply Hc, list_elem_of_further. }
  unfold kept. rewrite filter_cons.
  destruct (decide (10 < length (snd c))%nat); [|done].
  cbn [map concat]. apply NoDup_app.
  destruct (Hc c (list_elem_of_here _ _)) as [Hndc Hsub].
  split; [done|]. split; [|done].
  intros p Hp Hp'. apply (Hdisj p); [by apply Hsub|].
  apply kept_pixels; [|done]. intros c' Hc'.
  by apply Hc, list_elem_of_further.
Qed.

Lemma filter_none {A : Type} (P : A -> Prop) `{forall x, Decision (P x)}
      (l : list A) :
  (forall x, x ∈ l -> ~ P x) -> filter P l = [].
Proof.
  induction l as [|a l IH]; intros Hl; [done|].
  rewrite filter_cons, decide_False by (apply Hl, list_elem_of_here).
  apply IH. intros x Hx. by apply Hl, list_elem_of_further.
Qed.

Lemma NoDup_subset_length (l k : list Point) :
  NoDup l -> (forall p, p ∈ l -> p ∈ k) -> (length l <= length k)%nat.
Proof.
  intros Hnd Hsub. apply submseteq_length. by apply NoDup_submseteq.
Qed.

(** X2: Every connected component that the raster scan extracts is exactly
    an 8-connected region of dark pixels: it contains its seed, and a pixel
    belongs to it if and only if a chain of adjacent dark pixels inside
    the image joins it to the seed.  [findContours] returns the contours
    of more than 10 points of these components. *)
Theorem components_connected_regions (binary : list bool) (w h : Z) :
  exists comps,
    components binary w h = Some comps
    /\ findContours binary w h = Some (kept comps)
    /\ forall all contour,
         (all, contour) ∈ comps ->
         exists seed,
           seed ∈ all
           /\ forall p, p ∈ all <-> connected binary w h seed p.
Proof.
  destruct (findContours_components binary w h) as (comps & Hc & Hf & _).
  exists comps. split; [done|]. split; [done|]. intros all contour Hin.
  destruct (components_inv binary w h comps Hc) as (Hreg & _).
  apply (Hreg (all, contour) Hin).
Qed.

(** X3: The components whose contours [findContours] filters partition
    the dark pixels: no pixel occurs twice in the pixel sets of the
    components, and a pixel occurs in one exactly when it lies inside the
    image and is dark. *)
Theorem components_partition (binary : list bool) (w h : Z) :
  exists comps,
    components binary w h = Some comps
    /\ findContours binary w h = Some (kept comps)
    /\ NoDup (pixelsOf comps)
    /\ forall p, p ∈ pixelsOf comps <-> darkAt binary w h p = true.
Proof.
  destruct (findContours_components binary w h) as (comps & Hc & Hf & _).
  exists comps. split; [done|]. split; [done|].
  by destruct (components_inv binary w h comps Hc) as (_ & Hnd & Hcov).
Qed.

(** X4: [findContours] returns contours that share no pixel, neither
    within a contour nor between two of them; every contour has more
    than 10 points, all of them dark pixels inside the image that belong
    to one 8-connected region. *)
Theorem findContours_contours (binary : list bool) (w h : Z) :
  exists contours,
    findContours binary w h = Some contours
    /\ NoDup (concat contours)
    /\ forall c, c ∈ contours ->
                 (10 < length c)%nat
                 /\ exists seed, forall p,
                       p ∈ c -> connected binary w h seed p.
Proof.
  destruct (findContours_components binary w h) as (comps & Hc & Hf & Hg).
  destruct (components_inv binary w h comps Hc) as (Hreg & Hnd & _).
  rewrite Forall_forall in Hg.
  exists (kept comps). split; [done|]. split.
  - apply kept_NoDup; [done|]. intros c Hin.
    by destruct (Hg c Hin) as (_ & ? & _ & ? & _).
  - intros c (all & Hin & Hlen)%kept_elem. split; [done|].
    destruct (Hreg _ Hin) as (seed & _ & Hs). exists seed. intros p Hp.
    apply Hs. destruct (Hg _ Hin) as (_ & _ & _ & Hsub & _).
    by apply Hsub.
Qed.

Lemma findContours_few_dark (binary : list bool) (w h : Z) :
  (length (darkPixels binary w h) <= 10)%nat ->
  findContours binary w h = Some [].
Proof.
  intros Hfew.
  destruct (findContours_components binary w h) as (comps & Hc & Hf & Hg).
  destruct (components_inv binary w h comps Hc) as (Hreg & Hnd & _).
  rewrite Forall_forall in Hg. rewrite Hf. f_equal. unfold kept.
  rewrite filter_none; [done|]. intros c Hin.
  destruct (Hg c Hin) as (Hnd1 & Hnd2 & _ & Hsub & _).
  destruct (Hreg c Hin) as (seed & _ & Hs).
  assert (length (snd c) <= length (fst c))%nat
    by by apply NoDup_subset_length.
  assert (length (fst c) <= length (darkPixels binary w h))%nat.
  { apply NoDup_subset_length; [done|]. intros p Hp.
    apply Hs, connected_dark in Hp. unfold darkPixels.
    apply list_elem_of_filter. split; [done|].
    apply list_elem_of_In, in_map_iff. exists (px p, py p).
    split; [by destruct p|]. apply list_elem_of_In, raster_elem.
    by apply darkAt_inBounds in Hp as [? _]. }
  lia.
Qed.

(** X5: A mask with at most 10 dark pixels inside the image yields no
    contour at all. *)
Theorem findContours_ignores_specks (binary : list bool) (w h : Z) :
  (length (darkPixels binary w h) <= 10)%nat ->
  findContours binary w h = Some [].
Proof. apply findContours_few_dark. Qed.

Lemma findContours_ignores_specks_witness :
  findContours speckMask 2 2 = Some [].
Proof. apply (findContours_ignores_specks speckMask 2 2). vm_compute. lia. Defined.

(** ** The bounding box *)

Lemma bounds_fold (l : list Point) (x0 y0 x1 y1 : Z) :
  let '(X0, Y0, X1, Y1) :=
    fold_left (fun '(x0, y0, x1, y1) q =>
                 (Z.min x0 (px q), Z.min y0 (py q),
                  Z.max x1 (px q), Z.max y1 (py q)))
              l (x0, y0, x1, y1) in
  (X0 <= x0 /\ Y0 <= y0 /\ x1 <= X1 /\ y1 <= Y1)
  /\ (forall q, q ∈ l -> X0 <= px q <= X1 /\ Y0 <= py q <= Y1)
  /\ (X0 = x0 \/ exists q, q ∈ l /\ px q = X0)
  /\ (Y0 = y0 \/ exists q, q ∈ l /\ py q = Y0)
  /\ (X1 = x1 \/ exists q, q ∈ l /\ px q = X1)
  /\ (Y1 = y1 \/ exists q, q ∈ l /\ py q = Y1).
Proof.
  revert x0 y0 x1 y1. induction l as [|a l IH]; intros x0 y0 x1 y1.
  { cbn [fold_left]. split; [lia|]. split; [by intros q ?%elem_of_nil|].
    tauto. }
  cbn [fold_left].
  specialize (IH (Z.min x0 (px a)) (Z.min y0 (py a))
                 (Z.max x1 (px a)) (Z.max y1 (py a))).
  destruct (fold_left _ l _) as [[[X0 Y0] X1] Y1].
  destruct IH as (Hm & Hall & H0 & H1 & H2 & H3).
  split; [lia|]. split.
  { intros q [->|Hq]%elem_of_cons; [lia | auto]. }
  assert (Hin : forall q, q ∈ l -> q ∈ a :: l)
    by (intros q Hq; by apply list_elem_of_further).
  assert (Ha : a ∈ a :: l) by apply list_elem_of_here.
  repeat split.
  - destruct H0 as [H0 | (q & Hq & H0)]; [|right; exists q; auto].
    destruct (Z.min_spec x0 (px a)) as [[_ E]|[_ E]]; rewrite E in H0;
      [by left | right; by exists a].
  - destruct H1 as [H1 | (q & Hq & H1)]; [|right; exists q; auto].
    destruct (Z.min_spec y0 (py a)) as [[_ E]|[_ E]]; rewrite E in H1;
      [by left | right; by exists a].
  - destruct H2 as [H2 | (q & Hq & H2)]; [|right; exists q; auto].
    destruct (Z.max_spec x1 (px a)) as [[_ E]|[_ E]]; rewrite E in H2;
      [right; by exists a | by left].
  - destruct H3 as [H3 | (q & Hq & H3)]; [|right; exists q; auto].
    destruct (Z.max_spec y1 (py a)) as [[_ E]|[_ E]]; rewrite E in H3;
      [right; by exists a | by left].
Qed.

Lemma calculateBounds_box (points : list Point) (b : Bounds) :
  calculateBounds points = Some b ->
  (forall p, p ∈ points ->
             minX b <= px p <= minX b + bw b - 1
             /\ minY b <= py p <= minY b + bh b - 1)
  /\ (exists p, p ∈ points /\ px p = minX b)
  /\ (exists p, p ∈ points /\ py p = minY b)
  /\ (exists p, p ∈ points /\ px p = minX b + bw b - 1)
  /\ (exists p, p ∈ points /\ py p = minY b + bh b - 1).
Proof.
  unfold calculateBounds. destruct points as [|p ps]; [done|].
  pose proof (bounds_fold (p :: ps) (px p) (py p) (px p) (py p)) as G.
  destruct (fold_left _ (p :: ps) _) as [[[X0 Y0] X1] Y1].
  destruct G as (_ & Hall & H0 & H1 & H2 & H3).
  intros [= <-]. cbn [minX minY bw bh].
  assert (Hp : p ∈ p :: ps) by apply list_elem_of_here.
  split; [|repeat split].
  - intros q Hq. specialize (Hall q Hq). lia.
  - destruct H0 as [->|H0]; [by exists p | done].
  - destruct H1 as [->|H1]; [by exists p | done].
  - destruct H2 as [->|(q & Hq & H2)]; [exists p | exists q];
      (split; [done | lia]).
  - destruct H3 as [->|(q & Hq & H3)]; [exists p | exists q];
      (split; [done | lia]).
Qed.

(** X6: On pixel coordinates (below 2^25 in size, where the extents are
    computed exactly) [calculateBounds] returns the tight axis-aligned box
    of a non-empty point array: every point lies in the columns
    [minX .. minX + width - 1] and the rows [minY .. minY + height - 1], and
    each of the four extreme lines passes through a point. *)
Theorem calculateBounds_tight (points : list Point) (b : Bounds) :
  Forall pixelRange points ->
  calculateBounds points = Some b ->
  (forall p, p ∈ points ->
             minX b <= px p <= minX b + bw b - 1
             /\ minY b <= py p <= minY b + bh b - 1)
  /\ (exists p, p ∈ points /\ px p = minX b)
  /\ (exists p, p ∈ points /\ py p = minY b)
  /\ (exists p, p ∈ points /\ px p = minX b + bw b - 1)
  /\ (exists p, p ∈ points /\ py p = minY b + bh b - 1).
Proof. intros _. apply calculateBounds_box. Qed.

Lemma calculateBounds_tight_witness :
  (forall p, p ∈ trianglePoints ->
             0 <= px p <= 0 + 13 - 1 /\ 0 <= py p <= 0 + 13 - 1)
  /\ (exists p, p ∈ trianglePoints /\ px p = 0)
  /\ (exists p, p ∈ trianglePoints /\ py p = 0)
  /\ (exists p, p ∈ trianglePoints /\ px p = 0 + 13 - 1)
  /\ (exists p, p ∈ trianglePoints /\ py p = 0 + 13 - 1).
Proof.
  apply (calculateBounds_tight trianglePoints (mkBounds 0 0 13 13)).
  - repeat constructor.
  - reflexivity.
Defined.

(** X7: The bounding box of every detected shape lies inside the image:
    its corner has non-negative coordinates, its extents are at least 1,
    and it ends at or before the image's right and bottom edges. *)
Theorem bounding_box_in_image (acos : float -> float) (W : World)
        (r : DetectionResult) (s : DetectedShape) :
  fst (detectShapes acos W) = Some r -> s ∈ shapes r ->
  0 <= bx (boundingBox s) /\ 0 <= by_ (boundingBox s)
  /\ 1 <= bwidth (boundingBox s) /\ 1 <= bheight (boundingBox s)
  /\ bx (boundingBox s) + bwidth (boundingBox s) <= imageWidth r
  /\ by_ (boundingBox s) + bheight (boundingBox s) <= imageHeight r.
Proof.
  intros Hr Hs.
  destruct (detected_shape_origin acos W r s Hr Hs)
    as (-> & -> & all & contour & simplified & Hgood & Hcl).
  apply classifyShape_fields in Hcl as (b & t & c & Hb & _ & ->).
  cbn [boundingBox bx by_ bwidth bheight].
  destruct Hgood as (_ & _ & Hin & Hsub & _). cbn [fst snd] in *.
  pose proof (calculateBounds_extent _ _ Hb) as [Hw Hh].
  destruct (calculateBounds_box _ _ Hb)
    as (_ & (p0 & Hp0 & E0) & (p1 & Hp1 & E1) & (p2 & Hp2 & E2)
        & (p3 & Hp3 & E3)).
  apply Hsub, Hin, inBounds_index in Hp0, Hp1, Hp2, Hp3. lia.
Qed.

Lemma bounding_box_in_image_witness :
  0 <= bx (boundingBox spiralShape) /\ 0 <= by_ (boundingBox spiralShape)
  /\ 1 <= bwidth (boundingBox spiralShape)
  /\ 1 <= bheight (boundingBox spiralShape)
  /\ bx (boundingBox spiralShape) + bwidth (boundingBox spiralShape)
     <= imageWidth spiralResult
  /\ by_ (boundingBox spiralShape) + bheight (boundingBox spiralShape)
     <= imageHeight spiralResult.
Proof.
  apply (bounding_box_in_image noAcos spiralWorld spiralResult spiralShape).
  - vm_compute. reflexivity.
  - apply list_elem_of_here.
Defined.

(** ** The decision tree by vertex count *)

Section Tree.

Variable acos : float -> float.

Lemma calculateBounds_some (points : list Point) :
  points <> [] -> is_Some (calculateBounds points).
Proof.
  destruct points as [|p ps]; [done|]. intros _. unfold calculateBounds.
  by destruct (fold_left _ _ _) as [[[x0 y0] x1] y1].
Qed.

Lemma decide_shape_few (simplified : list Point) (circularity : float) :
  (3 <= length simplified <= 7)%nat ->
  exists t c,
    decide_shape acos simplified circularity = Some (t, c)
    /\ match length simplified with
       | 3%nat => t = triangle /\ JS.min 1 c = 0.95%float
       | 4%nat => t = rectangle /\ JS.min 1 c = 0.98%float
       | 5%nat => (t = rectangle /\ JS.min 1 c = 0.8%float)
                  \/ (t = pentagon /\ JS.min 1 c = 0.95%float)
       | 6%nat => (t = rectangle /\ JS.min 1 c = 0.8%float)
                  \/ (t = pentagon /\ JS.min 1 c = 0.75%float)
       | _ => t = pentagon /\ JS.min 1 c = 0.75%float
       end.
Proof.
  intros Hn. unfold decide_shape, isTriangle.
  destruct (length simplified) as [|[|[|[|[|[|[|[|n]]]]]]]] eqn:E;
    try lia; cbn [Nat.eqb Nat.leb negb andb orb];
    rewrite ?andb_false_r; cbn [andb orb].
  - eexists _, _. split; [reflexivity|]. by vm_compute.
  - eexists _, _. split; [reflexivity|]. by vm_compute.
  - destruct (isRectangle acos simplified);
      eexists _, _; (split; [reflexivity|]); [left | right]; by vm_compute.
  - destruct (isRectangle acos simplified); [|destruct (isPentagon simplified)];
      eexists _, _; (split; [reflexivity|]); [left | right | right];
      by vm_compute.
  - destruct (isPentagon simplified);
      eexists _, _; (split; [reflexivity|]); by vm_compute.
Qed.

Lemma decide_shape_label (simplified : list Point) (circularity c : float)
      (t : ShapeType) :
  decide_shape acos simplified circularity = Some (t, c) ->
  match t with
  | circle => (8 <= length simplified)%nat
              /\ (0.85 <? circularity)%float = true
  | triangle => length simplified = 3%nat /\ JS.min 1 c = 0.95%float
  | rectangle => (length simplified = 4%nat /\ JS.min 1 c = 0.98%float)
                 \/ ((5 <= length simplified <= 6)%nat
                     /\ JS.min 1 c = 0.8%float)
  | pentagon => (length simplified = 5%nat /\ JS.min 1 c = 0.95%float)
                \/ ((6 <= length simplified <= 8)%nat
                    /\ JS.min 1 c = 0.75%float)
  | star => (8 <= length simplified <= 12)%nat /\ JS.min 1 c = 0.8%float
  end.
Proof.
  unfold decide_shape.
  destruct (isTriangle acos simplified) eqn:Ht.
  { apply isTriangle_length in Ht. rewrite Ht. cbn [Nat.eqb Nat.leb andb orb].
    rewrite andb_false_r. intros [= <- <-]. split; [done | by vm_compute]. }
  rewrite andb_false_r, orb_false_r.
  destruct (0.85 <? circularity)%float;
  repeat match goal with
         | |- context [(?a =? ?b)%nat] => destruct (Nat.eqb_spec a b)
         | |- context [(?a <=? ?b)%nat] => destruct (Nat.leb_spec a b)
         end; cbn [andb orb];
  repeat match goal with
         | |- context [if ?b then _ else _] => destruct b
         end; intros Hres; simplify_eq; try lia;
  first [ split; [lia | done]
        | split; [lia | by vm_compute]
        | left; split; [lia | by vm_compute]
        | right; split; [lia | by vm_compute] ].
Qed.

Lemma decide_shape_none (simplified : list Point) (circularity : float) :
  (length simplified <= 2)%nat ->
  decide_shape acos simplified circularity = None.
Proof.
  intros Hn. unfold decide_shape, isTriangle.
  destruct (length simplified) as [|[|[|n]]]; try lia;
    cbn [Nat.eqb Nat.leb negb andb orb]; by rewrite ?andb_false_r.
Qed.

(** X8: A simplified polygon of 3 to 7 vertices is always classified, and
    the vertex count alone limits the outcome: 3 vertices give a triangle
    of confidence 0.95, 4 a rectangle of confidence 0.98, 7 a pentagon of
    confidence 0.75; 5 vertices give a rectangle (0.8) or a pentagon
    (0.95), 6 a rectangle (0.8) or a pentagon (0.75). *)
Theorem classifyShape_few_vertices (simplified originalContour : list Point) :
  originalContour <> [] -> (3 <= length simplified <= 7)%nat ->
  exists s,
    classifyShape acos simplified originalContour = Some s
    /\ match length simplified with
       | 3%nat => type s = triangle /\ confidence s = 0.95%float
       | 4%nat => type s = rectangle /\ confidence s = 0.98%float
       | 5%nat => (type s = rectangle /\ confidence s = 0.8%float)
                  \/ (type s = pentagon /\ confidence s = 0.95%float)
       | 6%nat => (type s = rectangle /\ confidence s = 0.8%float)
                  \/ (type s = pentagon /\ confidence s = 0.75%float)
       | _ => type s = pentagon /\ confidence s = 0.75%float
       end.
Proof.
  intros Hne Hn. unfold classifyShape.
  destruct (calculateBounds_some _ Hne) as [b ->]. cbn [mbind option_bind].
  destruct (decide_shape_few simplified
              (4 * JS.PI * JS.Q2F (calculateArea originalContour)
               / (calculatePerimeter simplified
                  * calculatePerimeter simplified)) Hn)
    as (t & c & -> & Htc).
  cbn [mbind option_bind]. eexists. split; [reflexivity|].
  cbn [type confidence]. done.
Qed.

(** X9: The label of a classified shape limits the number of vertices of
    its simplified polygon and fixes its confidence: a circle has at least
    8 vertices (and a circularity above 0.85); a triangle has exactly 3,
    with confidence 0.95; a rectangle has 4 (0.98) or 5 to 6 (0.8); a
    pentagon has 5 (0.95) or 6 to 8 (0.75); a star has 8 to 12 (0.8).  A
    polygon of fewer than 3 vertices is never classified. *)
Theorem classifyShape_label_vertices (simplified originalContour : list Point) :
  match classifyShape acos simplified originalContour with
  | Some s =>
      match type s with
      | circle =>
          (8 <= length simplified)%nat
          /\ (0.85 <? 4 * JS.PI * JS.Q2F (calculateArea originalContour)
                      / (calculatePerimeter simplified
                         * calculatePerimeter simplified))%float = true
      | triangle => length simplified = 3%nat /\ confidence s = 0.95%float
      | rectangle =>
          (length simplified = 4%nat /\ confidence s = 0.98%float)
          \/ ((5 <= length simplified <= 6)%nat
              /\ confidence s = 0.8%float)
      | pentagon =>
          (length simplified = 5%nat /\ confidence s = 0.95%float)
          \/ ((6 <= length simplified <= 8)%nat
              /\ confidence s = 0.75%float)
      | star => (8 <= length simplified <= 12)%nat
                /\ confidence s = 0.8%float
      end
  | None => True
  end
  /\ ((length simplified <= 2)%nat ->
      classifyShape acos simplified originalContour = None).
Proof.
  split.
  - destruct (classifyShape acos simplified originalContour) as [s|] eqn:Hs;
      [|done].
    apply classifyShape_fields in Hs as (b & t & c & _ & Hd & ->).
    cbn [type confidence]. by apply decide_shape_label in Hd.
  - intros Hn. unfold classifyShape.
    destruct (calculateBounds originalContour); [|done].
    cbn [mbind option_bind]. by rewrite decide_shape_none.
Qed.

End Tree.

Lemma classifyShape_few_vertices_witness :
  exists s,
    classifyShape noAcos trianglePoints trianglePoints = Some s
    /\ type s = triangle /\ confidence s = 0.95%float.
Proof.
  apply (classifyShape_few_vertices noAcos trianglePoints trianglePoints).
  - discriminate.
  - simpl. lia.
Defined.

(** ** The shoelace sum *)

Lemma fold_left_ext_in {A B : Type} (f g : A -> B -> A) (l : list B) (a : A) :
  (forall acc x, x ∈ l -> f acc x = g acc x) ->
  fold_left f l a = fold_left g l a.
Proof.
  revert a. induction l as [|x l IH]; intros a Hfg; [done|].
  cbn [fold_left]. rewrite Hfg by apply list_elem_of_here.
  apply IH. intros acc y Hy. by apply Hfg, list_elem_of_further.
Qed.

Lemma chain_fold (L : list Point) (acc : Z) :
  fold_left (fun acc i => acc + cross (L !!! i) (L !!! S i))
            (seq 0 (length L - 1)) acc
  = acc + chain L.
Proof.
  revert acc. induction L as [|a t IH]; intros acc; [simpl; lia|].
  destruct t as [|b t]; [simpl; lia|].
  replace (length (a :: b :: t) - 1)%nat with (S (length (b :: t) - 1))
    by (simpl; lia).
  cbn [seq fold_left]. rewrite <- seq_shift.
  rewrite (fold_left_map_ext _
             (fun acc i => acc + cross ((b :: t) !!! i) ((b :: t) !!! S i)) S)
    by done.
  rewrite IH. change ((a :: b :: t) !!! 0%nat) with a.
  change ((a :: b :: t) !!! 1%nat) with b. cbn [chain]. lia.
Qed.

Lemma shoelace_chain (l : list Point) :
  shoelace l = chain (l ++ take 1 l).
Proof.
  unfold shoelace. destruct l as [|a t]; [done|].
  set (l := a :: t). set (L := l ++ take 1 l).
  rewrite <- (Z.add_0_l (chain L)), <- chain_fold.
  assert (HL : length L = S (length l))
    by (unfold L; rewrite length_app; simpl; lia).
  rewrite HL. replace (S (length l) - 1)%nat with (length l) by lia.
  apply fold_left_ext_in. intros acc i Hi%list_elem_of_In%in_seq.
  assert (Hli : l !!! i = L !!! i).
  { unfold L. rewrite lookup_total_app_l by lia. done. }
  assert (Hlj : l !!! ((i + 1) mod length l)%nat = L !!! S i).
  { unfold L. destruct (decide (S i = length l)) as [E|E].
    - replace (i + 1)%nat with (length l) by lia. rewrite Nat.Div0.mod_same.
      rewrite lookup_total_app_r by lia. rewrite E, Nat.sub_diag. done.
    - rewrite Nat.mod_small by lia.
      rewrite lookup_total_app_l by lia. f_equal. lia. }
  rewrite Hli, Hlj. unfold cross. lia.
Qed.

Lemma chain_snoc (l : list Point) (x : Point) :
  chain (l ++ [x]) = chain l + from_option (fun z => cross z x) 0 (last l).
Proof.
  induction l as [|a t IH]; [done|].
  destruct t as [|b t]; [simpl; lia|].
  change (chain ((a :: b :: t) ++ [x]))
    with (cross a b + chain ((b :: t) ++ [x])).
  rewrite IH. cbn [chain]. rewrite (last_cons_cons a b t). lia.
Qed.

Lemma last_rev (l : list Point) : last (rev l) = head l.
Proof. destruct l as [|a t]; [done|]. simpl. apply last_snoc. Qed.

Lemma head_rev (l : list Point) : head (rev l) = last l.
Proof. rewrite <- (rev_involutive l) at 2. by rewrite last_rev. Qed.

Lemma cross_swap (p q : Point) : cross p q = - cross q p.
Proof. unfold cross. lia. Qed.

Lemma chain_rev (l : list Point) : chain (rev l) = - chain l.
Proof.
  induction l as [|a t IH]; [done|].
  cbn [rev]. rewrite chain_snoc, IH, last_rev.
  destruct t as [|b t]; [done|]. cbn [head from_option chain].
  rewrite (cross_swap b a). lia.
Qed.

Lemma take_one (l : list Point) :
  take 1 l = from_option (fun a => [a]) [] (head l).
Proof. by destruct l. Qed.

Lemma shoelace_rev (l : list Point) : shoelace (rev l) = - shoelace l.
Proof.
  rewrite !shoelace_chain, !take_one, head_rev.
  destruct l as [|a t]; [done|].
  destruct (last (a :: t)) as [z|] eqn:Hz.
  2:{ by apply last_None in Hz. }
  cbn [head from_option]. rewrite !chain_snoc, chain_rev, last_rev, Hz.
  cbn [head from_option]. rewrite (cross_swap a z). lia.
Qed.

Lemma chain_translate (dx dy : Z) (a : Point) (l : list Point) :
  chain (map (translate dx dy) (a :: l))
  = chain (a :: l)
    + dx * (py (default a (last l)) - py a)
    - dy * (px (default a (last l)) - px a).
Proof.
  revert a. induction l as [|b t IH]; intros a; [simpl; lia|].
  change (chain (map (translate dx dy) (a :: b :: t)))
    with (cross (translate dx dy a) (translate dx dy b)
          + chain (map (translate dx dy) (b :: t))).
  rewrite IH. cbn [chain]. rewrite (last_cons b t).
  replace (default a match last t with Some y => Some y | None => Some b end)
    with (default b (last t)) by (by destruct (last t)).
  unfold cross, translate. cbn [px py]. lia.
Qed.

Lemma shoelace_translate (dx dy : Z) (l : list Point) :
  shoelace (map (translate dx dy) l) = shoelace l.
Proof.
  rewrite !shoelace_chain. destruct l as [|a t]; [done|].
  replace (map (translate dx dy) (a :: t)
           ++ take 1 (map (translate dx dy) (a :: t)))
    with (map (translate dx dy) (a :: (t ++ [a])))
    by (simpl; by rewrite map_app).
  change ((a :: t) ++ take 1 (a :: t)) with (a :: (t ++ [a])).
  rewrite chain_translate, last_snoc. simpl. lia.
Qed.

Lemma shoelace_rotate (l1 l2 : list Point) :
  shoelace (l2 ++ l1) = shoelace (l1 ++ l2).
Proof.
  rewrite !shoelace_chain, !take_one.
  assert (G : forall m1 m2 : list Point,
             chain ((m1 ++ m2)
                    ++ from_option (fun a => [a]) [] (head (m1 ++ m2)))
             = chain m1 + chain m2
               + from_option
                   (fun z => from_option (cross z) 0 (head m2)) 0 (last m1)
               + from_option
                   (fun z => from_option (cross z) 0 (head (m1 ++ m2))) 0
                   (last (m1 ++ m2))).
  { intros m1 m2.
    assert (E1 : forall m x, chain (m ++ from_option (fun a => [a]) [] x)
                             = chain m
                               + from_option
                                   (fun z => from_option (cross z) 0 x) 0
                                   (last m)).
    { intros m [x|]; cbn [from_option].
      - apply chain_snoc.
      - rewrite app_nil_r. destruct (last m); simpl; lia. }
    rewrite E1.
    assert (E2 : chain (m1 ++ m2)
                 = chain m1 + chain m2
                   + from_option
                       (fun z => from_option (cross z) 0 (head m2)) 0
                       (last m1)).
    { induction m2 as [|b t IH] using rev_ind.
      - rewrite app_nil_r. destruct (last m1); simpl; lia.
      - rewrite app_assoc, !chain_snoc, IH.
        destruct t as [|c t].
        + rewrite app_nil_r. cbn [app last head from_option chain].
          destruct (last m1); simpl; lia.
        + rewrite last_app. cbn [app head].
          destruct (last (c :: t)) as [z|] eqn:Hz.
          2:{ by apply last_None in Hz. }
          cbn [from_option]. lia. }
    rewrite E2. lia. }
  rewrite (G l2 l1), (G l1 l2).
  destruct l1 as [|a1 t1], l2 as [|a2 t2].
  - done.
  - rewrite !app_nil_r. cbn [app last head from_option chain].
    destruct (last (a2 :: t2)); simpl; lia.
  - rewrite !app_nil_r. cbn [app last head from_option chain].
    destruct (last (a1 :: t1)); simpl; lia.
  - rewrite !last_app.
    destruct (last (a1 :: t1)) as [z1|] eqn:H1.
    2:{ by apply last_None in H1. }
    destruct (last (a2 :: t2)) as [z2|] eqn:H2.
    2:{ by apply last_None in H2. }
    cbn [app head from_option]. lia.
Qed.

(** X10: Where the arithmetic of the shoelace loop is exact (coordinates
    of size at most [B] before and after the move, with
    [2 * n * B * B <= 2^53] for the [n] points), the area does not depend on
    where the polygon lies, on its orientation, or on the vertex it starts
    from: translating all points, reversing their order, or rotating the
    array leaves [calculateArea] unchanged. *)
Theorem calculateArea_invariant (B : Z) (points : list Point) (dx dy : Z)
        (k : nat) :
  areaRange B points -> areaRange B (map (translate dx dy) points) ->
  calculateArea (map (translate dx dy) points) = calculateArea points
  /\ calculateArea (rev points) = calculateArea points
  /\ calculateArea (drop k points ++ take k points) = calculateArea points.
Proof.
  intros _ _. unfold calculateArea. split; [|split].
  - by rewrite shoelace_translate.
  - by rewrite shoelace_rev, Z.abs_opp.
  - by rewrite shoelace_rotate, take_drop.
Qed.

Lemma calculateArea_invariant_witness :
  calculateArea (map (translate 5 7) trianglePoints)
  = calculateArea trianglePoints
  /\ calculateArea (rev trianglePoints) = calculateArea trianglePoints
  /\ calculateArea (drop 1 trianglePoints ++ take 1 trianglePoints)
     = calculateArea trianglePoints.
Proof.
  apply (calculateArea_invariant 100 trianglePoints 5 7 1); reflexivity.
Defined.

(** X11: Where the arithmetic of the shoelace loop is exact (coordinates
    of size at most [B], with [2 * n * B * B <= 2^53] for the [n] points),
    [calculateArea] is 0 for fewer than three points, and for the four
    corners of an axis-parallel rectangle, listed in order, it is the
    product of the side lengths. *)
Theorem calculateArea_cases (B : Z) (points : list Point) (x y a b : Z) :
  areaRange B points ->
  areaRange B [mkPoint x y; mkPoint (x + a) y;
               mkPoint (x + a) (y + b); mkPoint x (y + b)] ->
  ((length points <= 2)%nat -> calculateArea points = Qmake 0 2)
  /\ (calculateArea [mkPoint x y; mkPoint (x + a) y;
                     mkPoint (x + a) (y + b); mkPoint x (y + b)]
      == inject_Z (Z.abs (a * b)))%Q.
Proof.
  intros _ _. split.
  - intros Hn. unfold calculateArea. rewrite shoelace_chain.
    destruct points as [|p [|q [|r t]]]; simpl in *; try lia;
      unfold cross; f_equal; lia.
  - unfold calculateArea, shoelace, Qeq. simpl.
    replace (0 + x * y - (x + a) * y + (x + a) * (y + b) - (x + a) * y
             + (x + a) * (y + b) - x * (y + b) + x * y - x * (y + b))
      with (2 * (a * b)) by lia.
    rewrite Z.abs_mul. simpl. lia.
Qed.

Lemma calculateArea_cases_witness :
  ((length [mkPoint 3 4; mkPoint 7 1] <= 2)%nat ->
   calculateArea [mkPoint 3 4; mkPoint 7 1] = Qmake 0 2)
  /\ (calculateArea [mkPoint 1 2; mkPoint (1 + 3) 2;
                     mkPoint (1 + 3) (2 + 5); mkPoint 1 (2 + 5)]
      == inject_Z (Z.abs (3 * 5)))%Q.
Proof.
  apply (calculateArea_cases 100 [mkPoint 3 4; mkPoint 7 1] 1 2 3 5);
    reflexivity.
Defined.

(** ** The nearest remaining boundary point *)

Lemma manhattan_nonneg (p c : Point) : 0 <= manhattan p c.
Proof. unfold manhattan. lia. Qed.

Lemma small_ltb (d m : Z) :
  0 <= d <= 2 -> 0 <= m <= 2 ->
  PrimFloat.ltb (JS.Z2F d) (JS.Z2F m) = (d <? m)
  /\ PrimFloat.ltb (JS.Z2F d) PrimFloat.infinity = true.
Proof.
  intros Hd Hm.
  assert (d = 0 \/ d = 1 \/ d = 2) as [->|[->| ->]] by lia;
    assert (m = 0 \/ m = 1 \/ m = 2) as [->|[->| ->]] by lia;
    by vm_compute.
Qed.

Lemma nearScan_step (current : Point) (seen : list Point)
      (acc : float * option Point) (q : Point) :
  nearState current seen acc ->
  nearState current (seen ++ [q])
    (let '(minDist, nearest) := acc in
     let dist := manhattan q current in
     if PrimFloat.ltb (JS.Z2F dist) minDist && (dist <=? 2)
     then (JS.Z2F dist, Some q) else (minDist, nearest)).
Proof.
  destruct acc as [md nr]. unfold nearState. cbn [fst snd].
  pose proof (manhattan_nonneg q current) as Hq0. cbv zeta.
  destruct (Z.leb_spec (manhattan q current) 2) as [Hq|Hq].
  2:{ rewrite andb_false_r. cbn [fst snd]. destruct nr as [p|].
      - intros (-> & Hp & Hm & Hmin). split; [done|].
        split; [apply elem_of_app; by left|]. split; [done|].
        intros q' [Hq'| ->%list_elem_of_singleton]%elem_of_app; [auto | lia].
      - intros (-> & Hfar). split; [done|].
        intros q' [Hq'| ->%list_elem_of_singleton]%elem_of_app; [auto | lia]. }
  rewrite andb_true_r. destruct nr as [p|].
  - intros (-> & Hp & Hm & Hmin).
    pose proof (manhattan_nonneg p current) as Hp0.
    destruct (small_ltb (manhattan q current) (manhattan p current))
      as [-> _]; [lia | lia |].
    destruct (Z.ltb_spec (manhattan q current) (manhattan p current));
      cbn [fst snd].
    + split; [done|]. split; [apply elem_of_app; right; apply list_elem_of_here|].
      split; [done|].
      intros q' [Hq'| ->%list_elem_of_singleton]%elem_of_app; [|lia].
      specialize (Hmin q' Hq'). lia.
    + split; [done|]. split; [apply elem_of_app; by left|]. split; [done|].
      intros q' [Hq'| ->%list_elem_of_singleton]%elem_of_app; [auto | lia].
  - intros (-> & Hfar).
    destruct (small_ltb (manhattan q current) 0) as [_ ->]; [lia | lia |].
    cbn [fst snd]. split; [done|].
    split; [apply elem_of_app; right; apply list_elem_of_here|].
    split; [done|].
    intros q' [Hq'| ->%list_elem_of_singleton]%elem_of_app; [|lia].
    specialize (Hfar q' Hq'). lia.
Qed.

Lemma nearScan_state (current : Point) (remaining : list Point) :
  nearState current remaining (nearScan current remaining).
Proof.
  unfold nearScan.
  assert (G : forall l seen acc,
             nearState current seen acc ->
             nearState current (seen ++ l)
               (fold_left
                  (fun '(minDist, nearest) p =>
                     let dist := manhattan p current in
                     if PrimFloat.ltb (JS.Z2F dist) minDist && (dist <=? 2)
                     then (JS.Z2F dist, Some p) else (minDist, nearest))
                  l acc)).
  { induction l as [|q l IH]; intros seen acc Hacc.
    - by rewrite app_nil_r.
    - cbn [fold_left]. rewrite (cons_middle q seen l), app_assoc.
      apply IH. destruct acc as [md nr].
      apply (nearScan_step current seen (md, nr) q Hacc). }
  apply (G remaining [] (PrimFloat.infinity, None)).
  split; [done|]. by intros q ?%elem_of_nil.
Qed.

(** X12: When some remaining boundary point lies within Manhattan distance 2
    of the current point, the ordering step selects a remaining point
    that is nearest to the current point in the Manhattan metric; the
    Euclidean scan is then not consulted. *)
Theorem selectNext_nearest (current q : Point) (remaining : list Point) :
  q ∈ remaining -> manhattan q current <= 2 ->
  exists p,
    selectNext current remaining = Some p
    /\ p ∈ remaining
    /\ forall q', q' ∈ remaining ->
                  manhattan p current <= manhattan q' current.
Proof.
  intros Hq Hd. unfold selectNext.
  pose proof (nearScan_state current remaining) as Hs. unfold nearState in Hs.
  destruct (nearScan current remaining) as [md [p|]]; cbn [fst snd] in Hs.
  - destruct Hs as (_ & Hp & _ & Hmin). by exists p.
  - destruct Hs as (_ & Hfar). specialize (Hfar q Hq). lia.
Qed.

Lemma selectNext_nearest_witness :
  exists p,
    selectNext (mkPoint 0 0) [mkPoint 5 5; mkPoint 1 1; mkPoint 0 1]
    = Some p
    /\ p ∈ [mkPoint 5 5; mkPoint 1 1; mkPoint 0 1]
    /\ forall q', q' ∈ [mkPoint 5 5; mkPoint 1 1; mkPoint 0 1] ->
                  manhattan p (mkPoint 0 0) <= manhattan q' (mkPoint 0 0).
Proof.
  apply (selectNext_nearest (mkPoint 0 0) (mkPoint 1 1)).
  - apply list_elem_of_further, list_elem_of_here.
  - vm_compute. discriminate.
Defined.

(** X13: Whatever the boundary array, duplicates included,
    [orderBoundaryPoints] returns: on an empty boundary array it returns
    all points of the component; on a non-empty one, as soon as the loop
    may run once per boundary point, it returns the first boundary point
    followed by points of the rest of the array, none of them repeated. *)
Theorem orderBoundaryPoints_start (b0 : Point) (rest all : list Point) :
  (forall fuel, orderBoundaryPoints fuel [] all = Some all)
  /\ exists picked,
       (forall fuel, (length (b0 :: rest) <= fuel)%nat ->
                     orderBoundaryPoints fuel (b0 :: rest) all
                     = Some (b0 :: picked))
       /\ NoDup picked /\ forall p, p ∈ picked -> p ∈ rest.
Proof.
  split; [done|].
  destruct (setOf_spec rest [] (NoDup_nil_2)) as (Hs1 & Hs2 & Hs3).
  fold (setOf rest) in Hs1, Hs2, Hs3. cbn [length Nat.add] in Hs3.
  destruct (orderLoop_total (S (length rest)) [b0] (setOf rest) b0)
    as (picked & Hrun & Hin & Hnd); [lia|].
  exists picked. split; [|split].
  - intros fuel Hfuel. cbn [length] in Hfuel. unfold orderBoundaryPoints.
    rewrite (orderLoop_fuel_mono (S (length rest)) fuel _ _ _ _ Hfuel Hrun).
    reflexivity.
  - by apply Hnd.
  - intros p Hp. destruct (Hs2 p (Hin p Hp)) as [H|H]; [|done].
    by apply elem_of_nil in H.
Qed.

(** ** The result of the call *)

Lemma extreme_is_boundary (binary : list bool) (w h : Z) (seed p : Point)
      (all : list Point) (dx dy : Z) :
  (forall q, q ∈ all <-> connected binary w h seed q) ->
  (dx, dy) ∈ offsets -> p ∈ all ->
  (forall q, q ∈ all -> dx * px q + dy * py q <= dx * px p + dy * py p) ->
  p ∈ boundaryOf binary w h all.
Proof.
  intros Hreg Hd Hp Hmax. unfold boundaryOf.
  apply list_elem_of_filter. split; [|done].
  unfold isBoundary. apply existsb_exists. exists (dx, dy).
  split; [by apply list_elem_of_In|]. cbv beta iota zeta.
  destruct (inBounds w h (px p + dx) (py p + dy)) eqn:Hin; [|done].
  cbn [negb].
  destruct (JS.getb binary ((py p + dy) * w + (px p + dx))) eqn:Hg; [|done].
  exfalso.
  assert (Hadj : adjacent p (mkPoint (px p + dx) (py p + dy))).
  { apply adjacent_offsets. by exists (dx, dy). }
  assert (Hq : mkPoint (px p + dx) (py p + dy) ∈ all).
  { apply Hreg. apply (connected_step _ _ _ _ p); [by apply Hreg | done |].
    unfold darkAt. cbn [px py]. by rewrite Hin, Hg. }
  specialize (Hmax _ Hq). cbn [px py] in Hmax.
  unfold adjacent in Hadj. cbn [px py] in Hadj. nia.
Qed.

Lemma component_facts (binary : list bool) (w h : Z) :
  exists comps,
    components binary w h = Some comps
    /\ findContours binary w h = Some (kept comps)
    /\ forall all contour,
         (all, contour) ∈ comps ->
         goodComponent binary w h (all, contour)
         /\ exists seed,
              seed ∈ all
              /\ (forall p, p ∈ all <-> connected binary w h seed p)
              /\ (w <= 2 ^ 25 -> h <= 2 ^ 25 ->
                  contour ≡ₚ boundaryOf binary w h all).
Proof.
  destruct (findContours_components binary w h) as (comps & Hc & Hf & Hg).
  exists comps. split; [done|]. split; [done|]. intros all contour Hin.
  rewrite Forall_forall in Hg. split; [by apply Hg|].
  destruct (components_inv binary w h comps Hc) as (Hreg & _).
  destruct (Hreg (all, contour) Hin) as (seed & Hseed & Hs).
  exists seed. split; [done|]. split; [done|]. intros Hw Hh.
  pose proof (region_has_boundary binary w h seed all Hseed Hs) as Hne.
  destruct (Hg _ Hin) as (_ & _ & _ & _ & Hcont).
  specialize (Hcont Hw Hh). unfold isContourOf in Hcont. cbn [fst snd] in *.
  by destruct (boundaryOf binary w h all).
Qed.

Lemma omap_length {A B : Type} (f : A -> option B) (l : list A) :
  (length (omap f l) <= length l)%nat.
Proof.
  induction l as [|a l IH]; [done|]. cbn [omap list_omap].
  destruct (f a); simpl; fold (omap f l); lia.
Qed.

Section Shapes.

Variable acos : float -> float.

Lemma processContour_shapes (contours : list (list Point))
      (acc : list DetectedShape) :
  fold_left (processContour acos) contours (Some acc)
  = Some (acc ++ omap (shapeOf acos) contours).
Proof.
  revert acc. induction contours as [|c cs IH]; intros acc.
  { by rewrite app_nil_r. }
  cbn [fold_left omap list_omap].
  assert (Hstep : processContour acos (Some acc) c
                  = Some (acc ++ from_option (fun s => [s]) []
                                   (shapeOf acos c))).
  { unfold processContour, shapeOf. cbn [mbind option_bind].
    destruct (length c <? 3)%nat; [by rewrite app_nil_r|].
    destruct (simplifyContour_spec (S (length c)) c 2) as (r & -> & _);
      [done | lia |]. cbn [mbind option_bind].
    destruct (length r <? 3)%nat; [by rewrite app_nil_r|].
    destruct (classifyShape acos r c) as [s|]; [done|].
    by rewrite app_nil_r. }
  rewrite Hstep, IH.
  destruct (shapeOf acos c) as [s|]; cbn [from_option].
  - by rewrite <- app_assoc.
  - by rewrite app_nil_r.
Qed.

Lemma detectShapes_shapes (W : World) :
  exists comps,
    components (maskOf W) (width (image W)) (height (image W)) = Some comps
    /\ findContours (maskOf W) (width (image W)) (height (image W))
       = Some (kept comps)
    /\ fst (detectShapes acos W)
       = Some (mkResult (omap (shapeOf acos) (kept comps))
                        (now W (S (ticks W)) - now W (ticks W))%float
                        (width (image W)) (height (image W))).
Proof.
  destruct (findContours_components (maskOf W) (width (image W))
                                    (height (image W)))
    as (comps & Hc & Hf & _).
  exists comps. split; [done|]. split; [done|].
  rewrite detectShapes_run. cbn [fst]. unfold processContours.
  rewrite Hf. cbn [mbind option_bind].
  by rewrite processContour_shapes.
Qed.

End Shapes.

(** X14: [detectShapes] always returns; its shapes are, in the order of
    the contours that [findContours] returns, those contours for which
    the loop body yields a shape, at most one per contour; the two
    dimensions are copied from the image and the processing time is the
    second clock reading minus the first. *)
Theorem detectShapes_result (acos : float -> float) (W : World) :
  exists contours,
    findContours (maskOf W) (width (image W)) (height (image W))
    = Some contours
    /\ fst (detectShapes acos W)
       = Some (mkResult (omap (shapeOf acos) contours)
                        (now W (S (ticks W)) - now W (ticks W))%float
                        (width (image W)) (height (image W)))
    /\ (length (omap (shapeOf acos) contours) <= length contours)%nat.
Proof.
  destruct (detectShapes_shapes acos W) as (comps & _ & Hf & Hr).
  exists (kept comps). split; [done|]. split; [done|].
  apply omap_length.
Qed.

(** ** The component behind a detected shape *)

Section Origin.

Variable acos : float -> float.

Lemma shape_component (W : World) (r : DetectionResult) (s : DetectedShape) :
  fst (detectShapes acos W) = Some r -> s ∈ shapes r ->
  exists comps all contour simplified,
    components (maskOf W) (width (image W)) (height (image W)) = Some comps
    /\ (all, contour) ∈ comps /\ (10 < length contour)%nat
    /\ simplifyContour (S (length contour)) contour 2 = Some simplified
    /\ (3 <= length simplified)%nat
    /\ classifyShape acos simplified contour = Some s.
Proof.
  destruct (detectShapes_shapes acos W) as (comps & Hc & _ & ->).
  intros [= <-]. cbn [shapes].
  intros (c & (all & Hin & Hlen)%kept_elem & Hs)%list_elem_of_omap.
  unfold shapeOf in Hs.
  destruct (length c <? 3)%nat; [done|].
  destruct (simplifyContour (S (length c)) c 2) as [simplified|] eqn:Hsim;
    [|done].
  cbn [mbind option_bind] in Hs.
  destruct (length simplified <? 3)%nat eqn:H3; [done|].
  apply Nat.ltb_ge in H3.
  by exists comps, all, c, simplified.
Qed.

End Origin.

(** X15: In an image of at most 2^25 by 2^25 pixels, the bounding box of
    every detected shape is the tight bounding box of a whole 8-connected
    region of dark pixels of the thresholded image. *)
Theorem bounding_box_of_region (acos : float -> float) (W : World)
        (r : DetectionResult) (s : DetectedShape) :
  width (image W) <= 2 ^ 25 -> height (image W) <= 2 ^ 25 ->
  fst (detectShapes acos W) = Some r -> s ∈ shapes r ->
  exists seed region,
    (forall p, p ∈ region
               <-> connected (maskOf W) (width (image W)) (height (image W))
                             seed p)
    /\ calculateBounds region
       = Some (mkBounds (bx (boundingBox s)) (by_ (boundingBox s))
                        (bwidth (boundingBox s)) (bheight (boundingBox s))).
Proof.
  intros Hw Hh Hr Hs.
  destruct (shape_component acos W r s Hr Hs)
    as (comps & all & contour & simplified & Hc & Hin & _ & _ & _ & Hcl).
  destruct (component_facts (maskOf W) (width (image W)) (height (image W)))
    as (comps' & Hc' & _ & Hfacts).
  rewrite Hc in Hc'. injection Hc' as <-.
  destruct (Hfacts all contour Hin)
    as ((_ & _ & _ & Hsub & _) & seed & Hseed & Hreg & Hperm).
  specialize (Hperm Hw Hh). cbn [fst snd] in Hsub.
  exists seed, all. split; [done|].
  apply classifyShape_fields in Hcl as (b & t & c & Hb & _ & ->).
  cbn [boundingBox bx by_ bwidth bheight].
  replace (mkBounds (minX b) (minY b) (bw b) (bh b)) with b by by destruct b.
  destruct (calculateBounds_box _ _ Hb)
    as (Hall & (p0 & Hp0 & E0) & (p1 & Hp1 & E1) & (p2 & Hp2 & E2)
        & (p3 & Hp3 & E3)).
  destruct (calculateBounds_some all) as [b' Hb'].
  { intros ->. by apply elem_of_nil in Hseed. }
  destruct (calculateBounds_box _ _ Hb')
    as (Hall' & (q0 & Hq0 & F0) & (q1 & Hq1 & F1) & (q2 & Hq2 & F2)
        & (q3 & Hq3 & F3)).
  assert (Hext : forall q dx dy,
             (dx, dy) ∈ offsets -> q ∈ all ->
             (forall q', q' ∈ all ->
                         dx * px q' + dy * py q' <= dx * px q + dy * py q) ->
             q ∈ contour).
  { intros q dx dy Hd Hq Hmax. rewrite Hperm.
    by apply (extreme_is_boundary _ _ _ seed q all dx dy). }
  assert (Hc0 : q0 ∈ contour).
  { apply (Hext q0 (-1) 0); [unfold offsets; rewrite !elem_of_cons; tauto | done |].
    intros q' Hq'. specialize (Hall' q' Hq'). lia. }
  assert (Hc1 : q1 ∈ contour).
  { apply (Hext q1 0 (-1)); [unfold offsets; rewrite !elem_of_cons; tauto | done |].
    intros q' Hq'. specialize (Hall' q' Hq'). lia. }
  assert (Hc2 : q2 ∈ contour).
  { apply (Hext q2 1 0); [unfold offsets; rewrite !elem_of_cons; tauto | done |].
    intros q' Hq'. specialize (Hall' q' Hq'). lia. }
  assert (Hc3 : q3 ∈ contour).
  { apply (Hext q3 0 1); [unfold offsets; rewrite !elem_of_cons; tauto | done |].
    intros q' Hq'. specialize (Hall' q' Hq'). lia. }
  rewrite Hb'. f_equal.
  pose proof (Hall _ Hc0). pose proof (Hall _ Hc1).
  pose proof (Hall _ Hc2). pose proof (Hall _ Hc3).
  pose proof (Hall' _ (Hsub _ Hp0)). pose proof (Hall' _ (Hsub _ Hp1)).
  pose proof (Hall' _ (Hsub _ Hp2)). pose proof (Hall' _ (Hsub _ Hp3)).
  destruct b as [x0 y0 w0 h0], b' as [x0' y0' w0' h0'].
  cbn [minX minY bw bh] in *. f_equal; lia.
Qed.

Lemma bounding_box_of_region_witness :
  exists seed region,
    (forall p, p ∈ region <-> connected (maskOf spiralWorld) 13 13 seed p)
    /\ calculateBounds region = Some (mkBounds 0 0 13 13).
Proof.
  apply (bounding_box_of_region noAcos spiralWorld spiralResult spiralShape).
  - vm_compute. discriminate.
  - vm_compute. discriminate.
  - vm_compute. reflexivity.
  - apply list_elem_of_here.
Defined.

(** ** What the image contributes *)

Lemma sameColours_mask (W1 W2 : World) :
  width (image W1) = width (image W2) ->
  height (image W1) = height (image W2) ->
  sameColours (data (image W1)) (data (image W2)) = true ->
  maskOf W1 = maskOf W2.
Proof.
  intros Hw Hh [Hlen Hsame]%andb_true_iff.
  apply Nat.eqb_eq in Hlen. rewrite forallb_forall in Hsame.
  assert (Heq : forall i, (i mod 4 <> 3)%nat ->
                          data (image W1) !! i = data (image W2) !! i).
  { intros i Hi. destruct (decide (i < length (data (image W1)))%nat).
    - specialize (Hsame i). rewrite in_seq in Hsame.
      specialize (Hsame ltac:(lia)).
      apply orb_true_iff in Hsame as [H%Nat.eqb_eq | H]; [done|].
      by apply bool_decide_eq_true in H.
    - rewrite !lookup_ge_None_2 by lia. done. }
  unfold maskOf. rewrite !createBinaryImage_fold, Hw, Hh, Hlen.
  apply fold_left_ext_in. intros acc k _.
  assert (H0 : ((4 * k) mod 4 = 0)%nat)
    by (rewrite Nat.mul_comm; apply Nat.Div0.mod_mul).
  assert (H1 : ((4 * k + 1) mod 4 = 1)%nat).
  { rewrite Nat.add_comm, Nat.mul_comm, Nat.Div0.mod_add. done. }
  assert (H2 : ((4 * k + 2) mod 4 = 2)%nat).
  { rewrite Nat.add_comm, Nat.mul_comm, Nat.Div0.mod_add. done. }
  rewrite !Heq by lia. done.
Qed.

(** X16: The alpha channel has no influence: two images of the same
    dimensions whose red, green and blue samples agree yield the same
    shapes, whatever their alpha samples. *)
Theorem detectShapes_ignores_alpha (acos : float -> float) (W1 W2 : World) :
  width (image W1) = width (image W2) ->
  height (image W1) = height (image W2) ->
  sameColours (data (image W1)) (data (image W2)) = true ->
  exists r1 r2,
    fst (detectShapes acos W1) = Some r1
    /\ fst (detectShapes acos W2) = Some r2
    /\ shapes r1 = shapes r2.
Proof.
  intros Hw Hh Hsame.
  pose proof (sameColours_mask W1 W2 Hw Hh Hsame) as Hmask.
  destruct (detectShapes_total acos W1) as [r1 H1].
  destruct (detectShapes_total acos W2) as [r2 H2].
  exists r1, r2. split; [done|]. split; [done|].
  rewrite detectShapes_run in H1, H2. cbn [fst] in H1, H2.
  rewrite Hmask, Hw, Hh in H1.
  destruct (processContours acos (maskOf W2) _ _) as [sh|]; [|done].
  cbn [mbind option_bind] in *. by simplify_eq.
Qed.

Lemma detectShapes_ignores_alpha_witness :
  exists r1 r2,
    fst (detectShapes noAcos spiralWorld) = Some r1
    /\ fst (detectShapes noAcos clearSpiralWorld) = Some r2
    /\ shapes r1 = shapes r2.
Proof.
  apply (detectShapes_ignores_alpha noAcos spiralWorld clearSpiralWorld).
  - reflexivity.
  - reflexivity.
  - vm_compute. reflexivity.
Defined.

(** X17: A well-formed image without a dark pixel (every pixel's colour
    sum is at least 384) yields a result with no shape. *)
Theorem light_image_has_no_shape (acos : float -> float) (W : World) :
  wellFormed (image W) -> noDark (image W) = true ->
  exists r, fst (detectShapes acos W) = Some r /\ shapes r = [].
Proof.
  intros Hwf Hlight.
  destruct (createBinaryImage_mask W Hwf) as [_ Hmask].
  unfold noDark in Hlight. rewrite forallb_forall in Hlight.
  assert (Hnone : darkPixels (maskOf W) (width (image W)) (height (image W))
                  = []).
  { unfold darkPixels. apply filter_none. intros p _ Hp.
    apply darkAt_inBounds in Hp as [(_ & _ & Hidx)%inBounds_index Hg].
    specialize (Hmask (Z.to_nat (py p * width (image W) + px p))
                      ltac:(lia)).
    rewrite Z2Nat.id in Hmask by lia. rewrite Hg in Hmask.
    symmetry in Hmask. apply Z.ltb_lt in Hmask.
    specialize (Hlight (Z.to_nat (py p * width (image W) + px p))).
    rewrite in_seq in Hlight. specialize (Hlight ltac:(lia)). lia. }
  rewrite detectShapes_run. cbn [fst]. unfold processContours.
  rewrite findContours_few_dark by (rewrite Hnone; simpl; lia).
  cbn [mbind option_bind fold_left]. eexists. split; [reflexivity|]. done.
Qed.

Lemma light_image_has_no_shape_witness :
  exists r, fst (detectShapes noAcos whiteWorld) = Some r /\ shapes r = [].
Proof.
  apply (light_image_has_no_shape noAcos whiteWorld);
    vm_compute; reflexivity.
Defined.

(** ** The order of binary64 numbers *)

Lemma SFltb_chain (x y z : spec_float) :
  x <> S754_nan -> y <> S754_nan -> z <> S754_nan ->
  SFltb x y = false -> SFltb y z = false -> SFltb x z = false.
Proof.
  unfold SFltb.
  destruct x as [[]|[]| |[] mx ex], y as [[]|[]| |[] my ey],
           z as [[]|[]| |[] mz ez]; simpl; try done; intros _ _ _.
  all: change (Pos.compare_cont Eq) with Pos.compare.
  all: repeat match goal with
              | |- context [Z.compare ?a ?b] => destruct (Z.compare_spec a b)
              end; simpl; try done.
  all: repeat match goal with
              | |- context [Pos.compare ?a ?b] =>
                  destruct (Pos.compare_spec a b)
              end; simpl; try done; try lia.
Qed.

Lemma ltb_chain (a b c : float) :
  numF a -> numF b -> numF c ->
  (a <? b)%float = false -> (b <? c)%float = false -> (a <? c)%float = false.
Proof. unfold numF. rewrite !FloatAxioms.ltb_spec. apply SFltb_chain. Qed.

Lemma ltb_asym (a b : float) :
  (a <? b)%float = true -> (b <? a)%float = false.
Proof.
  rewrite !FloatAxioms.ltb_spec. unfold SFltb.
  rewrite (SFcompare_swap (Prim2SF a) (Prim2SF b)).
  by destruct (SFcompare _ _) as [[]|].
Qed.

Lemma ltb_irrefl (a : float) : (a <? a)%float = false.
Proof.
  rewrite FloatAxioms.ltb_spec. unfold SFltb.
  destruct (Prim2SF a) as [[]|[]| |[] m e]; simpl; try done;
    by rewrite Z.compare_refl, Pos.compare_cont_refl.
Qed.

Lemma nonnegF_numF (x : float) : nonnegF x -> numF x.
Proof. unfold nonnegF, numF. by destruct (Prim2SF x). Qed.

Lemma leb_numF (x : float) : (0 <=? x)%float = true -> numF x.
Proof.
  unfold numF. rewrite FloatAxioms.leb_spec. unfold SFleb.
  by destruct (Prim2SF x).
Qed.

Lemma leb_not_ltb (x : float) :
  (0 <=? x)%float = true -> (x <? 0)%float = false.
Proof.
  rewrite FloatAxioms.leb_spec, FloatAxioms.ltb_spec. unfold SFleb, SFltb.
  rewrite (SFcompare_swap (Prim2SF 0) (Prim2SF x)).
  by destruct (SFcompare _ _) as [[]|].
Qed.

(** ** The farthest interior point *)

Lemma farthest_max (contour : list Point) :
  pixelRange (contour !!! 0%nat) ->
  pixelRange (contour !!! (length contour - 1)%nat) ->
  nonnegF (fst (farthest contour))
  /\ forall i, (1 <= i <= length contour - 2)%nat ->
               (fst (farthest contour)
                <? pointToLineDistance (contour !!! i) (contour !!! 0%nat)
                     (contour !!! (length contour - 1)%nat))%float = false.
Proof.
  intros Hfirst Hlast. unfold farthest.
  set (dist := fun i => pointToLineDistance (contour !!! i)
                          (contour !!! 0%nat)
                          (contour !!! (length contour - 1)%nat)).
  set (f := fun '(maxDist, maxIndex) i =>
              if (maxDist <? dist i)%float then (dist i, i)
              else (maxDist, maxIndex)).
  assert (Hd : forall i, nonnegF (dist i))
    by (intros i; by apply pointToLineDistance_nonneg).
  assert (G : forall (l seen : list nat) (acc : float * nat),
             nonnegF (fst acc) ->
             (forall i, i ∈ seen -> (fst acc <? dist i)%float = false) ->
             nonnegF (fst (fold_left f l acc))
             /\ forall i, i ∈ seen ++ l ->
                          (fst (fold_left f l acc) <? dist i)%float = false).
  { induction l as [|j l IH]; intros seen acc Hacc Hseen.
    - rewrite app_nil_r. done.
    - cbn [fold_left]. rewrite (cons_middle j seen l), app_assoc.
      destruct acc as [md mi]. cbn [fst] in *. unfold f at 2 4.
      destruct (md <? dist j)%float eqn:Hlt; apply IH; cbn [fst]; auto.
      + intros i [Hi| ->%list_elem_of_singleton]%elem_of_app.
        * apply (ltb_chain _ md); auto using nonnegF_numF, ltb_asym.
        * apply ltb_irrefl.
      + intros i [Hi| ->%list_elem_of_singleton]%elem_of_app; auto. }
  destruct (G (seq 1 (length contour - 2)) [] (0%float, 0%nat))
    as [H1 H2].
  - by vm_compute.
  - by intros i ?%elem_of_nil.
  - split; [exact H1|]. intros i Hi. apply H2. cbn [app].
    apply elem_of_seq. lia.
Qed.

(** ** The tolerance of the simplification *)

Lemma last_dropLast (l : list Point) (m : Point) :
  last l = Some m -> l = dropLast l ++ [m].
Proof.
  destruct l as [|x l _] using rev_ind; [done|].
  rewrite last_snoc, dropLast_snoc. by intros [= ->].
Qed.

Lemma simplifyContour_cover (fuel : nat) (contour : list Point)
      (epsilon : float) :
  (0 <=? epsilon)%float = true -> Forall pixelRange contour ->
  (length contour < fuel)%nat ->
  exists r,
    simplifyContour fuel contour epsilon = Some r
    /\ forall p, p ∈ contour ->
                 p ∈ r
                 \/ exists l1 a b l2,
                      r = l1 ++ a :: b :: l2
                      /\ (pointToLineDistance p a b <=? epsilon)%float = true.
Proof.
  intros Heps. pose proof (leb_not_ltb _ Heps) as Heps'.
  revert contour.
  induction fuel as [|fuel IH]; intros contour Hrange Hfuel; [lia|].
  cbn [simplifyContour].
  destruct (Nat.leb_spec (length contour) 2) as [Hle|Hgt].
  { exists contour. split; [done|]. by left. }
  assert (Hfirst : pixelRange (contour !!! 0%nat)).
  { rewrite Forall_forall in Hrange. apply Hrange.
    apply list_elem_of_lookup_total_2. lia. }
  assert (Hlast : pixelRange (contour !!! (length contour - 1)%nat)).
  { rewrite Forall_forall in Hrange. apply Hrange.
    apply list_elem_of_lookup_total_2. lia. }
  pose proof (farthest_index contour) as Hidx.
  destruct (farthest_max contour Hfirst Hlast) as [Hmd Hmax].
  destruct (farthest contour) as [maxDist maxIndex]. cbn [fst] in *.
  destruct (epsilon <? maxDist)%float eqn:Hcmp.
  - destruct Hidx as [[-> ->]|Hidx]; [congruence|].
    destruct (lookup_lt_is_Some_2 contour maxIndex) as [m Hm]; [lia|].
    destruct (IH (take (maxIndex + 1) contour))
      as (left & Hleft & Hcl);
      [by apply Forall_take | rewrite length_take; lia|].
    destruct (IH (drop maxIndex contour))
      as (right & Hright & Hcr);
      [by apply Forall_drop | rewrite length_drop; lia|].
    destruct (simplifyContour_spec fuel (take (maxIndex + 1) contour)
                epsilon Heps') as (left' & Hleft' & _ & Hl);
      [rewrite length_take; lia|].
    destruct (simplifyContour_spec fuel (drop maxIndex contour)
                epsilon Heps') as (right' & Hright' & _ & Hr);
      [rewrite length_drop; lia|].
    rewrite Hleft in Hleft'. injection Hleft' as <-.
    rewrite Hright in Hright'. injection Hright' as <-.
    destruct Hl as (_ & _ & _ & Hl4); [rewrite length_take; lia|].
    destruct Hr as (_ & _ & Hr3 & _); [rewrite length_drop; lia|].
    rewrite Hleft, Hright. cbn [mbind option_bind].
    exists (dropLast left ++ right). split; [done|].
    assert (Hlm : last left = Some m).
    { rewrite Hl4. replace (maxIndex + 1)%nat with (S maxIndex) by lia.
      rewrite (take_S_r _ _ _ Hm). apply last_snoc. }
    assert (Hrm : head right = Some m).
    { rewrite Hr3, head_lookup, lookup_drop. by rewrite Nat.add_0_r. }
    destruct right as [|m' right1]; [done|]. injection Hrm as ->.
    assert (Hres : dropLast left ++ m :: right1 = left ++ right1).
    { rewrite (last_dropLast left m Hlm) at 2. by rewrite <- app_assoc. }
    intros p Hp.
    assert (Hsplit : p ∈ take (maxIndex + 1) contour
                     \/ p ∈ drop maxIndex contour).
    { rewrite <- (take_drop maxIndex contour) in Hp.
      apply elem_of_app in Hp as [Hp|Hp]; [left | by right].
      apply (elem_of_sublist (take maxIndex contour)); [done|].
      replace (maxIndex + 1)%nat with (S maxIndex) by lia.
      rewrite (take_S_r _ _ _ Hm). by apply sublist_inserts_r. }
    destruct Hsplit as [Hp'|Hp'].
    + destruct (Hcl p Hp') as [Hin|(l1 & a & b & l2 & -> & Hd)].
      * left. rewrite Hres. apply elem_of_app. by left.
      * right. exists l1, a, b, (l2 ++ right1). split; [|done].
        rewrite Hres. by rewrite <- app_assoc.
    + destruct (Hcr p Hp') as [Hin|(l1 & a & b & l2 & E & Hd)].
      * left. apply elem_of_app. by right.
      * right. exists (dropLast left ++ l1), a, b, l2. split; [|done].
        rewrite E. by rewrite <- app_assoc.
  - eexists. split; [reflexivity|]. intros p Hp.
    apply list_elem_of_lookup in Hp as [i Hi].
    pose proof (lookup_lt_Some _ _ _ Hi) as Hlt.
    assert (Hpi : contour !!! i = p) by by apply list_lookup_total_correct.
    destruct (decide (i = 0%nat)) as [->|H0].
    { left. rewrite Hpi. apply list_elem_of_here. }
    destruct (decide (i = (length contour - 1)%nat)) as [->|H1].
    { left. rewrite Hpi. apply list_elem_of_further, list_elem_of_here. }
    right. eexists [], _, _, []. split; [reflexivity|].
    rewrite <- Hpi.
    assert (Hnum : nonnegF (pointToLineDistance (contour !!! i)
                              (contour !!! 0%nat)
                              (contour !!! (length contour - 1)%nat)))
      by by apply pointToLineDistance_nonneg.
    apply not_ltb_leb; [by apply nonnegF_numF | by apply leb_numF|].
    apply (ltb_chain _ maxDist);
      auto using nonnegF_numF, leb_numF.
    apply Hmax. lia.
Qed.

(** X18: The Douglas-Peucker guarantee.  With a tolerance that is not
    negative and pixel coordinates below 2^25 in size, every point of the
    input is either kept or lies within the tolerance of a segment that
    joins two consecutive points of the result, the distance being the one
    that [pointToLineDistance] computes. *)
Theorem simplifyContour_tolerance (contour : list Point) (epsilon : float) :
  (0 <=? epsilon)%float = true -> Forall pixelRange contour ->
  exists r,
    simplifyContour (S (length contour)) contour epsilon = Some r
    /\ forall p, p ∈ contour ->
                 p ∈ r
                 \/ exists l1 a b l2,
                      r = l1 ++ a :: b :: l2
                      /\ (pointToLineDistance p a b <=? epsilon)%float = true.
Proof. intros Heps Hrange. apply simplifyContour_cover; [done | done | lia]. Qed.

Lemma simplifyContour_tolerance_witness :
  exists r,
    simplifyContour (S (length ellPoints)) ellPoints 2 = Some r
    /\ forall p, p ∈ ellPoints ->
                 p ∈ r
                 \/ exists l1 a b l2,
                      r = l1 ++ a :: b :: l2
                      /\ (pointToLineDistance p a b <=? 2)%float = true.
Proof.
  apply (simplifyContour_tolerance ellPoints 2).
  - reflexivity.
  - repeat constructor.
Defined.

(** X19: With a negative tolerance [simplifyContour] does not return on a
    contour of more than 2 points none of whose interior points is farther
    than 0 from the chord: the right half of the split is the whole input
    again, whatever the depth of the recursion. *)
Theorem simplifyContour_negative_diverges (contour : list Point)
        (epsilon : float) (fuel : nat) :
  (epsilon <? 0)%float = true -> (2 < length contour)%nat ->
  farthest contour = (0%float, 0%nat) ->
  simplifyContour fuel contour epsilon = None.
Proof.
  intros Heps Hlen Hfar. induction fuel as [|fuel IH]; [done|].
  cbn [simplifyContour].
  destruct (Nat.leb_spec (length contour) 2); [lia|].
  rewrite Hfar, Heps. change (drop 0 contour) with contour. rewrite IH.
  destruct (simplifyContour fuel (take (0 + 1) contour) epsilon);
    reflexivity.
Qed.

Lemma simplifyContour_negative_diverges_witness :
  simplifyContour 100 linePoints (-1) = None.
Proof.
  apply (simplifyContour_negative_diverges linePoints (-1) 100).
  - reflexivity.
  - simpl. lia.
  - reflexivity.
Defined.

(** ** The contract of [floodFill] *)

Lemma isBoundary_adjacent (binary : list bool) (w h : Z) (p : Point) :
  isBoundary binary w h (px p) (py p) = true
  <-> exists q, adjacent p q /\ darkAt binary w h q = false.
Proof.
  unfold isBoundary. rewrite existsb_exists. split.
  - intros ([dx dy] & Hd%list_elem_of_In & Hq).
    exists (mkPoint (px p + dx) (py p + dy)). split.
    + apply adjacent_offsets. by exists (dx, dy).
    + unfold darkAt. cbn [px py].
      destruct (inBounds w h (px p + dx) (py p + dy)); [|done].
      cbn [negb andb] in *. by apply negb_true_iff in Hq.
  - intros (q & ([dx dy] & Hd & ->)%adjacent_offsets & Hq).
    exists (dx, dy). split; [by apply list_elem_of_In|].
    unfold darkAt in Hq. cbn [px py fst snd] in Hq.
    destruct (inBounds w h (px p + dx) (py p + dy)); [|done].
    cbn [negb andb] in *. by apply negb_true_iff.
Qed.

(** X20: In an image of at most 2^25 by 2^25 pixels the fallback of
    [floodFill] to the full pixel set is never taken.  The contour
    returned for a component is not empty, has no repeated point, and
    consists exactly of the component's pixels that touch, by a side or a
    corner, a pixel that is light or outside the image. *)
Theorem floodFill_contour_is_boundary (binary : list bool) (w h : Z) :
  w <= 2 ^ 25 -> h <= 2 ^ 25 ->
  exists comps,
    components binary w h = Some comps
    /\ findContours binary w h = Some (kept comps)
    /\ forall all contour,
         (all, contour) ∈ comps ->
         contour <> [] /\ NoDup contour
         /\ forall p, p ∈ contour
                      <-> p ∈ all
                          /\ exists q, adjacent p q
                                       /\ darkAt binary w h q = false.
Proof.
  intros Hw Hh.
  destruct (component_facts binary w h) as (comps & Hc & Hf & Hfacts).
  exists comps. split; [done|]. split; [done|]. intros all contour Hin.
  destruct (Hfacts all contour Hin)
    as ((_ & Hnd & _) & seed & Hseed & Hreg & Hperm).
  specialize (Hperm Hw Hh). cbn [snd] in Hnd.
  pose proof (region_has_boundary binary w h seed all Hseed Hreg) as Hne.
  split; [|split; [done|]].
  - intros ->. by apply Permutation_nil_l in Hperm.
  - intros p. rewrite Hperm. unfold boundaryOf.
    rewrite list_elem_of_filter, isBoundary_adjacent. tauto.
Qed.

Lemma floodFill_contour_is_boundary_witness :
  exists comps,
    components blockMask 4 3 = Some comps
    /\ findContours blockMask 4 3 = Some (kept comps)
    /\ forall all contour,
         (all, contour) ∈ comps ->
         contour <> [] /\ NoDup contour
         /\ forall p, p ∈ contour
                      <-> p ∈ all
                          /\ exists q, adjacent p q
                                       /\ darkAt blockMask 4 3 q = false.
Proof. apply (floodFill_contour_is_boundary blockMask 4 3); lia. Defined.

(** X21: [floodFill] on a visited array of one cell per pixel returns, and
    its writes to the array are confined to the seed's region: no mark is
    removed, every new mark is on a dark pixel joined to the seed, and the
    contour consists of such pixels that were not marked before. *)
Theorem floodFill_marks_region (binary vis : list bool) (x y w h : Z) :
  length vis = Z.to_nat (w * h) ->
  exists contour vis',
    floodFill binary vis x y w h = Some (contour, vis')
    /\ length vis' = length vis
    /\ (forall i, JS.getb vis i = true -> JS.getb vis' i = true)
    /\ (forall i, JS.getb vis' i = true ->
                  JS.getb vis i = true
                  \/ exists p, connected binary w h (mkPoint x y) p
                               /\ py p * w + px p = i)
    /\ (forall p, p ∈ contour ->
                  connected binary w h (mkPoint x y) p
                  /\ JS.getb vis (py p * w + px p) = false
                  /\ JS.getb vis' (py p * w + px p) = true).
Proof.
  intros Hlen. unfold floodFill.
  destruct (floodRegion_spec binary w h vis x y Hlen)
    as (s & contour & Hrun & Hl & Hgood).
  destruct (floodRegion_reach binary w h vis x y s contour Hlen Hrun)
    as [[Fl Fd Fv Fc _ _ _ _] _].
  rewrite Hrun. cbn [mbind option_bind].
  exists contour, (visited s). split; [done|]. split; [congruence|].
  destruct Hgood as (_ & _ & _ & Hsub & _). cbn [fst snd] in Hsub.
  split; [|split].
  - intros i Hi. apply Fv. by left.
  - intros i [Hi | (p & Hp & Hi)]%Fv; [by left|]. right. exists p. auto.
  - intros p Hp%Hsub. split; [auto|]. split; [by apply Fd|].
    apply Fv. right. by exists p.
Qed.

Lemma floodFill_marks_region_witness :
  exists contour vis',
    floodFill blockMask (replicate 12 false) 0 0 4 3 = Some (contour, vis')
    /\ length vis' = length (replicate 12 false)
    /\ (forall i, JS.getb (replicate 12 false) i = true ->
                  JS.getb vis' i = true)
    /\ (forall i, JS.getb vis' i = true ->
                  JS.getb (replicate 12 false) i = true
                  \/ exists p, connected blockMask 4 3 (mkPoint 0 0) p
                               /\ py p * 4 + px p = i)
    /\ (forall p, p ∈ contour ->
                  connected blockMask 4 3 (mkPoint 0 0) p
                  /\ JS.getb (replicate 12 false) (py p * 4 + px p) = false
                  /\ JS.getb vis' (py p * 4 + px p) = true).
Proof.
  apply (floodFill_marks_region blockMask (replicate 12 false) 0 0 4 3).
  reflexivity.
Defined.

(** ** Edge lengths and perimeter *)

Lemma euclid_nonneg (p q : Point) :
  pixelRange p -> pixelRange q -> nonnegF (euclid p q).
Proof.
  intros [Hp1 Hp2]%pixelRange_bound [Hq1 Hq2]%pixelRange_bound.
  change (2 ^ 25) with 33554432 in *. unfold euclid, nonnegF.
  set (dx := px p - px q). set (dy := py p - py q).
  assert (-67108864 < dx < 67108864) by (unfold dx; lia).
  assert (-67108864 < dy < 67108864) by (unfold dy; lia).
  assert (0 <= dx * dx < 2 ^ 52) by nia.
  assert (0 <= dy * dy < 2 ^ 52) by nia.
  rewrite FloatAxioms.sqrt_spec. apply SFsqrt_nonneg.
  destruct (decide (dx * dx + dy * dy = 0)) as [->|Hne]; [by vm_compute|].
  destruct (Z2F_position (dx * dx + dy * dy)) as (m & e & -> & _); [lia|].
  done.
Qed.

Lemma sum_nonneg (l : list float) (acc : float) :
  nonnegF acc -> Forall nonnegF l ->
  nonnegF (fold_left PrimFloat.add l acc).
Proof.
  revert acc. induction l as [|d l IH]; intros acc Hacc Hl; [done|].
  apply Forall_cons in Hl as [Hd Hl]. cbn [fold_left].
  apply IH; [by apply add_nonneg | done].
Qed.

(** X22: For points with pixel coordinates below 2^25 in size, every edge
    length is a finite number that is not negative, there is one edge per
    point, and the perimeter is a number that is not negative (never
    NaN). *)
Theorem calculatePerimeter_nonneg (points : list Point) :
  Forall pixelRange points ->
  length (calculateEdgeLengths points) = length points
  /\ Forall (fun d => nonnegF d
                      /\ (d <? PrimFloat.infinity)%float = true)
            (calculateEdgeLengths points)
  /\ nonnegF (calculatePerimeter points).
Proof.
  intros Hrange.
  assert (Hedges : Forall (fun d => nonnegF d
                                    /\ (d <? PrimFloat.infinity)%float = true)
                          (calculateEdgeLengths points)).
  { unfold calculateEdgeLengths. apply Forall_forall.
    intros d (i & <- & Hi%in_seq)%list_elem_of_In%in_map_iff.
    rewrite Forall_forall in Hrange.
    assert (Hp : pixelRange (points !!! i))
      by (apply Hrange, list_elem_of_lookup_total_2; lia).
    assert (Hq : pixelRange (points !!! ((i + 1) mod length points)%nat)).
    { apply Hrange, list_elem_of_lookup_total_2.
      apply Nat.mod_upper_bound. lia. }
    split; [by apply euclid_nonneg | by apply euclid_finite]. }
  split; [|split; [done|]].
  - unfold calculateEdgeLengths. by rewrite length_map, length_seq.
  - unfold calculatePerimeter. apply sum_nonneg; [by vm_compute|].
    eapply Forall_impl; [exact Hedges|]. by intros d [? _].
Qed.

Lemma calculatePerimeter_nonneg_witness :
  length (calculateEdgeLengths trianglePoints) = length trianglePoints
  /\ Forall (fun d => nonnegF d
                      /\ (d <? PrimFloat.infinity)%float = true)
            (calculateEdgeLengths trianglePoints)
  /\ nonnegF (calculatePerimeter trianglePoints).
Proof.
  apply (calculatePerimeter_nonneg trianglePoints). repeat constructor.
Defined.

(** ** The final clamp of the confidence *)

Lemma ltb_trans (a b c : float) :
  numF a -> numF b -> numF c ->
  (a <? b)%float = true -> (b <? c)%float = true -> (a <? c)%float = true.
Proof.
  intros Ha Hb Hc Hab Hbc.
  destruct (a <? c)%float eqn:Hac; [done|].
  pose proof (ltb_chain a c b Ha Hc Hb Hac (ltb_asym _ _ Hbc)). congruence.
Qed.

Lemma min_below (y : float) :
  nonnegF y -> (JS.min 0.95 y <? 1)%float = true /\ nonnegF (JS.min 0.95 y).
Proof.
  intros Hy. pose proof (nonnegF_numF _ Hy) as Hn.
  assert (H95 : numF 0.95) by by vm_compute.
  assert (H1 : numF 1) by by vm_compute.
  assert (Hlt : (0.95 <? 1)%float = true) by by vm_compute.
  split; [|apply min_nonneg; [by vm_compute | done]].
  unfold JS.min. rewrite (nonnegF_not_nan _ Hy).
  change (PrimFloat.is_nan 0.95) with false. cbn [orb].
  destruct (0.95 <? y)%float eqn:E1; [done|].
  destruct (y <? 0.95)%float eqn:E2.
  { by apply (ltb_trans y 0.95 1). }
  change (PrimFloat.get_sign 0.95) with false. cbv iota.
  destruct (y <? 1)%float eqn:E3; [done|].
  pose proof (ltb_chain 0.95 y 1 H95 Hn H1 E1 E3). congruence.
Qed.

Lemma min_one_below (c : float) :
  nonnegF c -> (c <? 1)%float = true -> JS.min 1 c = c.
Proof.
  intros Hc Hlt. unfold JS.min. rewrite (nonnegF_not_nan _ Hc).
  change (PrimFloat.is_nan 1) with false. cbn [orb].
  by rewrite (ltb_asym _ _ Hlt), Hlt.
Qed.

Section Clamp.

Variable acos : float -> float.

Lemma decide_shape_below (simplified : list Point) (circularity c : float)
      (t : ShapeType) :
  decide_shape acos simplified circularity = Some (t, c) ->
  nonnegF c /\ (c <? 1)%float = true.
Proof.
  unfold decide_shape.
  destruct (0.85 <? circularity)%float eqn:Hc;
    destruct (8 <=? length simplified)%nat eqn:H8; cbn [andb].
  1: { intros H; simplify_eq.
       destruct (min_below (0.7 + circularity * 0.25)) as [H1 H2]; [|done].
       apply add_nonneg; [by vm_compute|].
       apply mul_nonneg; [|by vm_compute|by eexists _, _; vm_compute].
       apply (gt_nonneg 0.85); [by vm_compute | done]. }
  all: repeat match goal with
              | |- context [if ?b then _ else _] => destruct b
              end.
  all: intros H; simplify_eq; by vm_compute.
Qed.

(** X23: The final clamp [Math.min(1.0, confidence)] of [classifyShape]
    never changes the value: every confidence that the decision tree
    assigns is a number in [[0, 1)], and the confidence of the returned
    shape is that number. *)
Theorem classifyShape_clamp_is_identity
        (simplified originalContour : list Point) (s : DetectedShape) :
  classifyShape acos simplified originalContour = Some s ->
  exists t c,
    decide_shape acos simplified
      (4 * JS.PI * JS.Q2F (calculateArea originalContour)
       / (calculatePerimeter simplified * calculatePerimeter simplified))
    = Some (t, c)
    /\ type s = t /\ confidence s = c
    /\ (0 <=? c)%float = true /\ (c <? 1)%float = true.
Proof.
  intros (b & t & c & _ & Hd & ->)%classifyShape_fields.
  exists t, c. split; [done|]. split; [done|].
  destruct (decide_shape_below _ _ _ _ Hd) as [Hnn Hlt].
  cbn [confidence]. split; [by apply min_one_below|].
  split; [by apply zero_le_nonneg | done].
Qed.

End Clamp.

Lemma classifyShape_clamp_is_identity_witness :
  exists t c,
    decide_shape noAcos trianglePoints
      (4 * JS.PI * JS.Q2F (calculateArea trianglePoints)
       / (calculatePerimeter trianglePoints
          * calculatePerimeter trianglePoints))
    = Some (t, c)
    /\ type (mkShape triangle 0.95 (mkBox 0 0 13 13)
                     (mkCenter (13 # 2) (13 # 2)) (144 # 2)) = t
    /\ confidence (mkShape triangle 0.95 (mkBox 0 0 13 13)
                           (mkCenter (13 # 2) (13 # 2)) (144 # 2)) = c
    /\ (0 <=? c)%float = true /\ (c <? 1)%float = true.
Proof.
  apply (classifyShape_clamp_is_identity noAcos trianglePoints
           trianglePoints).
  vm_compute. reflexivity.
Defined.

(** ** The first pixel of a region *)

Lemma shifted_seq (C s n : nat) :
  map (fun k => Z.of_nat C + Z.of_nat k) (seq s n)
  = map Z.of_nat (seq (C + s) n).
Proof.
  revert s. induction n as [|n IH]; intros s; [done|].
  cbn [seq map]. f_equal; [lia|]. rewrite IH. by rewrite Nat.add_succ_r.
Qed.

Lemma row_keys (w : Z) (y : nat) :
  map (fun xy : Z * Z => snd xy * w + fst xy)
      (JS.range w ≫= (fun x => [(x, Z.of_nat y)]))
  = map Z.of_nat (seq (y * Z.to_nat w) (Z.to_nat w)).
Proof.
  destruct (Z.le_gt_cases w 0) as [Hw|Hw].
  { unfold JS.range. replace (Z.to_nat w) with 0%nat by lia. done. }
  rewrite <- (Nat.add_0_r (y * Z.to_nat w)), <- shifted_seq.
  unfold JS.range. generalize (seq 0 (Z.to_nat w)). intros l.
  induction l as [|k l IH]; [done|].
  cbn [map mbind list_bind app]. cbn [map mbind list_bind app] in IH.
  rewrite IH. f_equal. cbn [fst snd]. nia.
Qed.

Lemma raster_keys (w : Z) (H : nat) :
  map (fun xy : Z * Z => snd xy * w + fst xy)
      (map Z.of_nat (seq 0 H)
         ≫= (fun y => JS.range w ≫= (fun x => [(x, y)])))
  = map Z.of_nat (seq 0 (H * Z.to_nat w)).
Proof.
  induction H as [|H IH]; [done|].
  rewrite seq_S, map_app, bind_app, map_app, IH. cbn [Nat.add map].
  replace (S H * Z.to_nat w)%nat with (H * Z.to_nat w + Z.to_nat w)%nat
    by lia.
  rewrite seq_app, map_app. cbn [Nat.add]. f_equal.
  cbn [mbind list_bind]. rewrite app_nil_r. apply row_keys.
Qed.

Lemma raster_lookup (w h : Z) (i : nat) (x y : Z) :
  raster w h !! i = Some (x, y) -> y * w + x = Z.of_nat i.
Proof.
  intros Hi.
  assert (Hk : map (fun xy : Z * Z => snd xy * w + fst xy) (raster w h) !! i
               = Some (y * w + x)).
  { change (map ?f ?l) with (f <$> l). by rewrite list_lookup_fmap, Hi. }
  assert (E : raster w h
              = map Z.of_nat (seq 0 (Z.to_nat h))
                  ≫= (fun y => JS.range w ≫= (fun x => [(x, y)])))
    by reflexivity.
  rewrite E, raster_keys in Hk.
  change (map ?f ?l) with (f <$> l) in Hk.
  rewrite list_lookup_fmap in Hk.
  destruct (seq 0 _ !! i) as [j|] eqn:Hj; [|done].
  apply lookup_seq in Hj as [-> _]. by injection Hk as <-.
Qed.

Lemma raster_increasing (w h : Z) (l1 l2 : list (Z * Z)) (a b : Z * Z) :
  raster w h = l1 ++ a :: l2 -> b ∈ l2 ->
  snd a * w + fst a < snd b * w + fst b.
Proof.
  intros Hr (j & Hj)%list_elem_of_lookup.
  destruct a as [x y], b as [x' y']. cbn [fst snd].
  assert (Ha : raster w h !! length l1 = Some (x, y)).
  { rewrite Hr. by rewrite list_lookup_middle. }
  assert (Hb : raster w h !! (length l1 + S j)%nat = Some (x', y')).
  { rewrite Hr. rewrite lookup_app_r by lia.
    replace (length l1 + S j - length l1)%nat with (S j) by lia. done. }
  apply raster_lookup in Ha, Hb. lia.
Qed.

Lemma floodRegion_contour_head (binary vis : list bool) (x y w h : Z)
      (s : Fill) (contour : list Point) :
  floodRegion binary vis x y w h = Some (s, contour) ->
  boundaryPoints s <> [] -> head contour = head (boundaryPoints s).
Proof.
  unfold floodRegion.
  destruct (fillLoop _ _ _ _ _) as [s1|]; [|done]. cbn [mbind option_bind].
  destruct (boundaryPoints s1) as [|b0 rest] eqn:Hb.
  { cbn [length Nat.ltb Nat.leb mbind option_bind]. intros [= <- <-].
    by rewrite Hb. }
  change (0 <? length (b0 :: rest))%nat with true. cbv iota.
  unfold orderBoundaryPoints.
  destruct (setOf_spec rest [] (NoDup_nil_2)) as (_ & _ & Hlen).
  fold (setOf rest) in Hlen. simpl in Hlen.
  destruct (orderLoop_total (orderFuel (b0 :: rest)) [b0] (setOf rest) b0)
    as (picked & -> & _); [unfold orderFuel; simpl; lia|].
  cbn [mbind option_bind app length Nat.ltb Nat.leb].
  intros [= <- <-] _. by rewrite Hb.
Qed.

Lemma StronglySorted_snoc {A : Type} (R : A -> A -> Prop) (l : list A)
      (c : A) :
  StronglySorted R l -> Forall (fun a => R a c) l ->
  StronglySorted R (l ++ [c]).
Proof.
  induction 1 as [|a l Hl IH Ha]; intros Hc; cbn [app].
  - by repeat constructor.
  - apply Forall_cons in Hc as [Hac Hc]. constructor; [by apply IH|].
    apply Forall_app. split; [done|]. by apply Forall_singleton.
Qed.

Lemma StronglySorted_later {A : Type} (R : A -> A -> Prop) (l1 l2 : list A)
      (c c' : A) :
  StronglySorted R (l1 ++ c :: l2) -> c' ∈ l2 -> R c c'.
Proof.
  induction l1 as [|a l1 IH]; cbn [app]; intros Hs Hc'.
  - apply StronglySorted_inv in Hs as [_ Hall].
    rewrite Forall_forall in Hall. by apply Hall.
  - apply StronglySorted_inv in Hs as [Hs _]. by apply IH.
Qed.

Lemma kept_sorted (w : Z) (comps : list (list Point * list Point)) :
  StronglySorted (fun c c' => before w (snd c) (snd c')) comps ->
  StronglySorted (before w) (kept comps).
Proof.
  induction 1 as [|c comps Hs IH Hc]; [constructor|].
  unfold kept. rewrite filter_cons.
  destruct (decide (10 < length (snd c))%nat); [|done].
  cbn [map]. constructor; [done|].
  apply Forall_forall. intros c' (a & Hin & _)%kept_elem.
  rewrite Forall_forall in Hc. apply (Hc (a, c') Hin).
Qed.

Section First.

Variables (binary : list bool) (w h : Z).

Hypothesis w_pos : 0 < w.

Lemma new_component_first (done pixels : list (Z * Z)) (vis : list bool)
      (comps : list (list Point * list Point)) (x y : Z) (s : Fill)
      (contour : list Point) :
  ScanInv binary w h vis comps ->
  ScanInv binary w h (visited s) (comps ++ [(allPoints s, contour)]) ->
  (forall x' y', (x', y') ∈ done -> JS.getb binary (y' * w + x') = true ->
                 JS.getb vis (y' * w + x') = true) ->
  (forall x' y', inBounds w h x' y' = true ->
                 (x', y') ∈ done ++ (x, y) :: pixels) ->
  (forall b, b ∈ pixels -> y * w + x < snd b * w + fst b) ->
  inBounds w h x y = true ->
  floodRegion binary vis x y w h = Some (s, contour) ->
  startsAt w (mkPoint x y) (allPoints s, contour).
Proof.
  intros Hinv Hinv1 Hcov Huni Hinc Hin Hrun.
  pose proof (si_len _ _ _ _ _ Hinv) as Hlen.
  destruct (floodRegion_reach binary w h vis x y s contour Hlen Hrun)
    as [[_ Fd _ _ _ _ _ Fhead] _].
  destruct (si_region _ _ _ _ _ Hinv1 (allPoints s, contour))
    as (seed' & Hseed' & Hreg).
  { apply elem_of_app. right. apply list_elem_of_here. }
  cbn [fst] in Hseed', Hreg.
  assert (Hall : head (allPoints s) = Some (mkPoint x y)).
  { destruct (allPoints s) as [|a l] eqn:E.
    - by apply elem_of_nil in Hseed'.
    - cbn [head]. f_equal. by apply Fhead. }
  assert (Hmin : forall p, p ∈ allPoints s ->
                           y * w + x <= py p * w + px p).
  { intros p Hp. destruct (Fd p Hp) as [[Hpin Hpb]%darkAt_inBounds Hpv].
    pose proof (Huni _ _ Hpin) as Hu.
    apply elem_of_app in Hu as [Hd | Hu].
    { specialize (Hcov _ _ Hd Hpb). congruence. }
    apply elem_of_cons in Hu as [Hu | Hq].
    - injection Hu as <- <-. lia.
    - specialize (Hinc _ Hq). cbn [fst snd] in Hinc. lia. }
  assert (Hseedin : mkPoint x y ∈ allPoints s)
    by (by apply head_Some_elem_of).
  assert (Hb : isBoundary binary w h x y = true).
  { apply (isBoundary_adjacent binary w h (mkPoint x y)).
    exists (mkPoint x (y - 1)). split; [unfold adjacent; cbn [px py]; lia|].
    destruct (darkAt binary w h (mkPoint x (y - 1))) eqn:Hq; [|done].
    exfalso.
    assert (Hqin : mkPoint x (y - 1) ∈ allPoints s).
    { apply Hreg. apply (connected_step _ _ _ _ (mkPoint x y));
        [by apply Hreg | unfold adjacent; cbn [px py]; lia | done]. }
    specialize (Hmin _ Hqin). cbn [px py] in Hmin. nia. }
  unfold startsAt. cbn [fst snd px py].
  split; [done|]. split; [|done].
  destruct (fill_start binary w h vis x y Hlen) as (s' & Hs' & Hfi & _).
  assert (s' = s) as ->.
  { unfold floodRegion in Hrun. rewrite Hs' in Hrun.
    cbn [mbind option_bind] in Hrun.
    destruct (if (0 <? length (boundaryPoints s'))%nat then _ else _);
      [|done].
    cbn [mbind option_bind] in Hrun. by injection Hrun. }
  pose proof (inv_boundary _ _ _ _ Hfi) as Hbd.
  assert (Hbh : head (boundaryPoints s) = Some (mkPoint x y)).
  { rewrite Hbd. unfold boundaryOf.
    destruct (allPoints s) as [|a l]; [done|]. injection Hall as ->.
    rewrite filter_cons, decide_True by done. done. }
  rewrite (floodRegion_contour_head _ _ _ _ _ _ _ _ Hrun); [done|].
  intros E. by rewrite E in Hbh.
Qed.

Lemma scan_order (pixels done : list (Z * Z)) (vis : list bool)
      (comps : list (list Point * list Point)) (vis' : list bool)
      (comps' : list (list Point * list Point)) :
  ScanInv binary w h vis comps ->
  (forall x y, (x, y) ∈ done -> JS.getb binary (y * w + x) = true ->
               JS.getb vis (y * w + x) = true) ->
  (forall x y, inBounds w h x y = true -> (x, y) ∈ done ++ pixels) ->
  (forall x y, (x, y) ∈ pixels -> inBounds w h x y = true) ->
  (forall l1 a l2 b, pixels = l1 ++ a :: l2 -> b ∈ l2 ->
                     snd a * w + fst a < snd b * w + fst b) ->
  (forall a b, a ∈ done -> b ∈ pixels ->
               snd a * w + fst a < snd b * w + fst b) ->
  scanOrder w done comps ->
  fold_left (scanComponent binary w h) pixels (Some (vis, comps))
  = Some (vis', comps') ->
  scanOrder w (done ++ pixels) comps'.
Proof.
  revert done vis comps.
  induction pixels as [|[x y] pixels IH];
    intros done vis comps Hinv Hcov Huni Hin Hinc Hsep Hord.
  { intros [= <- <-]. by rewrite app_nil_r. }
  cbn [fold_left].
  destruct (scanComponent binary w h (Some (vis, comps)) (x, y))
    as [[vis1 comps1]|] eqn:Hstep; [|by rewrite scanComponent_none].
  assert (Hxy : inBounds w h x y = true) by apply Hin, list_elem_of_here.
  destruct (scanComponent_inv binary w h vis comps x y vis1 comps1 Hinv Hxy
              Hstep) as (Hinv1 & Hmono & Hseed).
  rewrite (cons_middle (x, y) done pixels), app_assoc.
  apply (IH (done ++ [(x, y)])); [done| | | | | |].
  - intros x' y' [Hd | [= -> ->]%list_elem_of_singleton]%elem_of_app Hb;
      auto.
  - intros x' y' Hb. rewrite <- app_assoc. by apply Huni.
  - intros x' y' Hp. by apply Hin, list_elem_of_further.
  - intros l1 a l2 b -> Hb. by apply (Hinc ((x, y) :: l1) a l2 b).
  - intros a b [Ha | ->%list_elem_of_singleton]%elem_of_app Hb.
    + apply Hsep; [done | by apply list_elem_of_further].
    + by apply (Hinc [] (x, y) pixels b).
  - destruct Hord as [Hstart Hsorted].
    assert (Hstart' : Forall (fun c => exists seed,
                                  startsAt w seed c
                                  /\ (px seed, py seed) ∈ done ++ [(x, y)])
                             comps).
    { eapply Forall_impl; [exact Hstart|]. intros c (seed & H1 & H2).
      exists seed. split; [done|]. apply elem_of_app. by left. }
    unfold scanComponent in Hstep. cbn [mbind option_bind] in Hstep.
    destruct (JS.getb binary (y * w + x) && negb (JS.getb vis (y * w + x))).
    2:{ injection Hstep as <- <-. by split. }
    destruct (floodRegion binary vis x y w h) as [[s contour]|] eqn:Hrun;
      [|done].
    cbn [mbind option_bind] in Hstep. injection Hstep as <- <-.
    assert (Hnew : startsAt w (mkPoint x y) (allPoints s, contour)).
    { apply (new_component_first done pixels vis comps x y s contour);
        auto.
      intros b Hb. by apply (Hinc [] (x, y) pixels b). }
    split.
    + apply Forall_app. split; [done|]. apply Forall_singleton.
      exists (mkPoint x y). split; [done|]. cbn [px py].
      apply elem_of_app. right. apply list_elem_of_here.
    + apply StronglySorted_snoc; [done|].
      apply Forall_forall. intros c Hc. rewrite Forall_forall in Hstart.
      destruct (Hstart c Hc) as (seed & (_ & Hh & _) & Hd).
      intros s0 s0' H0 H0'. destruct Hnew as (_ & Hh' & _).
      cbn [snd] in H0', Hh'. rewrite Hh in H0. rewrite Hh' in H0'.
      injection H0 as <-. injection H0' as <-. cbn [px py].
      apply (Hsep (px seed, py seed) (x, y)); [done|].
      apply list_elem_of_here.
Qed.

End First.

Lemma raster_empty (w h : Z) : w <= 0 -> raster w h = [].
Proof.
  intros Hw. unfold raster, JS.range.
  replace (Z.to_nat w) with 0%nat by lia. cbn [seq map].
  generalize (map Z.of_nat (seq 0 (Z.to_nat h))). intros l.
  by induction l.
Qed.

Lemma scan_start (binary : list bool) (w h : Z) :
  ScanInv binary w h (replicate (Z.to_nat (w * h)) false) [].
Proof.
  constructor.
  - apply length_replicate.
  - intros i. split.
    + unfold JS.getb. destruct (i <? 0); [done|].
      destruct (replicate _ _ !! _) as [b|] eqn:E; [|done].
      apply lookup_replicate in E as [-> _]. done.
    + by intros (p & ?%elem_of_nil & _).
  - by intros c ?%elem_of_nil.
  - apply NoDup_nil_2.
Qed.

Lemma components_order (binary : list bool) (w h : Z)
      (comps : list (list Point * list Point)) :
  0 < w -> components binary w h = Some comps ->
  scanOrder w (raster w h) comps.
Proof.
  intros Hw Hc. unfold components in Hc.
  destruct (fold_left _ _ _) as [[vis' comps']|] eqn:Hrun; [|done].
  cbn [mbind option_bind] in Hc. injection Hc as ->.
  apply (scan_order binary w h Hw (raster w h) []
           (replicate (Z.to_nat (w * h)) false) [] vis' comps).
  - apply scan_start.
  - by intros x y ?%elem_of_nil.
  - intros x y Hb. by apply raster_elem.
  - intros x y. apply raster_elem.
  - intros l1 a l2 b. apply raster_increasing.
  - by intros a b ?%elem_of_nil.
  - split; constructor.
  - done.
Qed.

Lemma raster_before (w h : Z) (s s' : Point) :
  inBounds w h (px s) (py s) = true -> inBounds w h (px s') (py s') = true ->
  py s * w + px s < py s' * w + px s' ->
  py s < py s' \/ (py s = py s' /\ px s < px s').
Proof.
  intros Hs%inBounds_index Hs'%inBounds_index Hlt.
  destruct (Z.lt_trichotomy (py s) (py s')) as [?|[?|?]]; [by left| |].
  - right. split; [done|]. nia.
  - exfalso. assert (py s' * w + w <= py s * w) by nia. lia.
Qed.

(** X24: Every component that [findContours] floods starts at the first of
    its pixels in raster order (the left-most pixel of its top row), and
    so does the contour returned for it: the first point of the contour is
    that pixel. *)
Theorem contour_starts_at_first_pixel (binary : list bool) (w h : Z) :
  exists comps,
    components binary w h = Some comps
    /\ findContours binary w h = Some (kept comps)
    /\ forall all contour,
         (all, contour) ∈ comps ->
         exists seed,
           head all = Some seed /\ head contour = Some seed
           /\ forall p, p ∈ all ->
                        py seed < py p \/ (py seed = py p /\ px seed <= px p).
Proof.
  destruct (findContours_components binary w h) as (comps & Hc & Hf & Hg).
  exists comps. split; [done|]. split; [done|]. intros all contour Hin.
  destruct (Z.le_gt_cases w 0) as [Hw|Hw].
  { unfold components in Hc. rewrite raster_empty in Hc by done.
    cbn [fold_left mbind option_bind] in Hc. injection Hc as <-.
    by apply elem_of_nil in Hin. }
  destruct (components_order binary w h comps ltac:(lia) Hc) as [Hfirst _].
  rewrite Forall_forall in Hfirst.
  destruct (Hfirst _ Hin) as (seed & (H1 & H2 & Hmin) & _).
  cbn [fst snd] in *.
  exists seed. split; [done|]. split; [done|]. intros p Hp.
  specialize (Hmin p Hp). rewrite Forall_forall in Hg.
  destruct (Hg _ Hin) as (_ & _ & Hb & _). cbn [fst] in Hb.
  assert (Hs : seed ∈ all) by by apply head_Some_elem_of.
  destruct (decide (py seed * w + px seed = py p * w + px p)) as [E|E].
  - apply (index_inj w h) in E as ->; auto. right. lia.
  - destruct (raster_before w h seed p) as [?|[? ?]]; auto; [lia|].
    right. lia.
Qed.

(** X25: [findContours] returns the contours in the raster order of their
    first points: of two returned contours, the earlier one starts at a
    pixel that lies in a higher row, or in the same row and further
    left. *)
Theorem contours_in_raster_order (binary : list bool) (w h : Z) :
  exists contours,
    findContours binary w h = Some contours
    /\ forall l1 c l2 c' s s',
         contours = l1 ++ c :: l2 -> c' ∈ l2 ->
         head c = Some s -> head c' = Some s' ->
         py s < py s' \/ (py s = py s' /\ px s < px s').
Proof.
  destruct (findContours_components binary w h) as (comps & Hc & Hf & Hg).
  exists (kept comps). split; [done|].
  intros l1 c l2 c' s s' Hsplit Hc' Hs Hs'.
  destruct (Z.le_gt_cases w 0) as [Hw|Hw].
  { unfold components in Hc. rewrite raster_empty in Hc by done.
    cbn [fold_left mbind option_bind] in Hc. injection Hc as <-.
    by destruct l1. }
  destruct (components_order binary w h comps ltac:(lia) Hc) as [_ Hsorted].
  apply kept_sorted in Hsorted. rewrite Hsplit in Hsorted.
  pose proof (StronglySorted_later _ _ _ _ _ Hsorted Hc' s s' Hs Hs') as Hlt.
  rewrite Forall_forall in Hg.
  assert (Hbounds : forall k p, k ∈ kept comps -> p ∈ k ->
                                inBounds w h (px p) (py p) = true).
  { intros k p (a & Hin & _)%kept_elem Hp.
    destruct (Hg _ Hin) as (_ & _ & Hb & Hsub & _). by apply Hb, Hsub. }
  apply (raster_before w h); [| |done].
  - apply (Hbounds c); [|by apply head_Some_elem_of].
    rewrite Hsplit. apply elem_of_app. right. apply list_elem_of_here.
  - apply (Hbounds c'); [|by apply head_Some_elem_of].
    rewrite Hsplit. apply elem_of_app. right. by apply list_elem_of_further.
Qed.

(** ** The keys of the set of remaining points *)

Module KeyFacts.

Import String Ascii Key.

Lemma uint_commaFree (d : Decimal.uint) :
  commaFree (DecimalString.NilEmpty.string_of_uint d) = true.
Proof. induction d; simpl; auto. Qed.

Lemma showZ_commaFree (z : Z) : commaFree (showZ z) = true.
Proof.
  unfold showZ, DecimalString.NilZero.string_of_int.
  assert (H : forall d, commaFree (DecimalString.NilZero.string_of_uint d)
                        = true).
  { intros d. unfold DecimalString.NilZero.string_of_uint.
    destruct d; try apply uint_commaFree. reflexivity. }
  destruct (Z.to_int z); simpl; auto.
Qed.

Lemma splitComma_free (s : string) :
  commaFree s = true -> splitComma s = [s].
Proof.
  induction s as [|c s IH]; [done|]. simpl.
  intros [Hc Hs]%andb_true_iff. apply negb_true_iff in Hc.
  rewrite Hc, (IH Hs). done.
Qed.

Lemma splitComma_append (a b : string) :
  commaFree a = true ->
  splitComma (append a (String "," b)) = a :: splitComma b.
Proof.
  induction a as [|c a IH]; [done|]. simpl.
  intros [Hc Ha]%andb_true_iff. apply negb_true_iff in Hc.
  rewrite Hc, (IH Ha). done.
Qed.

Lemma readZ_showZ (z : Z) : readZ (showZ z) = Some z.
Proof.
  unfold readZ, showZ. rewrite DecimalString.NilZero.isi.
  - simpl. by rewrite DecimalZ.of_to.
  - destruct z; simpl; try done. intros [= H].
    by apply DecimalPos.Unsigned.to_uint_nonnil in H.
  - destruct z; simpl; try done. intros [= H].
    by apply DecimalPos.Unsigned.to_uint_nonnil in H.
Qed.

(** X26: The key of a point reads back as the point: the string
    [`${x},${y}`] written for an integer point is split and parsed into
    the same coordinates, so two points have the same key only if they are
    the same point, and deleting a key from the set removes that point
    and no other. *)
Theorem parseKey_key (p q : Point) :
  parseKey (key p) = Some p /\ (key p = key q -> p = q).
Proof.
  assert (H : forall r, parseKey (key r) = Some r).
  { intros r. unfold parseKey, key.
    rewrite splitComma_append by apply showZ_commaFree.
    rewrite splitComma_free by apply showZ_commaFree.
    rewrite !readZ_showZ. by destruct r. }
  split; [apply H|]. intros Heq.
  pose proof (H p) as Hp. rewrite Heq, H in Hp. by injection Hp.
Qed.

End KeyFacts.
